(** * prime_numbers.cpp: partition, compute, persist and merge

    A shallow embedding of [src/prime_numbers.cpp] and the properties its
    specification states about it.

    Conventions of the embedding.
    - [long long] is a 64-bit two's complement integer: a [Z] together with
      [wrap64] applied at every arithmetic operation of the source, which is
      what the compiled program computes where the language leaves signed
      overflow undefined.  [unsigned int] is a [Z] reduced by [wrap32].
      Division and remainder truncate towards zero ([Z.quot], [Z.rem]).
    - Loops whose exit depends on wrapped arithmetic take a [fuel] argument and
      answer [None] when it runs out; the theorems show how much fuel is enough
      wherever the source loop ends, and that no amount is enough where it does
      not.
    - A call that can also leave by an exception answers a [Result]: the
      value it returns, [Aborts] for an exception that nothing catches, or
      [Unfinished] when the fuel runs out.  The one exception modelled is the
      one [localOut.reserve] throws: [std::length_error] above
      [vector_max_size], [std::bad_alloc] when the environment refuses the
      memory.  It leaves [workerTask], and in a thread of [main] that calls
      [std::terminate], which ends the process.
    - The file system is a finite map from file names to contents, with the
      outcome of opening a stream supplied by the environment.
    - All other allocations succeed: [emplace_back] stays within the capacity
      reserved in the worker, and the vectors, strings and threads of [main]
      are taken to fit.
    - The library routines [std::sort], [std::unique], [operator<<] and
      [operator>>] on [long long] are modelled by their contracts in the
      classic locale. *)

From Stdlib Require Import ZArith Znumtheory Lia List Ascii Sorted.
From Stdlib Require Import Zmod.ZmodInv.
From stdpp Require Import base option list strings gmap.

Local Open Scope Z_scope.

(** ** Machine integers *)

Module LL.

Definition LLONG_MAX : Z := 9223372036854775807.
Definition LLONG_MIN : Z := -9223372036854775808.
Definition UINT_MAX : Z := 4294967295.

(** The values of [long long]. *)
Definition in_range (z : Z) : Prop := LLONG_MIN <= z <= LLONG_MAX.

Definition in_rangeb (z : Z) : bool := (LLONG_MIN <=? z) && (z <=? LLONG_MAX).

(** Reduction of a mathematical result to 64-bit two's complement. *)
Definition wrap64 (z : Z) : Z := (z + 2 ^ 63) mod 2 ^ 64 - 2 ^ 63.

(** Reduction to [unsigned int]. *)
Definition wrap32 (z : Z) : Z := z mod 2 ^ 32.

Definition add (a b : Z) : Z := wrap64 (a + b).
Definition sub (a b : Z) : Z := wrap64 (a - b).
Definition mul (a b : Z) : Z := wrap64 (a * b).
Definition div (a b : Z) : Z := wrap64 (Z.quot a b).
Definition rem (a b : Z) : Z := Z.rem a b.

End LL.

Import LL.

(** ** The primality test *)

(** [for (long long d = 3; d * d <= n; d += 2) if (n % d == 0) return false;
    return true;] from the state in which the loop variable holds [d]. *)
Fixpoint isPrime_loop (fuel : nat) (n d : Z) : option bool :=
  match fuel with
  | O => None
  | S fuel' =>
      if mul d d <=? n then
        if rem n d =? 0 then Some false
        else isPrime_loop fuel' n (add d 2)
      else Some true
  end.

Definition isPrime (fuel : nat) (n : Z) : option bool :=
  if n <? 2 then Some false
  else if n =? 2 then Some true
  else if rem n 2 =? 0 then Some false
  else isPrime_loop fuel n 3.

(** ** Text written and read through the stream library *)

(** [std::isdigit] and [std::isspace] in the classic locale. *)
Definition isdigit (c : ascii) : bool :=
  match c with
  | "0" | "1" | "2" | "3" | "4" | "5" | "6" | "7" | "8" | "9" => true
  | _ => false
  end%char.

Definition isspace (c : ascii) : bool :=
  match c with
  | "009" | "010" | "011" | "012" | "013" | " " => true
  | _ => false
  end%char.

Definition digit_char (d : Z) : ascii :=
  match d with
  | 0 => "0" | 1 => "1" | 2 => "2" | 3 => "3" | 4 => "4"
  | 5 => "5" | 6 => "6" | 7 => "7" | 8 => "8" | _ => "9"
  end%char.

Definition digit_value (c : ascii) : Z :=
  match c with
  | "0" => 0 | "1" => 1 | "2" => 2 | "3" => 3 | "4" => 4
  | "5" => 5 | "6" => 6 | "7" => 7 | "8" => 8 | _ => 9
  end%char.

(** The decimal digits of [n >= 0] in front of [acc], most significant
    first. *)
Fixpoint digits_fuel (fuel : nat) (n : Z) (acc : string) : string :=
  match fuel with
  | O => acc
  | S fuel' =>
      let acc' := String (digit_char (n mod 10)) acc in
      if n / 10 =? 0 then acc' else digits_fuel fuel' (n / 10) acc'
  end.

(** The value of a string of digits read as a decimal numeral. *)
Definition decimal_value (s : string) : Z :=
  fold_left (fun acc c => 10 * acc + digit_value c)
    (String.list_ascii_of_string s) 0.

(** [os << n] for an unsigned value; a 64-bit magnitude has at most 20
    digits. *)
Definition show_unsigned (n : Z) : string := digits_fuel 20 n "".

(** [os << v] for a [long long]. *)
Definition show_ll (v : Z) : string :=
  if v <? 0 then String "-"%char (show_unsigned (- v)) else show_unsigned v.

Fixpoint skip_ws (s : string) : string :=
  match s with
  | String c s' => if isspace c then skip_ws s' else s
  | EmptyString => s
  end.

(** The digits at the front of [s], accumulated onto [acc], and what follows
    them. *)
Fixpoint scan_digits (acc : Z) (s : string) : Z * string :=
  match s with
  | String c s' =>
      if isdigit c then scan_digits (10 * acc + digit_value c) s' else (acc, s)
  | EmptyString => (acc, s)
  end.

Definition starts_with_digit (s : string) : bool :=
  match s with
  | String c _ => isdigit c
  | EmptyString => false
  end.

(** [is >> v] for a [long long v]: leading white space is skipped, an optional
    sign and the longest run of digits are consumed; the extraction fails when
    there is no digit or the value is not representable.  On success the
    value and the unread rest of the stream are returned. *)
Definition strip_sign (s : string) : bool * string :=
  match s with
  | String "-"%char t => (true, t)
  | String "+"%char t => (false, t)
  | _ => (false, s)
  end.

Definition extract (s : string) : option (Z * string) :=
  let '(neg, s2) := strip_sign (skip_ws s) in
  if starts_with_digit s2 then
    let '(m, rest) := scan_digits 0 s2 in
    let v := if neg then - m else m in
    if in_rangeb v then Some (v, rest) else None
  else None.

(** [while (ifs >> v) all.emplace_back(v);] *)
Fixpoint read_ints (fuel : nat) (s : string) : list Z :=
  match fuel with
  | O => []
  | S fuel' =>
      match extract s with
      | Some (v, rest) => v :: read_ints fuel' rest
      | None => []
      end
  end.

(** Every successful extraction consumes a character, so the length of the
    contents bounds the number of rounds (lemma [read_ints_enough]). *)
Definition read_file (contents : string) : list Z :=
  read_ints (String.length contents) contents.

(** [for (i = 0; i < localOut.size(); ++i)
      ofs << localOut[i] << (i + 1 == localOut.size() ? "" : " ");] *)
Fixpoint write_ints (localOut : list Z) : string :=
  match localOut with
  | [] => ""
  | [x] => show_ll x
  | x :: rest => show_ll x +:+ String " "%char (write_ints rest)
  end.

Definition newline : string := String "010"%char "".

Definition serialize (localOut : list Z) : string := write_ints localOut +:+ newline.

(** ** Ranges and the worker *)

(** How a call ends: it returns a value, it is left by an exception that
    nothing catches, or the fuel of the model runs out before it ends. *)
Inductive Result (A : Type) : Type :=
| Returns (a : A)
| Aborts
| Unfinished.

Arguments Returns {A} a.
Arguments Aborts {A}.
Arguments Unfinished {A}.

Record Range := { start : Z; end_ : Z }.

(** [for (long long x = range.start; x <= range.end; ++x)
      if (isPrime(x)) localOut.emplace_back(x);]
    from the state in which the loop variable holds [x]; [pfuel] is the fuel
    handed to each call of [isPrime]. *)
Fixpoint worker_loop (fuel pfuel : nat) (x e : Z) (localOut : list Z)
  : option (list Z) :=
  match fuel with
  | O => None
  | S fuel' =>
      if x <=? e then
        match isPrime pfuel x with
        | Some b =>
            worker_loop fuel' pfuel (add x 1) e
              (if b then localOut ++ [x] else localOut)
        | None => None
        end
      else Some localOut
  end.

(** What the environment decides: the reported hardware concurrency, which
    streams fail to open, and for which numbers of elements the allocator has
    no memory to give. *)
Record Env := {
  hardware_concurrency : Z;
  write_fails : string -> bool;
  read_fails : string -> bool;
  alloc_fails : Z -> bool
}.

(** [max_size()] of a [std::vector<long long>] where [ptrdiff_t] has 64 bits:
    [PTRDIFF_MAX / sizeof(long long)]. *)
Definition vector_max_size : Z := 2 ^ 60 - 1.

(** [static_cast<size_t>] of a [long long]. *)
Definition wrap_size (z : Z) : Z := z mod 2 ^ 64.

(** [(range.end >= range.start)
       ? static_cast<size_t>(range.end - range.start + 1) : 0]. *)
Definition reserve_request (range : Range) : Z :=
  if start range <=? end_ range
  then wrap_size (add (sub (end_ range) (start range)) 1)
  else 0.

(** [localOut.reserve(n)] on the empty vector: nothing happens for [n = 0];
    otherwise [std::length_error] is thrown above [max_size()] and
    [std::bad_alloc] when the allocation fails. *)
Definition reserve_throws (env : Env) (n : Z) : bool :=
  if n =? 0 then false else (vector_max_size <? n) || alloc_fails env n.

(** [std::cerr << "[WARN] Thread " << workerId + 1 << ": failed to open "
              << fileName << " for writing.\n"] with [workerId] unsigned. *)
Definition warning (workerId : Z) (fileName : string) : string :=
  "[WARN] Thread " +:+ show_unsigned (wrap32 (workerId + 1)) +:+
  ": failed to open " +:+ fileName +:+ " for writing." +:+ newline.

(** [std::ifstream ifs(name)]: the contents when the stream opens. *)
Definition open_read (env : Env) (fs : gmap string string) (name : string)
  : option string :=
  if read_fails env name then None else fs !! name.

(** [workerTask]: [localOut] is cleared and room for the whole range is
    reserved, which may throw; then the primes of the range go to [localOut]
    and, when the output stream opens, to the file; when it does not, a
    warning goes to [std::cerr].  A call that returns gives [localOut], the
    file system and what it wrote to [std::cerr]. *)
Definition workerTask (fuel : nat) (env : Env) (workerId : Z) (range : Range)
    (fileName : string) (fs : gmap string string)
  : Result (list Z * gmap string string * list string) :=
  if reserve_throws env (reserve_request range) then Aborts
  else
    match worker_loop fuel fuel (start range) (end_ range) [] with
    | Some localOut =>
        Returns
          (localOut,
           (if write_fails env fileName then fs
            else <[fileName := serialize localOut]> fs),
           (if write_fails env fileName then [warning workerId fileName]
            else []))
    | None => Unfinished
    end.

(** ** The thread count and the partition *)

(** [hw], [numThreads] of [main]; [hardware_concurrency] is an
    [unsigned int]. *)
Definition detected_hw (hardware_concurrency : Z) : Z :=
  if hardware_concurrency =? 0 then 2 else hardware_concurrency.

Definition choose_numThreads (hardware_concurrency limit : Z) : Z :=
  let hw := detected_hw hardware_concurrency in
  let numThreads := wrap32 (Z.min hw (Z.max 1 limit)) in
  if limit <? 2 then 1 else numThreads.

(** The lambda [ceil_div]: [(a + b - 1) / b]. *)
Definition ceil_div (a b : Z) : Z := div (sub (add a b) 1) b.

Definition block_size (limit numThreads : Z) : Z :=
  if 0 <? numThreads then ceil_div limit numThreads else limit.

(** The body of the partition loop for worker index [i]. *)
Definition plan_range (limit block i : Z) : Range :=
  let s := add (mul i block) 1 in
  let e := Z.min limit (mul (add i 1) block) in
  if e <? s then {| start := 1; end_ := 0 |} else {| start := s; end_ := e |}.

(** The loops [for (unsigned int i = 0; i < numThreads; ++i)] run over the
    indices below [numThreads]; [++i] does not wrap since
    [i < numThreads <= UINT_MAX]. *)
Definition indices (numThreads : Z) : list nat := seq 0 (Z.to_nat numThreads).

Definition plan (limit numThreads : Z) : list Range :=
  let block := block_size limit numThreads in
  (fun i => plan_range limit block (Z.of_nat i)) <$> indices numThreads.

(** [oss << "primes_thread_" << (i + 1) << ".txt"] with [i] unsigned. *)
Definition temp_name (i : Z) : string :=
  "primes_thread_" +:+ show_unsigned (wrap32 (i + 1)) +:+ ".txt".

Definition temp_files (numThreads : Z) : list string :=
  (fun i => temp_name (Z.of_nat i)) <$> indices numThreads.

(** ** Threads, merge and [main] *)

(** Thread [i] runs [workerTask] on [ranges[i]], [locals[i]] and
    [tempFiles[i]].  The threads share nothing but the file system, where
    each writes a file of its own, and [std::cerr]; they are run in index
    order, and their warnings are collected by worker index (on the stream
    they come in the order the schedule gives).  An exception that leaves a
    worker ends the process. *)
Definition thread_step (fuel : nat) (env : Env) (ranges : list Range)
    (tempFiles : list string)
    (st : Result (list (list Z) * gmap string string * list string)) (i : nat)
  : Result (list (list Z) * gmap string string * list string) :=
  match st with
  | Returns (locals, fs, err) =>
      match ranges !! i, tempFiles !! i with
      | Some range, Some fileName =>
          match workerTask fuel env (Z.of_nat i) range fileName fs with
          | Returns (localOut, fs', w) =>
              Returns (<[i := localOut]> locals, fs', err ++ w)
          | Aborts => Aborts
          | Unfinished => Unfinished
          end
      | _, _ => Unfinished
      end
  | Aborts => Aborts
  | Unfinished => Unfinished
  end.

Definition run_threads (fuel : nat) (env : Env) (numThreads : Z)
    (ranges : list Range) (tempFiles : list string) (fs : gmap string string)
  : Result (list (list Z) * gmap string string * list string) :=
  fold_left (thread_step fuel env ranges tempFiles) (indices numThreads)
    (Returns (replicate (Z.to_nat numThreads) [], fs, [])).

(** One round of the merge loop: the file when it opens, the in-memory
    vector otherwise. *)
Definition merge_step (env : Env) (fs : gmap string string)
    (tempFiles : list string) (locals : list (list Z))
    (all : list Z) (i : nat) : list Z :=
  match tempFiles !! i, locals !! i with
  | Some fileName, Some localOut =>
      match open_read env fs fileName with
      | Some contents => all ++ read_file contents
      | None => all ++ localOut
      end
  | _, _ => all
  end.

Definition merge (env : Env) (fs : gmap string string) (numThreads : Z)
    (tempFiles : list string) (locals : list (list Z)) : list Z :=
  fold_left (merge_step env fs tempFiles locals) (indices numThreads) [].

(** [std::sort] on a vector of [long long]. *)
Fixpoint insert_sorted (x : Z) (l : list Z) : list Z :=
  match l with
  | [] => [x]
  | y :: l' => if x <=? y then x :: l else y :: insert_sorted x l'
  end.

Fixpoint sort (l : list Z) : list Z :=
  match l with
  | [] => []
  | x :: l' => insert_sorted x (sort l')
  end.

(** [all.erase(std::unique(all.begin(), all.end()), all.end())]: of every run
    of equal neighbours the first stays. *)
Fixpoint unique (l : list Z) : list Z :=
  match l with
  | [] => []
  | x :: l' =>
      match l' with
      | [] => [x]
      | y :: _ => if x =? y then unique l' else x :: unique l'
      end
  end.

Definition finalize (all : list Z) : list Z := unique (sort all).

(** [main] from the partition on, for a given [numThreads]: the final vector
    [all], the file system left behind and the warnings of the workers. *)
Definition pipeline (fuel : nat) (env : Env) (limit numThreads : Z)
    (fs : gmap string string)
  : Result (list Z * gmap string string * list string) :=
  let ranges := plan limit numThreads in
  let tempFiles := temp_files numThreads in
  match run_threads fuel env numThreads ranges tempFiles fs with
  | Returns (locals, fs', err) =>
      Returns (finalize (merge env fs' numThreads tempFiles locals), fs', err)
  | Aborts => Aborts
  | Unfinished => Unfinished
  end.

(** [parseLimit]: the string is not empty, holds digits only, and the
    extraction succeeds and reaches the end of the string. *)
Definition all_digits (s : string) : bool :=
  forallb isdigit (String.list_ascii_of_string s).

Definition parseLimit (s : string) : option Z :=
  match s with
  | EmptyString => None
  | _ =>
      if negb (all_digits s) then None
      else
        match extract s with
        | Some (v, EmptyString) => Some v
        | _ => None
        end
  end.

(** What [main] returns with: exit status 1 before anything is computed, or
    status 0, the final vector and the files written. *)
Inductive Outcome :=
| Rejected
| Completed (all : list Z) (fs : gmap string string).

Definition exit_status (o : Outcome) : Z :=
  match o with
  | Rejected => 1
  | Completed _ _ => 0
  end.

Definition main (fuel : nat) (env : Env) (argv : list string)
    (fs : gmap string string) : Result Outcome :=
  match argv with
  | [_; arg] =>
      match parseLimit arg with
      | None => Returns Rejected
      | Some limit =>
          let numThreads := choose_numThreads (hardware_concurrency env) limit in
          match pipeline fuel env limit numThreads fs with
          | Returns (all, fs', _) => Returns (Completed all fs')
          | Aborts => Aborts
          | Unfinished => Unfinished
          end
      end
  | _ => Returns Rejected
  end.

(** ** Definitions used by the statements *)

(** The loop goes round once more from [d]: the guard holds and [d] does not
    divide [n]. *)
Definition continues (n d : Z) : bool := (mul d d <=? n) && negb (rem n d =? 0).

(** The trial-division loop with signed overflow made an error: [None] also
    when [d * d] or [d + 2] is not representable. *)
Fixpoint isPrime_loop_strict (fuel : nat) (n d : Z) : option bool :=
  match fuel with
  | O => None
  | S fuel' =>
      if in_rangeb (d * d) then
        if d * d <=? n then
          if rem n d =? 0 then Some false
          else if in_rangeb (d + 2) then isPrime_loop_strict fuel' n (d + 2)
               else None
        else Some true
      else None
  end.

(** Modular exponentiation by repeated squaring. *)
Fixpoint powmod_pos (a : Z) (e : positive) (m : Z) : Z :=
  match e with
  | xH => a mod m
  | xO e' => let r := powmod_pos a e' m in (r * r) mod m
  | xI e' => let r := powmod_pos a e' m in ((r * r) mod m * a) mod m
  end.

(** The range of worker [i] as the mathematical formula gives it. *)
Definition planned (limit block i : Z) : Range :=
  if Z.min limit ((i + 1) * block) <? i * block + 1
  then {| start := 1; end_ := 0 |}
  else {| start := i * block + 1; end_ := Z.min limit ((i + 1) * block) |}.

(** Primality of an integer is decidable. *)
#[global] Instance Z_prime_dec (n : Z) : Decision (Z.prime n).
Proof. destruct (prime_dec n); [left | right]; rewrite prime_alt; assumption. Defined.

(** The primes of [lo, hi], ascending. *)
Definition primes_between (lo hi : Z) : list Z :=
  filter (fun y => Z.prime y) (seqZ lo (hi - lo + 1)).

(** What round [i] of the merge appends for a worker: the parsed file when
    it opens, the vector [localOut] otherwise. *)
Definition source (env : Env) (fs : gmap string string) (fileName : string)
    (localOut : list Z) : list Z :=
  match open_read env fs fileName with
  | Some contents => read_file contents
  | None => localOut
  end.

(** The file system after the first [k] workers have written, where worker
    [i] produced [out i]. *)
Fixpoint written (env : Env) (names : list string) (out : nat -> list Z)
    (fs : gmap string string) (k : nat) : gmap string string :=
  match k with
  | O => fs
  | S k' =>
      match names !! k' with
      | Some name =>
          if write_fails env name then written env names out fs k'
          else <[name := serialize (out k')]> (written env names out fs k')
      | None => written env names out fs k'
      end
  end.

(** The warnings of the first [k] workers, by worker index: one for every
    worker whose output stream fails to open. *)
Fixpoint warnings (env : Env) (names : list string) (k : nat) : list string :=
  match k with
  | O => []
  | S k' =>
      warnings env names k' ++
      match names !! k' with
      | Some name =>
          if write_fails env name then [warning (Z.of_nat k') name] else []
      | None => []
      end
  end.

(** The final vector of a run that completed. *)
Definition final_of (o : Result Outcome) : option (list Z) :=
  match o with
  | Returns (Completed all _) => Some all
  | _ => None
  end.

(** Environments with four and with two hardware threads in which every
    stream opens and every allocation within [vector_max_size] succeeds. *)
Definition env0 : Env :=
  {| hardware_concurrency := 4;
     write_fails := fun _ => false;
     read_fails := fun _ => false;
     alloc_fails := fun _ => false |}.

Definition env2 : Env :=
  {| hardware_concurrency := 2;
     write_fails := fun _ => false;
     read_fails := fun _ => false;
     alloc_fails := fun _ => false |}.

(** What worker [i] handed back in a run of the threads that ended. *)
Definition returned (fuel : nat) (limit numThreads : Z) (i : nat) : list Z :=
  default []
    (worker_loop fuel fuel
       (start (plan_range limit (block_size limit numThreads) (Z.of_nat i)))
       (end_ (plan_range limit (block_size limit numThreads) (Z.of_nat i))) []).

(** The primes of the block of worker [i]. *)
Definition range_primes (limit numThreads : Z) (i : nat) : list Z :=
  primes_between
    (start (planned limit (block_size limit numThreads) (Z.of_nat i)))
    (end_ (planned limit (block_size limit numThreads) (Z.of_nat i))).

(** ** What [main] writes *)

(** [(numThreads == 1 ? "" : "s")]. *)
Definition plural_s (numThreads : Z) : string :=
  if numThreads =? 1 then "" else "s".

(** The two lines written after the thread count is chosen; [hw] and
    [numThreads] are [unsigned int]. *)
Definition banner (hw numThreads : Z) : string :=
  "Detected " +:+ show_unsigned hw +:+ " hardware threads." +:+ newline +:+
  "Using " +:+ show_unsigned numThreads +:+ " worker thread" +:+
  plural_s numThreads +:+ "." +:+ newline.

(** [if (!tempFiles.empty())]: the line that names the first file, and the
    last one when there are several. *)
Definition creating (numThreads : Z) (tempFiles : list string) : string :=
  match tempFiles with
  | [] => ""
  | front :: _ =>
      if numThreads =? 1 then
        "Creating 1 temp file: " +:+ front +:+ newline
      else
        "Creating " +:+ show_unsigned (Z.of_nat (length tempFiles)) +:+
        " temp files: " +:+ front +:+ " ... " +:+
        default front (last tempFiles) +:+ newline
  end.

(** [for (i = 0; i < all.size(); ++i)
      std::cout << all[i] << (i + 1 == all.size() ? '\n' : ' ');] *)
Fixpoint print_all (all : list Z) : string :=
  match all with
  | [] => ""
  | [x] => show_ll x +:+ newline
  | x :: rest => show_ll x +:+ String " "%char (print_all rest)
  end.

(** The end of [main]: the message for an empty result, or the heading and
    the list. *)
Definition report (limit : Z) (all : list Z) : string :=
  if (limit <? 2) || bool_decide (all = []) then
    "No primes <= " +:+ show_ll limit +:+ "." +:+ newline
  else
    "Prime numbers <= " +:+ show_ll limit +:+ ":" +:+ newline +:+ print_all all.

Definition usage (prog : string) : string :=
  "Usage: " +:+ prog +:+ " <limit>" +:+ newline +:+
  "Example: " +:+ prog +:+ " 50" +:+ newline.

Definition limit_error : string :=
  "Error: limit must be a non-negative integer." +:+ newline.

(** A run in which [main] returned, as its caller sees it: the exit status,
    what was written to [std::cout], the messages written to [std::cerr], and
    the files left behind.  The messages are the text of the main thread, or
    the warnings of the workers listed by worker index; on the stream the
    warnings of different workers come in the order the schedule gives.  A
    run that is aborted has no record: what of its output reaches the streams
    and the files depends on the buffers and the schedule. *)
Record Run := {
  run_status : Z;
  run_stdout : string;
  run_stderr : list string;
  run_files : gmap string string
}.

(** [main] with its output; [argv] is [prog :: args]. *)
Definition main_io (fuel : nat) (env : Env) (prog : string)
    (args : list string) (fs : gmap string string) : Result Run :=
  match args with
  | [arg] =>
      match parseLimit arg with
      | None =>
          Returns {| run_status := 1; run_stdout := "";
                     run_stderr := [limit_error]; run_files := fs |}
      | Some limit =>
          let hw := detected_hw (hardware_concurrency env) in
          let numThreads := choose_numThreads (hardware_concurrency env) limit in
          match pipeline fuel env limit numThreads fs with
          | Returns (all, fs', err) =>
              Returns {| run_status := 0;
                         run_stdout :=
                           banner hw numThreads +:+
                           creating numThreads (temp_files numThreads) +:+
                           "Merging results..." +:+ newline +:+
                           report limit all;
                         run_stderr := err;
                         run_files := fs' |}
          | Aborts => Aborts
          | Unfinished => Unfinished
          end
      end
  | _ =>
      Returns {| run_status := 1; run_stdout := "";
                 run_stderr := [usage prog]; run_files := fs |}
  end.

(** ** Facts about the machine integers *)

Lemma wrap64_id (z : Z) : in_range z -> wrap64 z = z.
Proof.
  unfold in_range, wrap64, LLONG_MIN, LLONG_MAX. intros Hz.
  rewrite Z.mod_small by lia. lia.
Qed.

Lemma wrap64_in_range (z : Z) : in_range (wrap64 z).
Proof.
  unfold in_range, wrap64, LLONG_MIN, LLONG_MAX.
  pose proof (Z.mod_pos_bound (z + 2 ^ 63) (2 ^ 64) ltac:(lia)). lia.
Qed.

Lemma in_rangeb_spec (z : Z) : in_rangeb z = true <-> in_range z.
Proof. unfold in_rangeb, in_range. rewrite andb_true_iff. lia. Qed.

(** ** The model at the scenarios of the specification *)

Example isPrime_97 : isPrime 10 97 = Some true.
Proof. reflexivity. Qed.

Example main_scenarios :
  final_of (main 60 env0 ["prime_numbers"; "0"] ∅) = Some [] /\
  final_of (main 60 env0 ["prime_numbers"; "1"] ∅) = Some [] /\
  final_of (main 60 env0 ["prime_numbers"; "2"] ∅) = Some [2] /\
  final_of (main 60 env0 ["prime_numbers"; "10"] ∅) = Some [2; 3; 5; 7] /\
  final_of (main 60 env0 ["prime_numbers"; "50"] ∅)
    = Some [2; 3; 5; 7; 11; 13; 17; 19; 23; 29; 31; 37; 41; 43; 47] /\
  final_of (main 60 env0 ["prime_numbers"; "-5"] ∅) = None /\
  main 60 env0 ["prime_numbers"; "-5"] ∅ = Returns Rejected.
Proof. vm_compute. repeat split. Qed.

(** The limit 50 with the file of worker index 2 unreadable. *)
Example main_50_unreadable :
  final_of (main 60 {| hardware_concurrency := 4;
                       write_fails := fun _ => false;
                       read_fails := String.eqb "primes_thread_3.txt";
                       alloc_fails := fun _ => false |}
              ["prime_numbers"; "50"] ∅)
  = Some [2; 3; 5; 7; 11; 13; 17; 19; 23; 29; 31; 37; 41; 43; 47].
Proof. vm_compute. reflexivity. Qed.

(** ** The trial-division loop *)

Lemma isPrime_loop_S (fuel : nat) (n d : Z) :
  isPrime_loop (S fuel) n d =
  if continues n d then isPrime_loop fuel n (add d 2)
  else Some (negb (mul d d <=? n)).
Proof.
  unfold continues. simpl.
  destruct (mul d d <=? n); [destruct (rem n d =? 0)|]; reflexivity.
Qed.

Lemma isPrime_loop_run (k : nat) : forall (fuel : nat) (n d : Z),
  in_range d -> d + 2 * Z.of_nat k <= LLONG_MAX ->
  (forall j, 0 <= j < Z.of_nat k -> continues n (d + 2 * j) = true) ->
  isPrime_loop (k + fuel) n d = isPrime_loop fuel n (d + 2 * Z.of_nat k).
Proof.
  induction k as [|k IH]; intros fuel n d Hd Hmax Hc.
  - simpl. f_equal. lia.
  - replace (S k + fuel)%nat with (S (k + fuel)) by lia.
    rewrite isPrime_loop_S.
    pose proof (Hc 0 ltac:(lia)) as H0. rewrite Z.mul_0_r, Z.add_0_r in H0.
    rewrite H0. unfold add.
    assert (Hd2 : in_range (d + 2)) by (unfold in_range in *; lia).
    rewrite (wrap64_id _ Hd2).
    rewrite IH; [f_equal; lia | assumption | lia |].
    intros j Hj. replace (d + 2 + 2 * j) with (d + 2 * (j + 1)) by lia.
    apply Hc. lia.
Qed.

Lemma least_false (m : nat) : forall P : nat -> bool,
  P m = false ->
  exists j0, (j0 <= m)%nat /\ P j0 = false /\ forall j, (j < j0)%nat -> P j = true.
Proof.
  induction m as [|m IH]; intros P Hm.
  - exists 0%nat. repeat split; [lia | assumption | intros; lia].
  - destruct (P 0%nat) eqn:H0.
    + destruct (IH (fun j => P (S j)) Hm) as (j0 & Hle & Hf & Hlt).
      exists (S j0). repeat split; [lia | assumption |].
      intros [|j] Hj; [assumption | apply Hlt; lia].
    + exists 0%nat. repeat split; [lia | assumption | intros; lia].
Qed.

(** A composite number has a divisor no larger than its square root. *)
Lemma composite_small_divisor (n : Z) :
  1 < n -> ~ prime n -> exists q, 1 < q /\ q * q <= n /\ (q | n).
Proof.
  intros Hn Hnp.
  destruct (not_prime_divide n Hn Hnp) as (a & Ha & c & Hc).
  assert (1 < c) by nia.
  destruct (Z_le_gt_dec a c).
  - exists a. repeat split; [lia | nia | exists c; lia].
  - exists c. repeat split; [lia | nia | exists a; lia].
Qed.

Lemma odd_divisor (n q : Z) : Z.odd n = true -> (q | n) -> Z.odd q = true.
Proof.
  intros Hn [c ->]. rewrite Z.odd_mul in Hn.
  apply andb_true_iff in Hn. tauto.
Qed.

Lemma odd_from_3 (q : Z) :
  Z.odd q = true -> 1 < q -> exists t : nat, q = 3 + 2 * Z.of_nat t.
Proof.
  intros Ho Hq. apply Z.odd_spec in Ho. destruct Ho as [u ->].
  exists (Z.to_nat (u - 1)). lia.
Qed.

Lemma continues_true (n d : Z) :
  continues n d = true -> mul d d <= n /\ rem n d <> 0.
Proof.
  unfold continues. rewrite andb_true_iff, negb_true_iff. lia.
Qed.

(** Witnesses that stop the loop for the numbers whose square root lies beyond
    the largest [d] with [d * d] representable: the square of
    [2759374635167858507] is [2^63 - 7] modulo [2^64], and the four odd
    numbers from [2^63 - 7] on have a small factor. *)
Lemma isPrime_loop_stops_before (n : Z) :
  in_range n -> 3 <= n -> Z.odd n = true ->
  (forall d, Z.odd d = true -> 3 <= d < n -> continues n d = true) ->
  mul n n <= n -> False.
Proof.
  unfold in_range, LLONG_MIN, LLONG_MAX. intros Hr H3 Ho Hall Hnn.
  assert (Hstop : forall r, Z.odd r = true -> 3 <= r < n ->
            (mul r r <= n -> False) \/ rem n r = 0 -> False).
  { intros r Hor Hr3 Hbad. destruct (continues_true _ _ (Hall r Hor Hr3)).
    destruct Hbad; auto. }
  destruct (Z_le_gt_dec n 3037000499) as [Hsmall|Hbig].
  { unfold mul in Hnn. rewrite wrap64_id in Hnn; [nia|].
    unfold in_range, LLONG_MIN, LLONG_MAX. nia. }
  destruct (Z_lt_ge_dec n 9223372030926249001).
  { apply (Hstop 3037000499); [reflexivity | lia | left].
    replace (mul 3037000499 3037000499) with 9223372030926249001
      by (vm_compute; reflexivity). lia. }
  destruct (Z_lt_ge_dec n 9223372036854775801).
  { apply (Hstop 2759374635167858507); [reflexivity | lia | left].
    replace (mul 2759374635167858507 2759374635167858507)
      with 9223372036854775801 by (vm_compute; reflexivity). lia. }
  apply Z.odd_spec in Ho. destruct Ho as [u Hu].
  assert (Hcases : n = 9223372036854775801 \/ n = 9223372036854775803 \/
                   n = 9223372036854775805 \/ n = 9223372036854775807) by lia.
  destruct Hcases as [-> | [-> | [-> | ->]]].
  - apply (Hstop 157); [reflexivity | lia | right; vm_compute; reflexivity].
  - apply (Hstop 3); [reflexivity | lia | right; vm_compute; reflexivity].
  - apply (Hstop 5); [reflexivity | lia | right; vm_compute; reflexivity].
  - apply (Hstop 7); [reflexivity | lia | right; vm_compute; reflexivity].
Qed.

(** The loop ends for every odd [n >= 3], within [n] rounds, and answers
    whether [n] is prime. *)
Lemma isPrime_loop_correct (n : Z) (fuel : nat) :
  in_range n -> 3 <= n -> Z.odd n = true -> (Z.to_nat n <= fuel)%nat ->
  exists b, isPrime_loop fuel n 3 = Some b /\ (b = true <-> Z.prime n).
Proof.
  intros Hr H3 Ho Hfuel.
  assert (Hr' := Hr). unfold in_range, LLONG_MIN, LLONG_MAX in Hr'.
  destruct (odd_from_3 n Ho ltac:(lia)) as [m Hm].
  set (P := fun j : nat => continues n (3 + 2 * Z.of_nat j)).
  assert (HPm : P m = false).
  { unfold P, continues. rewrite <- Hm. unfold rem.
    rewrite Z.rem_same by lia. simpl. apply andb_false_r. }
  destruct (least_false m P HPm) as (j0 & Hle & Hstop & Hbefore).
  set (e := 3 + 2 * Z.of_nat j0) in *.
  assert (Hrun : isPrime_loop fuel n 3 = Some (negb (mul e e <=? n))).
  { replace fuel with (j0 + S (fuel - j0 - 1))%nat by lia.
    rewrite isPrime_loop_run.
    - fold e. rewrite isPrime_loop_S. unfold P in Hstop. fold e in Hstop.
      rewrite Hstop. reflexivity.
    - unfold in_range, LLONG_MIN, LLONG_MAX. lia.
    - unfold LLONG_MAX. lia.
    - intros j Hj. replace j with (Z.of_nat (Z.to_nat j)) by lia.
      apply Hbefore. lia. }
  assert (Hcont : forall d, Z.odd d = true -> 3 <= d < e -> continues n d = true).
  { intros d Hod Hd. destruct (odd_from_3 d Hod ltac:(lia)) as [t ->].
    apply Hbefore. unfold e in Hd. lia. }
  exists (negb (mul e e <=? n)). split; [assumption|].
  rewrite negb_true_iff, Z.leb_gt. split.
  - intros Hgt. destruct (prime_dec n) as [Hp|Hnp]; [apply prime_alt, Hp|]. exfalso.
    destruct (composite_small_divisor n ltac:(lia) Hnp) as (q & Hq1 & Hqq & Hqn).
    pose proof (odd_divisor n q Ho Hqn) as Hoq.
    destruct (Z_lt_ge_dec q e) as [Hlt|Hge].
    + destruct (continues_true _ _ (Hcont q Hoq ltac:(destruct (odd_from_3 q Hoq Hq1); lia)))
        as [_ Hrem].
      apply Hrem. apply Z.rem_divide; [lia | assumption].
    + assert (He : e * e <= n) by (unfold e in *; nia).
      unfold mul in Hgt. rewrite wrap64_id in Hgt; [lia|].
      unfold in_range, LLONG_MIN, LLONG_MAX. unfold e in *. nia.
  - intros Hp. apply Z.lt_nge. intros Hle'.
    assert (Hdiv : (e | n)).
    { unfold P in Hstop. fold e in Hstop. unfold continues in Hstop.
      apply andb_false_iff in Hstop. destruct Hstop as [Hs|Hs].
      - apply Z.leb_gt in Hs. lia.
      - apply negb_false_iff, Z.eqb_eq in Hs.
        apply Z.rem_divide; [unfold e; lia | assumption]. }
    destruct (Z.divide_prime_r e n Hp Hdiv) as [He|[He|[He|He]]];
      try (unfold e in He; lia).
    rewrite He in *. eapply isPrime_loop_stops_before; eauto.
Qed.

Lemma not_prime_of_divisor (n d : Z) : 1 < d < n -> (d | n) -> ~ Z.prime n.
Proof. intros Hd Hdiv [_ Hp]. exact (Hp d Hd Hdiv). Qed.

(** [isPrime] ends on every [long long] and decides primality. *)
Lemma isPrime_loop_correct_all (fuel : nat) (n : Z) :
  in_range n -> (Z.to_nat n <= fuel)%nat ->
  exists b, isPrime fuel n = Some b /\ (b = true <-> Z.prime n).
Proof.
  intros Hr Hfuel. unfold isPrime.
  destruct (Z.ltb_spec n 2) as [Hlt|Hge].
  { exists false. split; [reflexivity|].
    split; [discriminate | intros [H1 _]; lia]. }
  destruct (Z.eqb_spec n 2) as [->|Hne].
  { exists true. split; [reflexivity|].
    split; [intros _; exact Z.prime_2 | reflexivity]. }
  destruct (Z.odd n) eqn:Ho.
  - assert (Hrem : (rem n 2 =? 0) = false).
    { apply Z.eqb_neq. unfold rem. intros H0.
      apply Z.rem_divide in H0; [|lia]. destruct H0 as [c Hc].
      apply Z.odd_spec in Ho. destruct Ho as [u Hu]. lia. }
    rewrite Hrem. apply isPrime_loop_correct; [assumption | lia | assumption..].
  - assert (He : Z.even n = true) by (rewrite <- Z.negb_odd, Ho; reflexivity).
    apply Z.even_spec in He. destruct He as [u Hu].
    assert (Hrem : (rem n 2 =? 0) = true).
    { apply Z.eqb_eq. unfold rem. rewrite Hu, Z.mul_comm. apply Z.rem_mul. lia. }
    rewrite Hrem. exists false. split; [reflexivity|].
    split; [discriminate|]. intros Hp. exfalso.
    apply (not_prime_of_divisor n 2); [lia | exists u; lia | assumption].
Qed.

(** C2. [isPrime] ends on every [long long] (fuel [n] is enough) with the
    answer false below 2, true at 2, false at every other even number, and at
    an odd [n >= 3] false exactly when an odd [d] with [3 <= d] and
    [d * d <= n] divides [n]; in all, true exactly when [n] is prime. *)
Theorem isPrime_correct (n : Z) (fuel : nat) :
  in_range n -> (Z.to_nat n <= fuel)%nat ->
  exists b, isPrime fuel n = Some b /\
    (n < 2 -> b = false) /\
    (n = 2 -> b = true) /\
    (n <> 2 -> Z.even n = true -> b = false) /\
    (3 <= n -> Z.odd n = true ->
       (b = false <->
        exists d, Z.odd d = true /\ 3 <= d /\ d * d <= n /\ (d | n))) /\
    (b = true <-> Z.prime n).
Proof.
  intros Hr Hfuel. unfold isPrime.
  destruct (Z.ltb_spec n 2) as [Hlt|Hge].
  { exists false. split; [reflexivity|].
    refine (conj _ (conj _ (conj _ (conj _ _))));
      try (intros; lia); try (intros; reflexivity).
    split; [discriminate | intros [H1 _]; lia]. }
  destruct (Z.eqb_spec n 2) as [->|Hne].
  { exists true. split; [reflexivity|].
    refine (conj _ (conj _ (conj _ (conj _ _))));
      try (intros; lia); try (intros; reflexivity).
    split; [intros _; exact Z.prime_2 | reflexivity]. }
  destruct (Z.odd n) eqn:Ho.
  - assert (Hrem : (rem n 2 =? 0) = false).
    { apply Z.eqb_neq. unfold rem. intros H0.
      apply Z.rem_divide in H0; [|lia]. destruct H0 as [c Hc].
      apply Z.odd_spec in Ho. destruct Ho as [u Hu]. lia. }
    rewrite Hrem.
    destruct (isPrime_loop_correct n fuel Hr ltac:(lia) Ho Hfuel) as (b & Hb & Hbp).
    exists b. split; [assumption|].
    refine (conj _ (conj _ (conj _ (conj _ _)))); try (intros; lia).
    + rewrite <- Z.negb_odd, Ho. discriminate.
    + intros _ _. split.
      * intros Hbf. assert (Hnp : ~ Z.prime n).
        { intros Hp. apply Hbp in Hp. congruence. }
        rewrite prime_alt in Hnp.
        destruct (composite_small_divisor n ltac:(lia) Hnp) as (q & Hq1 & Hqq & Hqn).
        exists q. pose proof (odd_divisor n q Ho Hqn) as Hoq.
        destruct (odd_from_3 q Hoq Hq1) as [t Ht].
        refine (conj _ (conj _ (conj _ _))); [assumption | lia | assumption | assumption].
      * intros (d & Hod & Hd3 & Hdd & Hdn).
        destruct b; [|reflexivity]. exfalso.
        apply (not_prime_of_divisor n d); [nia | assumption | apply Hbp; reflexivity].
    + exact Hbp.
  - assert (He : Z.even n = true) by (rewrite <- Z.negb_odd, Ho; reflexivity).
    apply Z.even_spec in He. destruct He as [u Hu].
    assert (Hrem : (rem n 2 =? 0) = true).
    { apply Z.eqb_eq. unfold rem. rewrite Hu, Z.mul_comm. apply Z.rem_mul. lia. }
    rewrite Hrem. exists false. split; [reflexivity|].
    refine (conj _ (conj _ (conj _ (conj _ _))));
      try (intros; lia); try (intros; reflexivity).
    split; [discriminate|]. intros Hp. exfalso.
    apply (not_prime_of_divisor n 2); [lia | exists u; lia | assumption].
Qed.

Lemma isPrime_correct_witness :
  exists b, isPrime 97 97 = Some b /\ (b = true <-> Z.prime 97).
Proof.
  destruct (isPrime_correct 97 97) as (b & Hb & _ & _ & _ & _ & Hp).
  - unfold in_range, LLONG_MIN, LLONG_MAX. lia.
  - lia.
  - exists b. split; assumption.
Defined.

(** ** Decimal text *)

Lemma append_nil (b : string) : "" +:+ b = b.
Proof. reflexivity. Qed.

Lemma append_cons (x : ascii) (a b : string) :
  String x a +:+ b = String x (a +:+ b).
Proof. reflexivity. Qed.

Lemma append_assoc (a b c : string) : (a +:+ b) +:+ c = a +:+ (b +:+ c).
Proof.
  induction a as [|x a IH]; [reflexivity|].
  rewrite !append_cons. f_equal. exact IH.
Qed.

Lemma length_append (a b : string) :
  String.length (a +:+ b) = (String.length a + String.length b)%nat.
Proof.
  induction a as [|x a IH]; [reflexivity|].
  rewrite append_cons. simpl. f_equal. exact IH.
Qed.

Lemma digit_cases (d : Z) :
  0 <= d < 10 ->
  d = 0 \/ d = 1 \/ d = 2 \/ d = 3 \/ d = 4 \/ d = 5 \/ d = 6 \/ d = 7 \/
  d = 8 \/ d = 9.
Proof. lia. Qed.

Ltac by_digit d H :=
  destruct (digit_cases d H) as [-> | [-> | [-> | [-> | [-> | [-> | [-> | [-> | [-> | ->]]]]]]]]];
  reflexivity.

Lemma isdigit_digit_char (d : Z) : 0 <= d < 10 -> isdigit (digit_char d) = true.
Proof. intros H. by_digit d H. Qed.

Lemma digit_value_digit_char (d : Z) :
  0 <= d < 10 -> digit_value (digit_char d) = d.
Proof. intros H. by_digit d H. Qed.

Lemma isdigit_not_space (c : ascii) : isdigit c = true -> isspace c = false.
Proof. destruct c as [[] [] [] [] [] [] [] []]; simpl; congruence. Qed.

Lemma strip_sign_digit (c : ascii) (t : string) :
  isdigit c = true -> strip_sign (String c t) = (false, String c t).
Proof. destruct c as [[] [] [] [] [] [] [] []]; simpl; congruence. Qed.

Lemma digit_value_range (c : ascii) : 0 <= digit_value c <= 9.
Proof. destruct c as [[] [] [] [] [] [] [] []]; simpl; lia. Qed.

Lemma digits_fuel_append (fuel : nat) : forall (n : Z) (acc rest : string),
  digits_fuel fuel n acc +:+ rest = digits_fuel fuel n (acc +:+ rest).
Proof.
  induction fuel as [|fuel IH]; intros n acc rest; simpl; [reflexivity|].
  destruct (n / 10 =? 0); [reflexivity | apply IH].
Qed.

Lemma digits_fuel_head (fuel : nat) : forall (n : Z) (acc : string),
  0 <= n -> fuel <> O \/ starts_with_digit acc = true ->
  starts_with_digit (digits_fuel fuel n acc) = true.
Proof.
  induction fuel as [|fuel IH]; intros n acc Hn Hor; simpl.
  - destruct Hor; [congruence | assumption].
  - assert (Hd : isdigit (digit_char (n mod 10)) = true).
    { apply isdigit_digit_char, Z.mod_pos_bound. lia. }
    destruct (n / 10 =? 0); [exact Hd|].
    apply IH; [apply Z.div_pos; lia | right; exact Hd].
Qed.

Lemma scan_digits_stop (acc : Z) (s : string) :
  starts_with_digit s = false -> scan_digits acc s = (acc, s).
Proof. destruct s as [|c s]; simpl; [reflexivity | intros ->; reflexivity]. Qed.

Lemma scan_digits_show (fuel : nat) : forall (n : Z) (tail : string),
  0 <= n < 10 ^ Z.of_nat fuel -> fuel <> O ->
  scan_digits 0 (digits_fuel fuel n tail) = scan_digits n tail.
Proof.
  induction fuel as [|fuel IH]; intros n tail Hn Hf; [congruence|].
  simpl digits_fuel.
  pose proof (Z.mod_pos_bound n 10 ltac:(lia)) as Hm.
  pose proof (Z.div_mod n 10 ltac:(lia)) as Hdm.
  destruct (Z.eqb_spec (n / 10) 0) as [H0|H0].
  - simpl. rewrite isdigit_digit_char, digit_value_digit_char by assumption.
    f_equal. lia.
  - assert (Hfuel : fuel <> O).
    { intros ->. change (10 ^ Z.of_nat 1) with 10 in Hn.
      apply H0, Z.div_small. lia. }
    rewrite IH; [| |assumption].
    + simpl. rewrite isdigit_digit_char, digit_value_digit_char by assumption.
      f_equal. lia.
    + rewrite Nat2Z.inj_succ, Z.pow_succ_r in Hn by lia.
      split; [apply Z.div_pos; lia | apply Z.div_lt_upper_bound; lia].
Qed.

Lemma show_unsigned_head (n : Z) (rest : string) :
  0 <= n -> starts_with_digit (show_unsigned n +:+ rest) = true.
Proof.
  intros Hn. unfold show_unsigned. rewrite digits_fuel_append.
  apply digits_fuel_head; [assumption | left; discriminate].
Qed.

(** Reading back what [show_unsigned] wrote, up to the first non-digit. *)
Lemma scan_show_unsigned (n : Z) (rest : string) :
  0 <= n < 2 ^ 64 -> starts_with_digit rest = false ->
  scan_digits 0 (show_unsigned n +:+ rest) = (n, rest).
Proof.
  intros Hn Hrest. unfold show_unsigned.
  rewrite digits_fuel_append, scan_digits_show; [| |discriminate].
  - simpl. apply scan_digits_stop, Hrest.
  - change (10 ^ Z.of_nat 20) with 100000000000000000000. lia.
Qed.

Lemma skip_ws_head (s : string) :
  starts_with_digit s = true -> skip_ws s = s.
Proof.
  destruct s as [|c s]; simpl; [reflexivity|].
  intros H. rewrite (isdigit_not_space c H). reflexivity.
Qed.

Lemma strip_sign_head (s : string) :
  starts_with_digit s = true -> strip_sign s = (false, s).
Proof.
  destruct s as [|c s]; simpl starts_with_digit; [discriminate|].
  apply strip_sign_digit.
Qed.

(** [is >> v] reads back what [os << v] wrote when no digit follows. *)
Lemma extract_show_ll (v : Z) (rest : string) :
  in_range v -> starts_with_digit rest = false ->
  extract (show_ll v +:+ rest) = Some (v, rest).
Proof.
  intros Hv Hrest. assert (Hv' := Hv).
  unfold in_range, LLONG_MIN, LLONG_MAX in Hv'.
  unfold extract, show_ll. destruct (Z.ltb_spec v 0) as [Hneg|Hpos].
  - rewrite append_cons. simpl. rewrite show_unsigned_head by lia.
    rewrite scan_show_unsigned by (assumption || lia).
    rewrite Z.opp_involutive.
    rewrite (proj2 (in_rangeb_spec v) Hv). reflexivity.
  - pose proof (show_unsigned_head v rest Hpos) as Hhead.
    rewrite (skip_ws_head _ Hhead), (strip_sign_head _ Hhead), Hhead.
    rewrite scan_show_unsigned by (assumption || lia).
    rewrite (proj2 (in_rangeb_spec v) Hv). reflexivity.
Qed.

Lemma all_digits_cons (c : ascii) (s : string) :
  all_digits (String c s) = isdigit c && all_digits s.
Proof. reflexivity. Qed.

Lemma scan_digits_all (s : string) : forall acc : Z,
  all_digits s = true ->
  scan_digits acc s =
  (fold_left (fun a c => 10 * a + digit_value c)
     (String.list_ascii_of_string s) acc, "").
Proof.
  induction s as [|c s IH]; intros acc Hs; [reflexivity|].
  rewrite all_digits_cons in Hs. apply andb_true_iff in Hs as [Hc Hs].
  simpl. rewrite Hc. apply IH, Hs.
Qed.

Lemma fold_digits_nonneg (l : list ascii) : forall acc : Z,
  0 <= acc -> 0 <= fold_left (fun a c => 10 * a + digit_value c) l acc.
Proof.
  induction l as [|c l IH]; intros acc Hacc; simpl; [assumption|].
  apply IH. pose proof (digit_value_range c). lia.
Qed.

Lemma decimal_value_nonneg (s : string) : 0 <= decimal_value s.
Proof. apply fold_digits_nonneg. lia. Qed.

(** ** The artifact format: writing and reading back *)

Lemma extract_space (s : string) : extract (String " "%char s) = extract s.
Proof. reflexivity. Qed.

Lemma read_ints_space (fuel : nat) (s : string) :
  read_ints fuel (String " "%char s) = read_ints fuel s.
Proof. destruct fuel; simpl; [reflexivity | rewrite extract_space; reflexivity]. Qed.

Lemma read_ints_newline (fuel : nat) : read_ints fuel newline = [].
Proof. destruct fuel; reflexivity. Qed.

Lemma serialize_cons2 (x y : Z) (l : list Z) :
  serialize (x :: y :: l) = show_ll x +:+ String " "%char (serialize (y :: l)).
Proof.
  unfold serialize. change (write_ints (x :: y :: l))
    with (show_ll x +:+ String " "%char (write_ints (y :: l))).
  rewrite append_assoc, append_cons. reflexivity.
Qed.

Lemma read_ints_serialize (l : list Z) : forall fuel : nat,
  Forall in_range l -> (length l <= fuel)%nat ->
  read_ints fuel (serialize l) = l.
Proof.
  induction l as [|x l IH]; intros fuel Hl Hfuel.
  - apply read_ints_newline.
  - inversion Hl as [|? ? Hx Hl']; subst.
    destruct fuel as [|fuel]; [simpl in Hfuel; lia|].
    destruct l as [|y l].
    + change (serialize [x]) with (show_ll x +:+ newline). simpl read_ints.
      rewrite extract_show_ll by (assumption || reflexivity).
      rewrite read_ints_newline. reflexivity.
    + rewrite serialize_cons2. simpl read_ints.
      rewrite extract_show_ll by (assumption || reflexivity).
      rewrite read_ints_space, IH; [reflexivity | assumption |].
      simpl in *. lia.
Qed.

Lemma show_ll_length (x : Z) : (1 <= String.length (show_ll x))%nat.
Proof.
  unfold show_ll. destruct (Z.ltb_spec x 0); [simpl; lia|].
  pose proof (digits_fuel_head 20 x "" ltac:(lia) ltac:(left; discriminate)) as Hd.
  unfold show_unsigned. destruct (digits_fuel 20 x ""); [discriminate | simpl; lia].
Qed.

Lemma write_ints_length (l : list Z) :
  (length l <= String.length (write_ints l))%nat.
Proof.
  induction l as [|x l IH]; [simpl; lia|].
  destruct l as [|y l].
  - simpl. apply show_ll_length.
  - change (write_ints (x :: y :: l))
      with (show_ll x +:+ String " "%char (write_ints (y :: l))).
    rewrite length_append. pose proof (show_ll_length x).
    simpl in *. lia.
Qed.

Lemma read_file_serialize (l : list Z) :
  Forall in_range l -> read_file (serialize l) = l.
Proof.
  intros Hl. unfold read_file. apply read_ints_serialize; [assumption|].
  unfold serialize. rewrite length_append. pose proof (write_ints_length l). lia.
Qed.

(** Every extraction consumes a character, so the fuel of [read_file] never
    runs out before the stream fails. *)
Lemma scan_digits_length (s : string) : forall acc : Z,
  (String.length (scan_digits acc s).2 <= String.length s)%nat.
Proof.
  induction s as [|c s IH]; intros acc; simpl; [lia|].
  destruct (isdigit c); simpl; [specialize (IH (10 * acc + digit_value c))|]; lia.
Qed.

Lemma skip_ws_length (s : string) :
  (String.length (skip_ws s) <= String.length s)%nat.
Proof.
  induction s as [|c s IH]; simpl; [lia|].
  destruct (isspace c); simpl; lia.
Qed.

Lemma strip_sign_length (s : string) :
  (String.length (strip_sign s).2 <= String.length s)%nat.
Proof.
  destruct s as [|c s]; [simpl; lia|].
  destruct c as [[] [] [] [] [] [] [] []]; simpl; lia.
Qed.

Lemma extract_shorter (s rest : string) (v : Z) :
  extract s = Some (v, rest) -> (String.length rest < String.length s)%nat.
Proof.
  unfold extract. pose proof (skip_ws_length s) as Hws.
  pose proof (strip_sign_length (skip_ws s)) as Hsign.
  destruct (strip_sign (skip_ws s)) as [neg s2]. simpl in Hsign.
  destruct s2 as [|c s2]; simpl starts_with_digit; [discriminate|].
  destruct (isdigit c) eqn:Hc; [|discriminate].
  simpl scan_digits. rewrite Hc.
  pose proof (scan_digits_length s2 (10 * 0 + digit_value c)) as Hscan.
  destruct (scan_digits (10 * 0 + digit_value c) s2) as [m r]. simpl in Hscan.
  destruct (in_rangeb _); [|discriminate].
  intros [= _ <-]. simpl in Hsign. lia.
Qed.

Lemma read_ints_enough (fuel1 : nat) : forall (fuel2 : nat) (s : string),
  (String.length s <= fuel1)%nat -> (String.length s <= fuel2)%nat ->
  read_ints fuel1 s = read_ints fuel2 s.
Proof.
  induction fuel1 as [|fuel1 IH]; intros fuel2 s H1 H2.
  - destruct s; [|simpl in H1; lia]. destruct fuel2; reflexivity.
  - destruct fuel2 as [|fuel2].
    + destruct s; [reflexivity | simpl in H2; lia].
    + simpl. destruct (extract s) as [[v rest]|] eqn:E; [|reflexivity].
      apply extract_shorter in E. f_equal. apply IH; lia.
Qed.

(** The read loop makes at most as many rounds as the file has characters:
    more fuel than that changes nothing. *)
Lemma read_ints_fuel (fuel : nat) (s : string) :
  (String.length s <= fuel)%nat -> read_ints fuel s = read_file s.
Proof. intros H. apply read_ints_enough; [assumption | lia]. Qed.

Lemma digits_fuel_all_digits (fuel : nat) : forall (n : Z) (acc : string),
  0 <= n -> all_digits acc = true -> all_digits (digits_fuel fuel n acc) = true.
Proof.
  induction fuel as [|fuel IH]; intros n acc Hn Hacc; simpl; [assumption|].
  assert (Hacc' : all_digits (String (digit_char (n mod 10)) acc) = true).
  { rewrite all_digits_cons, Hacc, isdigit_digit_char; [reflexivity|].
    apply Z.mod_pos_bound. lia. }
  destruct (n / 10 =? 0); [exact Hacc'|].
  apply IH; [apply Z.div_pos; lia | exact Hacc'].
Qed.

(** What [os << v] writes is the decimal numeral of [v]: digits only, whose
    value is [v], after a minus sign when [v] is negative. *)
Lemma show_ll_decimal (v : Z) :
  in_range v ->
  (0 <= v -> all_digits (show_ll v) = true /\ decimal_value (show_ll v) = v) /\
  (v < 0 -> exists digits, show_ll v = String "-"%char digits /\
            all_digits digits = true /\ decimal_value digits = - v).
Proof.
  intros Hv. unfold in_range, LLONG_MIN, LLONG_MAX in Hv.
  assert (Hnat : forall n, 0 <= n < 2 ^ 64 ->
            all_digits (show_unsigned n) = true /\
            decimal_value (show_unsigned n) = n).
  { intros n Hn.
    assert (Hd : all_digits (show_unsigned n) = true)
      by (apply digits_fuel_all_digits; [lia | reflexivity]).
    split; [exact Hd|].
    pose proof (scan_show_unsigned n "" Hn eq_refl) as Hscan.
    replace (show_unsigned n +:+ "") with (show_unsigned n) in Hscan.
    - rewrite (scan_digits_all _ 0 Hd) in Hscan. injection Hscan as Hscan.
      exact Hscan.
    - clear. induction (show_unsigned n) as [|c s IH]; [reflexivity|].
      rewrite append_cons, <- IH. reflexivity. }
  unfold show_ll. split; intros Hsign.
  - destruct (Z.ltb_spec v 0); [lia|]. apply Hnat. lia.
  - destruct (Z.ltb_spec v 0); [|lia].
    exists (show_unsigned (- v)). split; [reflexivity|]. apply Hnat. lia.
Qed.

(** The format of a written vector: decimal integers separated by one space
    and ended by one newline, an empty vector as the newline alone; the read
    loop of the merge returns the vector that was written. *)
Lemma serialize_roundtrip (localOut : list Z) :
  Forall in_range localOut ->
  read_file (serialize localOut) = localOut /\
  serialize [] = newline /\
  (forall x, serialize [x] = show_ll x +:+ newline) /\
  (forall x y l,
     serialize (x :: y :: l) = show_ll x +:+ String " "%char (serialize (y :: l))) /\
  Forall (fun v =>
            (0 <= v -> all_digits (show_ll v) = true /\
                       decimal_value (show_ll v) = v) /\
            (v < 0 -> exists digits, show_ll v = String "-"%char digits /\
                        all_digits digits = true /\ decimal_value digits = - v))
    localOut.
Proof.
  intros Hl. split; [apply read_file_serialize, Hl|].
  split; [reflexivity|]. split; [reflexivity|]. split; [apply serialize_cons2|].
  eapply List.Forall_impl; [|exact Hl]. intros v Hv. apply show_ll_decimal, Hv.
Qed.

(** ** The limit parser *)

(** On a non-empty string of digits the parser answers the decimal value
    when it is representable. *)
Lemma parseLimit_digits (s : string) :
  s <> "" -> all_digits s = true ->
  parseLimit s =
  if decimal_value s <=? LLONG_MAX then Some (decimal_value s) else None.
Proof.
  intros Hne Hs. destruct s as [|c s]; [congruence|].
  unfold parseLimit. rewrite Hs. simpl negb. cbv iota.
  assert (Hhead : starts_with_digit (String c s) = true).
  { rewrite all_digits_cons in Hs. apply andb_true_iff in Hs. tauto. }
  unfold extract.
  rewrite (skip_ws_head _ Hhead), (strip_sign_head _ Hhead), Hhead.
  rewrite (scan_digits_all _ 0 Hs). fold (decimal_value (String c s)).
  pose proof (decimal_value_nonneg (String c s)) as H0.
  unfold in_rangeb.
  replace (LLONG_MIN <=? decimal_value (String c s)) with true
    by (symmetry; apply Z.leb_le; unfold LLONG_MIN; lia).
  simpl andb. destruct (decimal_value (String c s) <=? LLONG_MAX); reflexivity.
Qed.

Lemma parseLimit_Some (s : string) (v : Z) :
  parseLimit s = Some v -> s <> "" /\ all_digits s = true.
Proof.
  unfold parseLimit. destruct s as [|c s]; [discriminate|].
  destruct (all_digits (String c s)); [|discriminate]. intros _.
  split; [discriminate | reflexivity].
Qed.

(** C9. The parser accepts exactly the non-empty strings of decimal digits
    whose value fits [long long], and answers that value; an accepted string
    holds no sign and no white space; on a rejected string [main] returns 1
    at once, for every fuel, without a final vector or a file system of its
    own. *)
Theorem parseLimit_spec (s : string) :
  (forall v, parseLimit s = Some v <->
     s <> "" /\ all_digits s = true /\ v = decimal_value s /\ v <= LLONG_MAX) /\
  (forall c, parseLimit s <> None -> In c (String.list_ascii_of_string s) ->
     isdigit c = true /\ c <> "-"%char /\ c <> "+"%char /\ isspace c = false) /\
  (parseLimit s = None ->
   forall fuel env prog fs,
     main fuel env [prog; s] fs = Returns Rejected /\ exit_status Rejected = 1).
Proof.
  split; [|split].
  - intros v. split.
    + intros Hv. destruct (parseLimit_Some s v Hv) as [Hne Hs].
      rewrite (parseLimit_digits s Hne Hs) in Hv.
      destruct (Z.leb_spec (decimal_value s) LLONG_MAX); [|discriminate].
      injection Hv as <-. auto.
    + intros (Hne & Hs & -> & Hle). rewrite (parseLimit_digits s Hne Hs).
      apply Z.leb_le in Hle. rewrite Hle. reflexivity.
  - intros c Hsome Hin. destruct (parseLimit s) as [v|] eqn:Hv; [|congruence].
    destruct (parseLimit_Some s v Hv) as [_ Hs].
    unfold all_digits in Hs. rewrite forallb_forall in Hs.
    specialize (Hs c Hin). split; [assumption|].
    split; [|split]; try (intros ->; discriminate).
    apply isdigit_not_space, Hs.
  - intros Hnone fuel env prog fs. simpl. rewrite Hnone. split; reflexivity.
Qed.

(** ** Sorting and removal of equal neighbours *)

Lemma insert_sorted_In (x y : Z) (l : list Z) :
  In y (insert_sorted x l) <-> y = x \/ In y l.
Proof.
  induction l as [|z l IH]; simpl; [intuition|].
  destruct (x <=? z); simpl; [intuition|]. rewrite IH. intuition.
Qed.

Lemma sort_In (y : Z) (l : list Z) : In y (sort l) <-> In y l.
Proof.
  induction l as [|x l IH]; simpl; [reflexivity|].
  rewrite insert_sorted_In, IH. intuition.
Qed.

Lemma insert_sorted_sorted (x : Z) (l : list Z) :
  StronglySorted Z.le l -> StronglySorted Z.le (insert_sorted x l).
Proof.
  induction l as [|y l IH]; intros Hs; simpl.
  - repeat constructor.
  - inversion Hs as [|? ? Hl Hy]; subst.
    destruct (Z.leb_spec x y) as [Hxy|Hyx].
    + constructor; [assumption|]. constructor; [assumption|].
      eapply List.Forall_impl; [|exact Hy]. simpl. intros z Hz. lia.
    + constructor; [apply IH, Hl|].
      apply List.Forall_forall. intros z Hz.
      apply insert_sorted_In in Hz as [->|Hz]; [lia|].
      rewrite List.Forall_forall in Hy. apply Hy, Hz.
Qed.

Lemma sort_sorted (l : list Z) : StronglySorted Z.le (sort l).
Proof.
  induction l as [|x l IH]; simpl; [constructor | apply insert_sorted_sorted, IH].
Qed.

Lemma unique_cons2 (x y : Z) (l : list Z) :
  unique (x :: y :: l) =
  if x =? y then unique (y :: l) else x :: unique (y :: l).
Proof. reflexivity. Qed.

Lemma unique_In (z : Z) (l : list Z) : In z (unique l) <-> In z l.
Proof.
  induction l as [|x l IH]; [reflexivity|].
  destruct l as [|y l]; [reflexivity|].
  rewrite unique_cons2. destruct (Z.eqb_spec x y) as [->|Hne].
  - rewrite IH. simpl. intuition.
  - change (In z (x :: unique (y :: l))) with (x = z \/ In z (unique (y :: l))).
    rewrite IH. simpl. intuition.
Qed.

Lemma unique_sorted (l : list Z) :
  StronglySorted Z.le l -> StronglySorted Z.lt (unique l).
Proof.
  induction l as [|x l IH]; intros Hs; [constructor|].
  inversion Hs as [|? ? Hl Hx]; subst.
  destruct l as [|y l]; [repeat constructor|].
  rewrite unique_cons2. destruct (Z.eqb_spec x y) as [->|Hne]; [apply IH, Hl|].
  constructor; [apply IH, Hl|].
  apply List.Forall_forall. intros z Hz. apply (proj1 (unique_In z (y :: l))) in Hz.
  inversion Hl as [|? ? _ Hy]; subst.
  rewrite List.Forall_forall in Hx, Hy.
  pose proof (Hx y ltac:(left; reflexivity)).
  simpl in Hz. destruct Hz as [<-|Hz]; [lia|]. specialize (Hy z Hz). lia.
Qed.

Lemma finalize_In (z : Z) (all : list Z) : In z (finalize all) <-> In z all.
Proof. unfold finalize. rewrite unique_In, sort_In. reflexivity. Qed.

Lemma finalize_sorted (all : list Z) : StronglySorted Z.lt (finalize all).
Proof. apply unique_sorted, sort_sorted. Qed.

Lemma strictly_sorted_neighbours (l : list Z) : forall (i : nat) (a b : Z),
  StronglySorted Z.lt l -> l !! i = Some a -> l !! S i = Some b -> a < b.
Proof.
  induction l as [|x l IH]; intros i a b Hs Ha Hb; [discriminate|].
  inversion Hs as [|? ? Hl Hx]; subst. destruct i as [|i].
  - injection Ha as ->. destruct l as [|y l]; [discriminate|].
    injection Hb as ->. inversion Hx; subst. assumption.
  - exact (IH i a b Hl Ha Hb).
Qed.

Lemma strictly_sorted_NoDup (l : list Z) :
  StronglySorted Z.lt l -> List.NoDup l.
Proof.
  induction 1 as [|x l Hl IH Hx]; constructor; [|exact IH].
  rewrite List.Forall_forall in Hx. intros Hin. specialize (Hx x Hin). lia.
Qed.

(** Two strictly ascending lists with the same elements are the same list. *)
Lemma strictly_sorted_unique (l1 : list Z) : forall l2 : list Z,
  StronglySorted Z.lt l1 -> StronglySorted Z.lt l2 ->
  (forall x, In x l1 <-> In x l2) -> l1 = l2.
Proof.
  induction l1 as [|x l1 IH]; intros l2 H1 H2 Heq.
  - destruct l2 as [|y l2]; [reflexivity|].
    destruct (proj2 (Heq y) ltac:(left; reflexivity)).
  - destruct l2 as [|y l2].
    { destruct (proj1 (Heq x) ltac:(left; reflexivity)). }
    inversion H1 as [|? ? Hl1 Hx]; inversion H2 as [|? ? Hl2 Hy]; subst.
    rewrite List.Forall_forall in Hx, Hy.
    assert (x = y).
    { destruct (proj1 (Heq x) ltac:(left; reflexivity)) as [|Hxi]; [congruence|].
      destruct (proj2 (Heq y) ltac:(left; reflexivity)) as [|Hyi]; [congruence|].
      specialize (Hx y Hyi). specialize (Hy x Hxi). lia. }
    subst y. f_equal. apply IH; [assumption | assumption |].
    intros z. split; intros Hz.
    + destruct (proj1 (Heq z) ltac:(right; exact Hz)) as [<-|]; [|assumption].
      specialize (Hx x Hz). lia.
    + destruct (proj2 (Heq z) ltac:(right; exact Hz)) as [<-|]; [|assumption].
      specialize (Hy x Hz). lia.
Qed.

(** C8. Whatever the accumulator holds, duplicates across workers included,
    the final vector is strictly ascending: each element is below its
    successor, so no value occurs twice; and it holds the accumulator's
    values. *)
Theorem finalize_strictly_ascending (all : list Z) :
  (forall (i : nat) (a b : Z),
     finalize all !! i = Some a -> finalize all !! S i = Some b -> a < b) /\
  StronglySorted Z.lt (finalize all) /\
  List.NoDup (finalize all) /\
  (forall x, In x (finalize all) <-> In x all).
Proof.
  pose proof (finalize_sorted all) as Hs.
  split; [|split; [|split]].
  - intros i a b. apply strictly_sorted_neighbours, Hs.
  - exact Hs.
  - apply strictly_sorted_NoDup, Hs.
  - intros x. apply finalize_In.
Qed.

(** ** The merge loop *)

Section merge_loop.

Variables (env : Env) (fs : gmap string string).
Variables (tempFiles : list string) (locals : list (list Z)).

Lemma merge_step_source (all : list Z) (i : nat) (fileName : string)
    (localOut : list Z) :
  tempFiles !! i = Some fileName -> locals !! i = Some localOut ->
  merge_step env fs tempFiles locals all i = all ++ source env fs fileName localOut.
Proof.
  intros Hn Hl. unfold merge_step, source. rewrite Hn, Hl.
  destruct (open_read env fs fileName); reflexivity.
Qed.

Lemma fold_merge_step (m : nat) : forall (k : nat) (all : list Z),
  length tempFiles = (k + m)%nat -> length locals = (k + m)%nat ->
  fold_left (merge_step env fs tempFiles locals) (seq k m) all =
  all ++ concat (zip_with (source env fs) (drop k tempFiles) (drop k locals)).
Proof.
  induction m as [|m IH]; intros k all Ht Hl.
  - rewrite (drop_ge tempFiles k), (drop_ge locals k) by lia.
    simpl. rewrite app_nil_r. reflexivity.
  - destruct (lookup_lt_is_Some_2 tempFiles k ltac:(lia)) as [name Hname].
    destruct (lookup_lt_is_Some_2 locals k ltac:(lia)) as [loc Hloc].
    simpl. rewrite (merge_step_source _ _ _ _ Hname Hloc).
    rewrite IH by lia.
    rewrite (drop_S _ _ _ Hname), (drop_S _ _ _ Hloc). simpl.
    rewrite app_assoc. reflexivity.
Qed.

Lemma merge_sources (numThreads : Z) :
  length tempFiles = Z.to_nat numThreads ->
  length locals = Z.to_nat numThreads ->
  merge env fs numThreads tempFiles locals =
  concat (zip_with (source env fs) tempFiles locals).
Proof.
  intros Ht Hl. unfold merge, indices.
  rewrite fold_merge_step by (simpl; assumption). reflexivity.
Qed.

End merge_loop.

Lemma zip_with_snd {A B : Type} (f : A -> B -> B) (l1 : list A) :
  forall l2 : list B,
  length l1 = length l2 ->
  (forall i x y, l1 !! i = Some x -> l2 !! i = Some y -> f x y = y) ->
  zip_with f l1 l2 = l2.
Proof.
  induction l1 as [|x l1 IH]; intros [|y l2] Hlen Hf; try discriminate.
  - reflexivity.
  - simpl. f_equal.
    + exact (Hf 0%nat x y eq_refl eq_refl).
    + apply IH; [simpl in Hlen; lia|].
      intros i a b Ha Hb. exact (Hf (S i) a b Ha Hb).
Qed.

(** One round of the merge at an index whose file opens. *)
Lemma merge_step_reads_file (env : Env)
    (fs : gmap string string) (tempFiles : list string) (all : list Z)
    (i : nat) (fileName contents : string) :
  tempFiles !! i = Some fileName ->
  open_read env fs fileName = Some contents ->
  forall (locals : list (list Z)) (localOut : list Z),
    locals !! i = Some localOut ->
    merge_step env fs tempFiles locals all i = all ++ read_file contents.
Proof.
  intros Hname Hopen locals localOut Hloc.
  rewrite (merge_step_source _ _ _ _ _ _ _ _ Hname Hloc).
  unfold source. rewrite Hopen. reflexivity.
Qed.

(** The accumulator after the rounds before [i]. *)
Lemma fold_merge_prefix (env : Env) (fs : gmap string string)
    (tempFiles : list string) (locals : list (list Z)) (i : nat) :
  (i <= length tempFiles)%nat -> (i <= length locals)%nat ->
  fold_left (merge_step env fs tempFiles locals) (seq 0 i) [] =
  concat (zip_with (source env fs) (take i tempFiles) (take i locals)).
Proof.
  induction i as [|i IH]; intros Ht Hl; [reflexivity|].
  destruct (lookup_lt_is_Some_2 tempFiles i ltac:(lia)) as [name Hname].
  destruct (lookup_lt_is_Some_2 locals i ltac:(lia)) as [loc Hloc].
  rewrite seq_S, fold_left_app, IH by lia. simpl.
  rewrite (merge_step_source _ _ _ _ _ _ _ _ Hname Hloc).
  rewrite (take_S_r _ _ _ Hname), (take_S_r _ _ _ Hloc).
  rewrite zip_with_app by (rewrite !length_take; lia).
  rewrite concat_app. simpl. rewrite app_nil_r. reflexivity.
Qed.

(** C6. During the merge, when the file of worker [i] opens, round [i]
    appends to what the rounds before it accumulated the values the read
    loop parses from the file; the merged accumulator holds them at that
    place, between the contributions of the indices before and after [i];
    and the in-memory vector of worker [i] is not consulted: the merge gives
    the same accumulator whatever that vector holds. *)
Theorem merge_artifact_authoritative (env : Env) (fs : gmap string string)
    (numThreads : Z) (tempFiles : list string) (locals : list (list Z))
    (i : nat) (fileName contents : string) :
  length tempFiles = Z.to_nat numThreads ->
  length locals = Z.to_nat numThreads ->
  tempFiles !! i = Some fileName ->
  open_read env fs fileName = Some contents ->
  fold_left (merge_step env fs tempFiles locals) (seq 0 (S i)) [] =
    fold_left (merge_step env fs tempFiles locals) (seq 0 i) []
    ++ read_file contents /\
  merge env fs numThreads tempFiles locals =
    fold_left (merge_step env fs tempFiles locals) (seq 0 i) []
    ++ read_file contents
    ++ concat (zip_with (source env fs)
                 (drop (S i) tempFiles) (drop (S i) locals)) /\
  (forall localOut' : list Z,
     merge env fs numThreads tempFiles (<[i := localOut']> locals) =
     merge env fs numThreads tempFiles locals) /\
  (forall (all localOut : list Z),
     locals !! i = Some localOut ->
     merge_step env fs tempFiles locals all i = all ++ read_file contents).
Proof.
  intros Ht Hl Hname Hopen.
  assert (Hi : (i < Z.to_nat numThreads)%nat).
  { apply lookup_lt_Some in Hname. lia. }
  destruct (lookup_lt_is_Some_2 locals i ltac:(lia)) as [loc Hloc].
  assert (Hsrc : forall l, source env fs fileName l = read_file contents).
  { intros l. unfold source. rewrite Hopen. reflexivity. }
  assert (Hsplit : forall ls : list (list Z), length ls = Z.to_nat numThreads ->
            forall l, ls !! i = Some l ->
            concat (zip_with (source env fs) tempFiles ls) =
            concat (zip_with (source env fs) (take i tempFiles) (take i ls))
            ++ read_file contents
            ++ concat (zip_with (source env fs)
                         (drop (S i) tempFiles) (drop (S i) ls))).
  { intros ls Hls l Hlook.
    rewrite <- (take_drop_middle tempFiles i fileName Hname) at 1.
    rewrite <- (take_drop_middle ls i l Hlook) at 1.
    rewrite zip_with_app by (rewrite !length_take; lia).
    rewrite concat_app. simpl. rewrite Hsrc. reflexivity. }
  refine (conj _ (conj _ (conj _ _))).
  - rewrite seq_S, fold_left_app. simpl.
    apply (merge_step_reads_file _ _ _ _ _ _ _ Hname Hopen _ _ Hloc).
  - rewrite merge_sources by assumption.
    rewrite fold_merge_prefix by lia.
    apply (Hsplit locals Hl loc Hloc).
  - intros localOut'.
    rewrite !merge_sources by (rewrite ?length_insert; assumption).
    rewrite (Hsplit locals Hl loc Hloc).
    rewrite (Hsplit (<[i := localOut']> locals)
               ltac:(rewrite length_insert; assumption) localOut'
               ltac:(apply list_lookup_insert_eq; lia)).
    rewrite take_insert_ge by lia.
    rewrite drop_insert_lt by lia. reflexivity.
  - intros all localOut Hlook.
    apply (merge_step_reads_file _ _ _ _ _ _ _ Hname Hopen _ _ Hlook).
Qed.

Lemma merge_artifact_authoritative_witness :
  merge env0 {[ "primes_thread_1.txt" := "4 6" ]} 2 (temp_files 2)
    [[2; 3]; [5; 7]] = [4; 6; 5; 7].
Proof.
  destruct (merge_artifact_authoritative env0
              {[ "primes_thread_1.txt" := "4 6" ]} 2 (temp_files 2)
              [[2; 3]; [5; 7]] 0 "primes_thread_1.txt" "4 6")
    as (_ & Hmerge & _); [reflexivity | reflexivity | reflexivity | reflexivity |].
  rewrite Hmerge. vm_compute. reflexivity.
Defined.



(** ** The thread count *)

Lemma wrap32_id (z : Z) : 0 <= z <= UINT_MAX -> wrap32 z = z.
Proof. unfold wrap32, UINT_MAX. intros H. apply Z.mod_small. lia. Qed.

Lemma choose_numThreads_bounds (hc limit : Z) :
  0 <= hc <= UINT_MAX ->
  1 <= choose_numThreads hc limit <= UINT_MAX /\
  choose_numThreads hc limit <= Z.max 1 limit.
Proof.
  intros Hhc. unfold choose_numThreads, detected_hw.
  destruct (Z.ltb_spec limit 2); [unfold UINT_MAX; lia|].
  rewrite wrap32_id; destruct (Z.eqb_spec hc 0); unfold UINT_MAX in *; lia.
Qed.

Lemma length_indices (numThreads : Z) :
  length (indices numThreads) = Z.to_nat numThreads.
Proof. unfold indices. apply length_seq. Qed.

Lemma length_plan (limit numThreads : Z) :
  length (plan limit numThreads) = Z.to_nat numThreads.
Proof. unfold plan. rewrite length_fmap. apply length_indices. Qed.

Lemma length_temp_files (numThreads : Z) :
  length (temp_files numThreads) = Z.to_nat numThreads.
Proof. unfold temp_files. rewrite length_fmap. apply length_indices. Qed.

(** C10. Whatever the hardware reports, zero included, [numThreads] is at
    least 1 (and an [unsigned int]), so the block size is computed by the
    division, whose divisor is not zero, and the vectors of ranges, of
    results and of file names have [numThreads >= 1] entries. *)
Theorem numThreads_positive (hc limit : Z) :
  0 <= hc <= UINT_MAX -> 0 <= limit <= LLONG_MAX ->
  detected_hw 0 = 2 /\
  1 <= choose_numThreads hc limit <= UINT_MAX /\
  choose_numThreads hc limit <> 0 /\
  block_size limit (choose_numThreads hc limit) =
    ceil_div limit (choose_numThreads hc limit) /\
  (0 < length (plan limit (choose_numThreads hc limit)))%nat /\
  (0 < length (replicate (Z.to_nat (choose_numThreads hc limit)) ([] : list Z)))%nat /\
  (0 < length (temp_files (choose_numThreads hc limit)))%nat.
Proof.
  intros Hhc Hlimit.
  destruct (choose_numThreads_bounds hc limit Hhc) as [Hn _].
  split; [reflexivity|]. split; [exact Hn|]. split; [lia|]. split.
  - unfold block_size. destruct (Z.ltb_spec 0 (choose_numThreads hc limit)); [reflexivity | lia].
  - rewrite length_plan, length_replicate, length_temp_files. lia.
Qed.

Lemma numThreads_positive_witness :
  detected_hw 0 = 2 /\
  1 <= choose_numThreads 0 10 <= UINT_MAX /\
  choose_numThreads 0 10 <> 0 /\
  block_size 10 (choose_numThreads 0 10) = ceil_div 10 (choose_numThreads 0 10) /\
  (0 < length (plan 10 (choose_numThreads 0 10)))%nat /\
  (0 < length (replicate (Z.to_nat (choose_numThreads 0 10)) ([] : list Z)))%nat /\
  (0 < length (temp_files (choose_numThreads 0 10)))%nat.
Proof.
  apply (numThreads_positive 0 10); unfold UINT_MAX, LLONG_MAX; lia.
Defined.


(** ** The partition *)

Lemma wrap64_add_l (a b : Z) : wrap64 (wrap64 a + b) = wrap64 (a + b).
Proof.
  unfold wrap64. f_equal.
  replace ((a + 2 ^ 63) mod 2 ^ 64 - 2 ^ 63 + b + 2 ^ 63)
    with ((a + 2 ^ 63) mod 2 ^ 64 + b) by lia.
  rewrite Z.add_mod_idemp_l by lia. f_equal. lia.
Qed.

(** Where [a + b - 1] is representable the lambda computes the ceiling of
    [a / b]; the intermediate [a + b] may wrap and is brought back by
    the subtraction. *)
Lemma ceil_div_exact (a b : Z) :
  0 <= a -> 1 <= b -> a + b - 1 <= LLONG_MAX ->
  ceil_div a b = (a + b - 1) / b.
Proof.
  intros Ha Hb Hmax. unfold ceil_div, div, sub, add, LLONG_MAX in *.
  replace (wrap64 (a + b) - 1) with (wrap64 (a + b) + -1) by lia.
  rewrite wrap64_add_l.
  replace (a + b + -1) with (a + b - 1) by lia.
  rewrite (wrap64_id (a + b - 1)) by (unfold in_range, LLONG_MIN, LLONG_MAX; lia).
  rewrite Z.quot_div_nonneg by lia.
  apply wrap64_id. unfold in_range, LLONG_MIN, LLONG_MAX.
  pose proof (Z.div_pos (a + b - 1) b ltac:(lia) ltac:(lia)).
  pose proof (Z.div_le_upper_bound (a + b - 1) b (a + b - 1) ltac:(lia) ltac:(nia)).
  lia.
Qed.

Lemma ceiling_bounds (limit n : Z) :
  0 <= limit -> 1 <= n ->
  0 <= (limit + n - 1) / n /\
  n * ((limit + n - 1) / n - 1) < limit <= n * ((limit + n - 1) / n).
Proof.
  intros Hl Hn.
  pose proof (Z.div_mod (limit + n - 1) n ltac:(lia)).
  pose proof (Z.mod_pos_bound (limit + n - 1) n ltac:(lia)).
  pose proof (Z.div_pos (limit + n - 1) n ltac:(lia) ltac:(lia)).
  lia.
Qed.

Lemma plan_range_exact (limit n i : Z) :
  0 <= limit -> 1 <= n <= UINT_MAX -> limit + n - 1 <= LLONG_MAX -> 0 <= i < n ->
  plan_range limit ((limit + n - 1) / n) i = planned limit ((limit + n - 1) / n) i.
Proof.
  intros Hl [Hn Hn'] Hmax Hi.
  destruct (ceiling_bounds limit n Hl Hn) as (HB0 & HBlo & HBhi).
  set (B := (limit + n - 1) / n) in *.
  unfold LLONG_MAX in Hmax. unfold UINT_MAX in Hn'.
  assert (HnB : n * B <= limit + n - 1) by lia.
  assert (HiB : 0 <= i * B <= (n - 1) * B) by nia.
  assert (H1 : mul i B = i * B).
  { apply wrap64_id. unfold in_range, LLONG_MIN, LLONG_MAX. nia. }
  assert (H2 : add i 1 = i + 1).
  { apply wrap64_id. unfold in_range, LLONG_MIN, LLONG_MAX. lia. }
  assert (H3 : mul (i + 1) B = (i + 1) * B).
  { apply wrap64_id. unfold in_range, LLONG_MIN, LLONG_MAX. nia. }
  assert (H4 : add (i * B) 1 = i * B + 1).
  { apply wrap64_id. unfold in_range, LLONG_MIN, LLONG_MAX. nia. }
  unfold plan_range, planned. rewrite H1, H2, H3, H4. reflexivity.
Qed.

Lemma lookup_indices (numThreads : Z) (i : nat) :
  (i < Z.to_nat numThreads)%nat -> indices numThreads !! i = Some i.
Proof. intros Hi. unfold indices. rewrite lookup_seq_lt by assumption. reflexivity. Qed.

Lemma lookup_plan (limit numThreads : Z) (i : nat) :
  (i < Z.to_nat numThreads)%nat ->
  plan limit numThreads !! i =
  Some (plan_range limit (block_size limit numThreads) (Z.of_nat i)).
Proof.
  intros Hi. unfold plan. rewrite list_lookup_fmap, lookup_indices by assumption.
  reflexivity.
Qed.

Lemma lookup_plan_inv (limit numThreads : Z) (i : nat) (r : Range) :
  plan limit numThreads !! i = Some r ->
  (i < Z.to_nat numThreads)%nat /\
  r = plan_range limit (block_size limit numThreads) (Z.of_nat i).
Proof.
  intros Hr. assert (Hi : (i < Z.to_nat numThreads)%nat).
  { apply lookup_lt_Some in Hr. rewrite length_plan in Hr. exact Hr. }
  rewrite (lookup_plan _ _ _ Hi) in Hr. split; [assumption | congruence].
Qed.

(** Where [limit + numThreads - 1] is representable, the planner gives every
    worker index the range of the formula with the ceiling block size, the
    ranges cover [1, limit] exactly and no number lies in two of them. *)
Lemma plan_partition (limit numThreads : Z) :
  0 <= limit -> 1 <= numThreads <= UINT_MAX ->
  limit + numThreads - 1 <= LLONG_MAX ->
  block_size limit numThreads = (limit + numThreads - 1) / numThreads /\
  numThreads * (block_size limit numThreads - 1) < limit
    <= numThreads * block_size limit numThreads /\
  length (plan limit numThreads) = Z.to_nat numThreads /\
  (forall i : nat, (i < Z.to_nat numThreads)%nat ->
     plan limit numThreads !! i =
     Some (planned limit (block_size limit numThreads) (Z.of_nat i))) /\
  (forall x, 1 <= x <= limit <->
     exists (i : nat) (r : Range),
       plan limit numThreads !! i = Some r /\ start r <= x <= end_ r) /\
  (forall (i j : nat) (r r' : Range) (x : Z),
     plan limit numThreads !! i = Some r ->
     plan limit numThreads !! j = Some r' ->
     start r <= x <= end_ r -> start r' <= x <= end_ r' -> i = j).
Proof.
  intros Hl Hn Hmax.
  assert (HB : block_size limit numThreads = (limit + numThreads - 1) / numThreads).
  { unfold block_size. destruct (Z.ltb_spec 0 numThreads); [|lia].
    apply ceil_div_exact; lia. }
  destruct (ceiling_bounds limit numThreads Hl ltac:(lia)) as (HB0 & HBlo & HBhi).
  rewrite <- HB in HB0, HBlo, HBhi.
  assert (Hlook : forall i : nat, (i < Z.to_nat numThreads)%nat ->
            plan limit numThreads !! i =
            Some (planned limit (block_size limit numThreads) (Z.of_nat i))).
  { intros i Hi. rewrite lookup_plan by assumption. rewrite HB.
    rewrite plan_range_exact by lia. reflexivity. }
  assert (Hin : forall (i : nat) (r : Range) (x : Z),
            plan limit numThreads !! i = Some r -> start r <= x <= end_ r ->
            Z.of_nat i * block_size limit numThreads + 1 <= x /\
            x <= (Z.of_nat i + 1) * block_size limit numThreads /\ 1 <= x <= limit).
  { intros i r x Hr Hx. destruct (lookup_plan_inv _ _ _ _ Hr) as [Hi _].
    rewrite (Hlook i Hi) in Hr. injection Hr as <-. unfold planned in Hx.
    destruct (Z.ltb_spec (Z.min limit ((Z.of_nat i + 1) * block_size limit numThreads))
                (Z.of_nat i * block_size limit numThreads + 1)); simpl in Hx; nia. }
  set (B := block_size limit numThreads) in *.
  split; [exact HB|]. split; [lia|]. split; [apply length_plan|].
  split; [exact Hlook|]. split.
  - intros x. split.
    + intros Hx. assert (HBpos : 0 < B) by nia.
      pose proof (Z.div_mod (x - 1) B ltac:(lia)) as Hdm.
      pose proof (Z.mod_pos_bound (x - 1) B HBpos) as Hmod.
      pose proof (Z.div_pos (x - 1) B ltac:(lia) HBpos) as Hq.
      assert (Hlt : (x - 1) / B < numThreads).
      { apply Z.div_lt_upper_bound; [assumption | nia]. }
      exists (Z.to_nat ((x - 1) / B)).
      eexists. split; [apply Hlook; lia|].
      rewrite Z2Nat.id by assumption. unfold planned.
      destruct (Z.ltb_spec (Z.min limit (((x - 1) / B + 1) * B))
                  ((x - 1) / B * B + 1)); simpl; nia.
    + intros (i & r & Hr & Hx). apply (Hin i r x Hr Hx).
  - intros i j r r' x Hr Hr' Hx Hx'.
    destruct (Hin i r x Hr Hx) as (Hi1 & Hi2 & _).
    destruct (Hin j r' x Hr' Hx') as (Hj1 & Hj2 & _).
    destruct (Nat.lt_trichotomy i j) as [Hlt|[Heq|Hgt]]; [|assumption|]; exfalso; nia.
Qed.

(** C3 at a limit where [a + b - 1] is not representable: the block size
    comes out negative, every range is the empty one and nothing of
    [1, limit] is covered. *)
Lemma plan_overflow :
  block_size 9223372036854775807 2 = -4611686018427387904 /\
  plan 9223372036854775807 2 =
    [{| start := 1; end_ := 0 |}; {| start := 1; end_ := 0 |}] /\
  ~ (exists (i : nat) (r : Range),
       plan 9223372036854775807 2 !! i = Some r /\ start r <= 1 <= end_ r).
Proof.
  split; [vm_compute; reflexivity|]. split; [vm_compute; reflexivity|].
  intros (i & r & Hr & Hx).
  replace (plan 9223372036854775807 2)
    with [{| start := 1; end_ := 0 |}; {| start := 1; end_ := 0 |}] in Hr
    by (vm_compute; reflexivity).
  destruct i as [|[|i]]; simpl in Hr; try discriminate;
    injection Hr as <-; simpl in Hx; lia.
Qed.

(** ** The worker loop *)

Lemma isPrime_decides (pfuel : nat) (x : Z) :
  in_range x -> (Z.to_nat x <= pfuel)%nat ->
  isPrime pfuel x = Some (bool_decide (Z.prime x)).
Proof.
  intros Hx Hf.
  destruct (isPrime_loop_correct_all pfuel x Hx Hf) as (b & -> & Hb).
  f_equal. destruct b.
  - symmetry. apply bool_decide_eq_true. apply Hb. reflexivity.
  - symmetry. apply bool_decide_eq_false. intros Hp. apply Hb in Hp. discriminate.
Qed.

(** Below [LLONG_MAX] the loop ends after [e - x + 1] rounds with the primes
    of [x .. e] appended in ascending order. *)
Lemma worker_loop_run (k : nat) : forall (fuel pfuel : nat) (x e : Z) (acc : list Z),
  in_range x -> e < LLONG_MAX -> k = Z.to_nat (e - x + 1) ->
  (k < fuel)%nat -> (Z.to_nat e <= pfuel)%nat ->
  worker_loop fuel pfuel x e acc = Some (acc ++ primes_between x e).
Proof.
  unfold primes_between.
  induction k as [|k IH]; intros fuel pfuel x e acc Hx He Hk Hfuel Hp;
    (destruct fuel as [|fuel]; [lia|]); simpl worker_loop.
  - destruct (Z.leb_spec x e); [lia|].
    unfold seqZ. rewrite <- Hk. simpl. rewrite app_nil_r. reflexivity.
  - destruct (Z.leb_spec x e); [|lia].
    rewrite isPrime_decides; [|assumption|lia].
    assert (Hx1 : add x 1 = x + 1).
    { apply wrap64_id. unfold in_range, LLONG_MIN, LLONG_MAX in *. lia. }
    rewrite Hx1, (IH fuel pfuel (x + 1) e); try lia;
      [|unfold in_range, LLONG_MIN, LLONG_MAX in *; lia].
    rewrite (seqZ_cons x (e - x + 1)) by lia.
    replace (Z.pred (e - x + 1)) with (e - (x + 1) + 1) by lia.
    replace (Z.succ x) with (x + 1) by lia.
    destruct (bool_decide_reflect (Z.prime x)) as [Hpx|Hnpx].
    + rewrite filter_cons_True by assumption.
      rewrite <- app_assoc. reflexivity.
    + rewrite filter_cons_False by assumption. reflexivity.
Qed.

Lemma primes_between_In (lo hi y : Z) :
  In y (primes_between lo hi) <-> lo <= y <= hi /\ Z.prime y.
Proof.
  unfold primes_between.
  rewrite <- list_elem_of_In, list_elem_of_filter, elem_of_seqZ. intuition lia.
Qed.

Lemma primes_between_empty (lo hi : Z) : hi < lo -> primes_between lo hi = [].
Proof. intros H. unfold primes_between. rewrite seqZ_nil by lia. reflexivity. Qed.

Lemma primes_between_step (lo hi : Z) :
  lo <= hi ->
  primes_between lo hi =
  if decide (Z.prime lo) then lo :: primes_between (lo + 1) hi
  else primes_between (lo + 1) hi.
Proof.
  intros H. unfold primes_between. rewrite (seqZ_cons lo) by lia.
  replace (Z.pred (hi - lo + 1)) with (hi - (lo + 1) + 1) by lia.
  replace (Z.succ lo) with (lo + 1) by lia.
  apply filter_cons.
Qed.

Lemma primes_between_sorted (k : nat) : forall lo hi : Z,
  k = Z.to_nat (hi - lo + 1) -> StronglySorted Z.lt (primes_between lo hi).
Proof.
  induction k as [|k IH]; intros lo hi Hk.
  - rewrite primes_between_empty by lia. constructor.
  - rewrite primes_between_step by lia.
    specialize (IH (lo + 1) hi ltac:(lia)).
    destruct (decide (Z.prime lo)); [|exact IH].
    constructor; [exact IH|].
    apply List.Forall_forall. intros y Hy. apply primes_between_In in Hy. lia.
Qed.

Lemma primes_between_in_range (lo hi : Z) :
  in_range lo -> in_range hi -> Forall in_range (primes_between lo hi).
Proof.
  intros Hlo Hhi. apply List.Forall_forall. intros y Hy.
  apply primes_between_In in Hy. unfold in_range in *. lia.
Qed.

(** The loop never ends when the upper bound is the largest [long long]:
    the guard [x <= range.end] holds for every value of [x]. *)
Lemma worker_loop_diverges (fuel : nat) : forall (pfuel : nat) (x : Z) (acc : list Z),
  in_range x -> worker_loop fuel pfuel x LLONG_MAX acc = None.
Proof.
  induction fuel as [|fuel IH]; intros pfuel x acc Hx; [reflexivity|].
  simpl. destruct (Z.leb_spec x LLONG_MAX) as [_|Hgt].
  - destruct (isPrime pfuel x); [|reflexivity].
    apply IH, wrap64_in_range.
  - unfold in_range in Hx. lia.
Qed.

(** C4 at a range that ends at [LLONG_MAX]: the call never hands back the
    list.  When the reservation throws, the call is left by the exception;
    when it does not, the loop never ends, whatever the fuel.  [main] passes
    the range from 1 to [LLONG_MAX] for the limit [LLONG_MAX] when one
    hardware thread is reported, and there the reservation of [2^63 - 1]
    elements throws; from [LLONG_MAX] to [LLONG_MAX] one element is reserved
    and the loop goes on for ever. *)
Lemma workerTask_diverges (fuel : nat) (env : Env) (workerId lo : Z)
    (fileName : string) (fs : gmap string string) :
  (in_range lo ->
   workerTask fuel env workerId {| start := lo; end_ := LLONG_MAX |} fileName fs
   = if reserve_throws env
          (reserve_request {| start := lo; end_ := LLONG_MAX |})
     then Aborts else Unfinished) /\
  workerTask fuel env workerId {| start := 1; end_ := LLONG_MAX |} fileName fs
  = Aborts /\
  (alloc_fails env 1 = false ->
   workerTask fuel env workerId
     {| start := LLONG_MAX; end_ := LLONG_MAX |} fileName fs
   = Unfinished) /\
  plan LLONG_MAX (choose_numThreads 1 LLONG_MAX)
  = [{| start := 1; end_ := LLONG_MAX |}].
Proof.
  assert (Hgen : forall lo', in_range lo' ->
            workerTask fuel env workerId
              {| start := lo'; end_ := LLONG_MAX |} fileName fs
            = if reserve_throws env
                   (reserve_request {| start := lo'; end_ := LLONG_MAX |})
              then Aborts else Unfinished).
  { intros lo' Hlo. unfold workerTask.
    destruct (reserve_throws env _); [reflexivity|]. simpl.
    rewrite worker_loop_diverges by assumption. reflexivity. }
  refine (conj (Hgen lo) (conj _ (conj _ _))).
  - rewrite Hgen by (unfold in_range, LLONG_MIN, LLONG_MAX; lia).
    change (reserve_request {| start := 1; end_ := LLONG_MAX |})
      with 9223372036854775807.
    reflexivity.
  - intros Halloc. rewrite Hgen by (unfold in_range, LLONG_MIN, LLONG_MAX; lia).
    change (reserve_request {| start := LLONG_MAX; end_ := LLONG_MAX |}) with 1.
    unfold reserve_throws. rewrite Halloc. reflexivity.
  - vm_compute. reflexivity.
Qed.

Lemma filter_ext_in {A : Type} (P Q : A -> Prop)
    {HP : forall x, Decision (P x)} {HQ : forall x, Decision (Q x)} (l : list A) :
  (forall x, In x l -> (P x <-> Q x)) -> filter P l = filter Q l.
Proof.
  induction l as [|x l IH]; intros Hpq; [reflexivity|].
  rewrite !filter_cons.
  rewrite IH by (intros y Hy; apply Hpq; right; exact Hy).
  pose proof (Hpq x ltac:(left; reflexivity)).
  destruct (decide (P x)), (decide (Q x)); tauto.
Qed.

(** Below [LLONG_MAX] the worker is left by the exception when the
    reservation for its range throws; otherwise it returns the primes of its
    range in ascending order, which are the numbers of the range that
    [isPrime] accepts, and nothing for an empty range, for which nothing is
    reserved; the list is written to the file when the output stream opens,
    and a warning to [std::cerr] when it does not. *)
Lemma workerTask_correct (fuel : nat) (env : Env) (workerId : Z) (range : Range)
    (fileName : string) (fs : gmap string string) :
  in_range (start range) -> in_range (end_ range) -> end_ range < LLONG_MAX ->
  (Z.to_nat (end_ range - start range + 1) < fuel)%nat ->
  (Z.to_nat (end_ range) <= fuel)%nat ->
  workerTask fuel env workerId range fileName fs =
    (if reserve_throws env (reserve_request range) then Aborts
     else Returns
            (primes_between (start range) (end_ range),
             (if write_fails env fileName then fs
              else <[fileName := serialize
                                   (primes_between (start range) (end_ range))]> fs),
             (if write_fails env fileName then [warning workerId fileName]
              else []))) /\
  primes_between (start range) (end_ range) =
    filter (fun y => isPrime fuel y = Some true)
      (seqZ (start range) (end_ range - start range + 1)) /\
  (end_ range < start range ->
     primes_between (start range) (end_ range) = [] /\
     reserve_throws env (reserve_request range) = false).
Proof.
  intros Hs He Hmax Hfuel Hp. split; [|split].
  - unfold workerTask.
    rewrite (worker_loop_run _ fuel fuel _ _ [] Hs Hmax eq_refl Hfuel Hp).
    reflexivity.
  - unfold primes_between. apply filter_ext_in.
    intros y Hy. apply list_elem_of_In, elem_of_seqZ in Hy.
    rewrite isPrime_decides;
      [|unfold in_range in *; lia | lia].
    split.
    + intros Hpy. f_equal. apply bool_decide_eq_true. exact Hpy.
    + intros [= Hb]. apply bool_decide_eq_true in Hb. exact Hb.
  - intros Hempty. split; [apply primes_between_empty, Hempty|].
    unfold reserve_request. destruct (Z.leb_spec (start range) (end_ range)); [lia|].
    reflexivity.
Qed.

(** The values the worker collects are values of [long long]. *)
Lemma worker_loop_in_range (fuel : nat) :
  forall (pfuel : nat) (x e : Z) (acc l : list Z),
  in_range x -> Forall in_range acc ->
  worker_loop fuel pfuel x e acc = Some l -> Forall in_range l.
Proof.
  induction fuel as [|fuel IH]; intros pfuel x e acc l Hx Hacc H; [discriminate|].
  simpl in H. destruct (x <=? e); [|injection H as <-; exact Hacc].
  destruct (isPrime pfuel x) as [b|]; [|discriminate].
  destruct b.
  - apply (IH pfuel (add x 1) e (acc ++ [x]) l (wrap64_in_range _)); [|exact H].
    apply Forall_app. split; [exact Hacc|].
    constructor; [exact Hx | constructor].
  - exact (IH pfuel (add x 1) e acc l (wrap64_in_range _) Hacc H).
Qed.

(** C7. When [workerTask] returns and its output stream opened, the file
    holds its vector as decimal integers separated by one space and ended
    by one newline, an empty vector as the newline alone, and no other file
    has changed; the read loop of the merge, when the file opens for
    reading, returns exactly the vector the worker holds, whatever the
    in-memory vector of the merge is.  Writing and reading back is the
    identity for every vector of [long long] values. *)
Theorem worker_artifact_roundtrip (fuel : nat) (env : Env) (workerId : Z)
    (range : Range) (fileName : string) (fs : gmap string string)
    (localOut : list Z) (fs' : gmap string string) (err : list string) :
  in_range (start range) ->
  workerTask fuel env workerId range fileName fs = Returns (localOut, fs', err) ->
  write_fails env fileName = false ->
  fs' = <[fileName := serialize localOut]> fs /\
  fs' !! fileName = Some (write_ints localOut +:+ newline) /\
  (localOut = [] -> fs' !! fileName = Some newline) /\
  (read_fails env fileName = false ->
   forall fallback : list Z, source env fs' fileName fallback = localOut) /\
  read_file (serialize localOut) = localOut /\
  (forall l : list Z, Forall in_range l -> read_file (serialize l) = l) /\
  serialize [] = newline /\
  (forall x, serialize [x] = show_ll x +:+ newline) /\
  (forall x y l,
     serialize (x :: y :: l) = show_ll x +:+ String " "%char (serialize (y :: l))) /\
  Forall (fun v =>
            (0 <= v -> all_digits (show_ll v) = true /\
                       decimal_value (show_ll v) = v) /\
            (v < 0 -> exists digits, show_ll v = String "-"%char digits /\
                        all_digits digits = true /\ decimal_value digits = - v))
    localOut.
Proof.
  intros Hstart Hrun Hw. unfold workerTask in Hrun.
  destruct (reserve_throws env (reserve_request range)); [discriminate|].
  destruct (worker_loop fuel fuel (start range) (end_ range) []) as [l|] eqn:Hloop;
    [|discriminate].
  rewrite Hw in Hrun. injection Hrun as -> <- _.
  assert (Hrange : Forall in_range localOut).
  { apply (worker_loop_in_range _ _ _ _ _ _ Hstart (Forall_nil_2 _) Hloop). }
  assert (Hfile : <[fileName := serialize localOut]> fs !! fileName
                  = Some (serialize localOut)) by apply lookup_insert_eq.
  refine (conj eq_refl (conj Hfile (conj _ (conj _ (conj _ (conj _ _)))))).
  - intros ->. exact Hfile.
  - intros Hr fallback. unfold source, open_read. rewrite Hr, Hfile.
    apply read_file_serialize, Hrange.
  - apply read_file_serialize, Hrange.
  - intros l Hl. apply read_file_serialize, Hl.
  - split; [reflexivity|]. split; [reflexivity|]. split; [apply serialize_cons2|].
    eapply List.Forall_impl; [|exact Hrange]. intros v Hv. apply show_ll_decimal, Hv.
Qed.

Lemma worker_artifact_roundtrip_witness :
  (<["primes_thread_1.txt" := serialize [2; 3; 5; 7]]> ∅ : gmap string string)
    !! "primes_thread_1.txt" = Some (write_ints [2; 3; 5; 7] +:+ newline) /\
  read_file (serialize [2; 3; 5; 7]) = [2; 3; 5; 7].
Proof.
  destruct (worker_artifact_roundtrip 20 env0 0 {| start := 1; end_ := 10 |}
              "primes_thread_1.txt" ∅ [2; 3; 5; 7]
              (<["primes_thread_1.txt" := serialize [2; 3; 5; 7]]> ∅) [])
    as (_ & Hfile & _ & _ & Hread & _).
  - unfold in_range, LLONG_MIN, LLONG_MAX. simpl. lia.
  - vm_compute. reflexivity.
  - reflexivity.
  - split; [exact Hfile | exact Hread].
Defined.

(** ** The threads *)

Lemma run_threads_prefix (fuel : nat) (env : Env) (ranges : list Range)
    (names : list string) (out : nat -> list Z) (fs : gmap string string)
    (n : nat) :
  length ranges = n -> length names = n ->
  (forall i r, ranges !! i = Some r ->
     reserve_throws env (reserve_request r) = false /\
     worker_loop fuel fuel (start r) (end_ r) [] = Some (out i)) ->
  forall k : nat, (k <= n)%nat ->
  fold_left (thread_step fuel env ranges names) (seq 0 k)
    (Returns (replicate n [], fs, [])) =
  Returns ((out <$> seq 0 k) ++ replicate (n - k) [],
           written env names out fs k, warnings env names k).
Proof.
  intros Hr Hn Hout. induction k as [|k IH]; intros Hk.
  - simpl. rewrite Nat.sub_0_r. reflexivity.
  - rewrite seq_S, fold_left_app, IH by lia. simpl.
    destruct (lookup_lt_is_Some_2 ranges k ltac:(lia)) as [r Hrk].
    destruct (lookup_lt_is_Some_2 names k ltac:(lia)) as [name Hnk].
    rewrite Hrk, Hnk. unfold workerTask.
    destruct (Hout k r Hrk) as [Hres Hloop]. rewrite Hres, Hloop.
    f_equal. f_equal. f_equal.
    rewrite insert_app_r_alt by (rewrite length_fmap, length_seq; lia).
    rewrite length_fmap, length_seq, Nat.sub_diag.
    replace (n - k)%nat with (S (n - S k)) by lia. simpl.
    rewrite fmap_app, <- app_assoc. reflexivity.
Qed.

Lemma run_threads_spec (fuel : nat) (env : Env) (numThreads : Z)
    (ranges : list Range) (names : list string) (out : nat -> list Z)
    (fs : gmap string string) :
  length ranges = Z.to_nat numThreads -> length names = Z.to_nat numThreads ->
  (forall i r, ranges !! i = Some r ->
     reserve_throws env (reserve_request r) = false /\
     worker_loop fuel fuel (start r) (end_ r) [] = Some (out i)) ->
  run_threads fuel env numThreads ranges names fs =
  Returns (out <$> indices numThreads,
           written env names out fs (Z.to_nat numThreads),
           warnings env names (Z.to_nat numThreads)).
Proof.
  intros Hr Hn Hout. unfold run_threads, indices.
  rewrite (run_threads_prefix fuel env ranges names out fs _ Hr Hn Hout) by lia.
  rewrite Nat.sub_diag. simpl. rewrite app_nil_r. reflexivity.
Qed.

(** The threads up to the first worker whose reservation throws: the
    process is ended there. *)
Lemma run_threads_aborts (fuel : nat) (env : Env) (numThreads : Z)
    (ranges : list Range) (names : list string) (out : nat -> list Z)
    (fs : gmap string string) (j : nat) (rj : Range) :
  length ranges = Z.to_nat numThreads -> length names = Z.to_nat numThreads ->
  ranges !! j = Some rj ->
  reserve_throws env (reserve_request rj) = true ->
  (forall i r, (i < j)%nat -> ranges !! i = Some r ->
     reserve_throws env (reserve_request r) = false /\
     worker_loop fuel fuel (start r) (end_ r) [] = Some (out i)) ->
  run_threads fuel env numThreads ranges names fs = Aborts.
Proof.
  intros Hr Hn Hj Hthrow Hout. unfold run_threads, indices.
  assert (Hjn : (j < Z.to_nat numThreads)%nat).
  { apply lookup_lt_Some in Hj. lia. }
  assert (Hpre : forall k, (k <= j)%nat ->
            exists locals fs1 err,
              fold_left (thread_step fuel env ranges names) (seq 0 k)
                (Returns (replicate (Z.to_nat numThreads) [], fs, []))
              = Returns (locals, fs1, err)).
  { induction k as [|k IH]; intros Hk; [eexists _, _, _; reflexivity|].
    destruct (IH ltac:(lia)) as (locals & fs1 & err & E).
    rewrite seq_S, fold_left_app, E. simpl.
    destruct (lookup_lt_is_Some_2 ranges k ltac:(lia)) as [r Hrk].
    destruct (lookup_lt_is_Some_2 names k ltac:(lia)) as [name Hnk].
    rewrite Hrk, Hnk. unfold workerTask.
    destruct (Hout k r ltac:(lia) Hrk) as [Hres Hloop]. rewrite Hres, Hloop.
    eexists _, _, _. reflexivity. }
  destruct (Hpre j (le_n j)) as (locals & fs1 & err & E).
  replace (Z.to_nat numThreads) with (j + S (Z.to_nat numThreads - S j))%nat
    at 1 by lia.
  rewrite seq_app, fold_left_app, E. simpl.
  destruct (lookup_lt_is_Some_2 names j ltac:(lia)) as [name Hnj].
  rewrite Hj, Hnj. unfold workerTask. rewrite Hthrow.
  clear. induction (seq (S j) _) as [|x l IH]; [reflexivity | exact IH].
Qed.

Lemma written_other (env : Env) (names : list string) (out : nat -> list Z)
    (fs : gmap string string) (name : string) (k : nat) :
  (forall j, (j < k)%nat -> names !! j <> Some name) ->
  written env names out fs k !! name = fs !! name.
Proof.
  induction k as [|k IH]; intros Hk; [reflexivity|]. simpl.
  specialize (IH ltac:(intros j Hj; apply Hk; lia)).
  destruct (names !! k) as [nk|] eqn:Hnk; [|exact IH].
  destruct (write_fails env nk); [exact IH|].
  rewrite lookup_insert_ne; [exact IH|].
  intros ->. exact (Hk k ltac:(lia) Hnk).
Qed.

Lemma written_lookup (env : Env) (names : list string) (out : nat -> list Z)
    (fs : gmap string string) :
  (forall i j name, names !! i = Some name -> names !! j = Some name -> i = j) ->
  forall (k i : nat) (name : string),
  (i < k)%nat -> names !! i = Some name ->
  written env names out fs k !! name =
  if write_fails env name then fs !! name else Some (serialize (out i)).
Proof.
  intros Hinj. induction k as [|k IH]; intros i name Hi Hname; [lia|]. simpl.
  destruct (decide (i = k)) as [->|Hne].
  - rewrite Hname. destruct (write_fails env name).
    + apply written_other. intros j Hj Hjn.
      specialize (Hinj j k name Hjn Hname). lia.
    + apply lookup_insert_eq.
  - specialize (IH i name ltac:(lia) Hname).
    destruct (names !! k) as [nk|] eqn:Hnk; [|exact IH].
    destruct (write_fails env nk); [exact IH|].
    rewrite lookup_insert_ne; [exact IH|].
    intros ->. apply Hne. exact (Hinj i k name Hname Hnk).
Qed.

(** The file names of distinct workers differ. *)
Lemma append_inj_l (p a b : string) : p +:+ a = p +:+ b -> a = b.
Proof.
  induction p as [|c p IH]; [trivial|].
  rewrite !append_cons. intros [= H]. exact (IH H).
Qed.

Lemma temp_name_inj (i j : Z) :
  0 <= i < UINT_MAX -> 0 <= j < UINT_MAX -> temp_name i = temp_name j -> i = j.
Proof.
  unfold temp_name, UINT_MAX. intros Hi Hj H. apply append_inj_l in H.
  rewrite !wrap32_id in H by (unfold UINT_MAX; lia).
  apply (f_equal (scan_digits 0)) in H.
  rewrite !scan_show_unsigned in H by (lia || reflexivity).
  injection H as H. lia.
Qed.

Lemma lookup_temp_files (numThreads : Z) (i : nat) (name : string) :
  temp_files numThreads !! i = Some name ->
  (i < Z.to_nat numThreads)%nat /\ name = temp_name (Z.of_nat i).
Proof.
  intros H. assert (Hi : (i < Z.to_nat numThreads)%nat).
  { apply lookup_lt_Some in H. rewrite length_temp_files in H. exact H. }
  split; [exact Hi|]. unfold temp_files in H.
  rewrite list_lookup_fmap, lookup_indices in H by assumption.
  simpl in H. congruence.
Qed.

Lemma temp_files_inj (numThreads : Z) (i j : nat) (name : string) :
  numThreads <= UINT_MAX ->
  temp_files numThreads !! i = Some name ->
  temp_files numThreads !! j = Some name -> i = j.
Proof.
  intros Hn Hi Hj.
  apply lookup_temp_files in Hi as [Hi ->].
  apply lookup_temp_files in Hj as [Hj Heq].
  apply temp_name_inj in Heq; lia.
Qed.

(** ** The pipeline *)

Lemma planned_bounds (limit block i : Z) :
  0 <= limit -> 0 <= block -> 0 <= i ->
  1 <= start (planned limit block i) /\
  start (planned limit block i) <= end_ (planned limit block i) + 1 /\
  0 <= end_ (planned limit block i) <= limit.
Proof.
  intros Hl Hb Hi. unfold planned.
  destruct (Z.ltb_spec (Z.min limit ((i + 1) * block)) (i * block + 1));
    simpl; nia.
Qed.

(** What [reserve] is asked for a range of the partition: nothing for an
    empty range, the number of its elements otherwise, which is at most the
    block size. *)
Lemma planned_reserve (limit block i : Z) :
  0 <= limit <= LLONG_MAX -> 0 <= block -> 0 <= i ->
  reserve_request (planned limit block i) =
    (if Z.min limit ((i + 1) * block) <? i * block + 1 then 0
     else Z.min limit ((i + 1) * block) - i * block) /\
  0 <= reserve_request (planned limit block i) <= block.
Proof.
  intros Hl Hb Hi. unfold LLONG_MAX in Hl. unfold planned, reserve_request.
  destruct (Z.ltb_spec (Z.min limit ((i + 1) * block)) (i * block + 1)) as [He|Hne];
    simpl.
  { split; [reflexivity | lia]. }
  destruct (Z.leb_spec (i * block + 1) (Z.min limit ((i + 1) * block))); [|lia].
  assert (Hib : 0 <= i * block) by nia.
  unfold sub, add.
  rewrite (wrap64_id (Z.min limit ((i + 1) * block) - (i * block + 1)))
    by (unfold in_range, LLONG_MIN, LLONG_MAX; lia).
  rewrite wrap64_id by (unfold in_range, LLONG_MIN, LLONG_MAX; lia).
  unfold wrap_size. rewrite Z.mod_small by lia. split; [lia | nia].
Qed.

Lemma reserve_throws_0 (env : Env) : reserve_throws env 0 = false.
Proof. reflexivity. Qed.

(** Where the allocator refuses nothing, no reservation within
    [vector_max_size] throws. *)
Lemma reserve_within (env : Env) (block : Z) :
  (forall n, alloc_fails env n = false) -> block <= vector_max_size ->
  forall n, 1 <= n <= block -> reserve_throws env n = false.
Proof.
  intros Halloc Hb n Hn. unfold reserve_throws. rewrite Halloc.
  destruct (Z.eqb_spec n 0); [reflexivity|].
  replace (vector_max_size <? n) with false; [reflexivity|].
  symmetry. apply Z.ltb_ge. lia.
Qed.

Lemma planned_reserve_ok (env : Env) (limit block i : Z) :
  0 <= limit <= LLONG_MAX -> 0 <= block -> 0 <= i ->
  (forall n, 1 <= n <= block -> reserve_throws env n = false) ->
  reserve_throws env (reserve_request (planned limit block i)) = false.
Proof.
  intros Hl Hb Hi Hmem.
  destruct (planned_reserve limit block i Hl Hb Hi) as [_ Hreq].
  destruct (Z.eq_dec (reserve_request (planned limit block i)) 0) as [->|Hne];
    [reflexivity | apply Hmem; lia].
Qed.

(** Where no intermediate result leaves [long long] and no reservation up to
    the block size throws, the pipeline ends with the primes up to [limit]
    when a file that cannot be written is not read instead of the worker's
    vector. *)
Lemma pipeline_primes (fuel : nat) (env : Env) (limit numThreads : Z)
    (fs : gmap string string) :
  0 <= limit < LLONG_MAX -> 1 <= numThreads <= UINT_MAX ->
  limit + numThreads - 1 <= LLONG_MAX ->
  (forall n, 1 <= n <= block_size limit numThreads ->
     reserve_throws env n = false) ->
  (Z.to_nat limit < fuel)%nat ->
  (forall i : nat, (i < Z.to_nat numThreads)%nat ->
     write_fails env (temp_name (Z.of_nat i)) = true ->
     read_fails env (temp_name (Z.of_nat i)) = true \/
     fs !! temp_name (Z.of_nat i) = None) ->
  exists fs',
    pipeline fuel env limit numThreads fs =
    Returns (primes_between 2 limit, fs',
             warnings env (temp_files numThreads) (Z.to_nat numThreads)).
Proof.
  intros Hl Hn Hmax Hmem Hfuel Hbenign.
  destruct (plan_partition limit numThreads ltac:(lia) Hn Hmax)
    as (HB & Hceil & Hlen & Hlook & Hcover & _).
  assert (HB0 : 0 <= block_size limit numThreads).
  { rewrite HB. apply Z.div_pos; lia. }
  set (out := fun i : nat =>
         primes_between
           (start (planned limit (block_size limit numThreads) (Z.of_nat i)))
           (end_ (planned limit (block_size limit numThreads) (Z.of_nat i)))).
  assert (Hbounds : forall i : nat,
            1 <= start (planned limit (block_size limit numThreads) (Z.of_nat i)) /\
            start (planned limit (block_size limit numThreads) (Z.of_nat i))
              <= end_ (planned limit (block_size limit numThreads) (Z.of_nat i)) + 1 /\
            0 <= end_ (planned limit (block_size limit numThreads) (Z.of_nat i))
              <= limit).
  { intros i. apply planned_bounds; lia. }
  assert (Hout : forall i r, plan limit numThreads !! i = Some r ->
            reserve_throws env (reserve_request r) = false /\
            worker_loop fuel fuel (start r) (end_ r) [] = Some (out i)).
  { intros i r Hr. destruct (lookup_plan_inv _ _ _ _ Hr) as [Hi _].
    rewrite (Hlook i Hi) in Hr. injection Hr as <-. split.
    { apply planned_reserve_ok; try lia. exact Hmem. }
    specialize (Hbounds i). unfold LLONG_MAX in *.
    erewrite worker_loop_run;
      [reflexivity
      | unfold in_range, LLONG_MIN, LLONG_MAX; lia
      | unfold LLONG_MAX; lia
      | reflexivity
      | lia
      | lia]. }
  unfold pipeline.
  rewrite (run_threads_spec fuel env numThreads _ _ out fs
             (length_plan _ _) (length_temp_files _) Hout).
  eexists. f_equal. f_equal. f_equal.
  assert (Hmerge :
    merge env (written env (temp_files numThreads) out fs (Z.to_nat numThreads))
      numThreads (temp_files numThreads) (out <$> indices numThreads)
    = concat (out <$> indices numThreads)).
  { rewrite merge_sources;
      [|apply length_temp_files | rewrite length_fmap; apply length_indices].
    f_equal. apply zip_with_snd.
    { rewrite length_temp_files, length_fmap, length_indices. reflexivity. }
    intros i name loc Hname Hloc.
    destruct (lookup_temp_files _ _ _ Hname) as [Hi Hnm].
    rewrite list_lookup_fmap, lookup_indices in Hloc by assumption.
    injection Hloc as <-.
    unfold source, open_read.
    destruct (read_fails env name) eqn:Hrf; [reflexivity|].
    rewrite (written_lookup env (temp_files numThreads) out fs
               (fun a b c => temp_files_inj numThreads a b c ltac:(lia))
               (Z.to_nat numThreads) i name Hi Hname).
    destruct (write_fails env name) eqn:Hwf.
    - subst name. destruct (Hbenign i Hi Hwf) as [Hr|Hnone]; [congruence|].
      rewrite Hnone. reflexivity.
    - apply read_file_serialize. unfold out.
      specialize (Hbounds i). unfold LLONG_MAX in *.
      apply primes_between_in_range; unfold in_range, LLONG_MIN, LLONG_MAX; lia. }
  rewrite Hmerge.
  apply strictly_sorted_unique.
  - apply finalize_sorted.
  - exact (primes_between_sorted _ 2 limit eq_refl).
  - intros x. rewrite finalize_In, primes_between_In, in_concat. split.
    + intros (l & Hl1 & Hx).
      apply list_elem_of_In, list_elem_of_fmap in Hl1 as (i & -> & Hi).
      apply elem_of_seq in Hi. unfold out in Hx. apply primes_between_In in Hx.
      destruct Hx as [Hx Hp]. split; [|exact Hp].
      assert (1 <= x <= limit).
      { apply Hcover. exists i. eexists. split; [apply Hlook; lia | exact Hx]. }
      destruct Hp as [Hp1 _]. lia.
    + intros [Hx Hp].
      destruct (proj1 (Hcover x) ltac:(lia)) as (i & r & Hr & Hxr).
      destruct (lookup_plan_inv _ _ _ _ Hr) as [Hi _].
      rewrite (Hlook i Hi) in Hr. injection Hr as <-.
      exists (out i). split.
      * apply list_elem_of_In, list_elem_of_fmap. exists i. split; [reflexivity|].
        apply elem_of_seq. lia.
      * unfold out. apply primes_between_In. split; assumption.
Qed.

(** A reservation that throws ends the pipeline: below the overflow, when
    the first range is not empty and its reservation throws, the process is
    aborted whatever the fuel. *)
Lemma pipeline_first_reserve_throws (fuel : nat) (env : Env)
    (limit numThreads : Z) (fs : gmap string string) :
  1 <= limit <= LLONG_MAX -> 1 <= numThreads <= UINT_MAX ->
  limit + numThreads - 1 <= LLONG_MAX ->
  reserve_throws env (Z.min limit (block_size limit numThreads)) = true ->
  pipeline fuel env limit numThreads fs = Aborts.
Proof.
  intros Hl Hn Hmax Hthrow.
  destruct (plan_partition limit numThreads ltac:(lia) Hn Hmax)
    as (HB & Hceil & Hlen & Hlook & _ & _).
  assert (HB0 : 0 <= block_size limit numThreads).
  { rewrite HB. apply Z.div_pos; lia. }
  unfold pipeline.
  rewrite (run_threads_aborts fuel env numThreads _ _ (fun _ => []) fs 0
             (planned limit (block_size limit numThreads) 0)
             (length_plan _ _) (length_temp_files _)); [reflexivity | | | ].
  - apply (Hlook 0%nat). lia.
  - destruct (planned_reserve limit (block_size limit numThreads) 0
                ltac:(lia) HB0 ltac:(lia)) as [-> _].
    destruct (Z.ltb_spec (Z.min limit ((0 + 1) * block_size limit numThreads))
                (0 * block_size limit numThreads + 1)) as [Hlt|Hge].
    + exfalso. nia.
    + replace (Z.min limit ((0 + 1) * block_size limit numThreads)
               - 0 * block_size limit numThreads)
        with (Z.min limit (block_size limit numThreads)) by lia.
      exact Hthrow.
  - intros i r Hi. lia.
Qed.


Lemma parseLimit_bounds (arg : string) (limit : Z) :
  parseLimit arg = Some limit -> 0 <= limit <= LLONG_MAX.
Proof.
  intros Hparse. destruct (parseLimit_Some arg limit Hparse) as [Hne Hs].
  rewrite (parseLimit_digits arg Hne Hs) in Hparse.
  destruct (Z.leb_spec (decimal_value arg) LLONG_MAX); [|discriminate].
  injection Hparse as <-. split; [apply decimal_value_nonneg | assumption].
Qed.

(** [main] on an accepted limit below the overflow, when no reservation up
    to the block size throws. *)
Lemma main_correct (fuel : nat) (env : Env) (prog arg : string) (limit : Z)
    (fs : gmap string string) :
  parseLimit arg = Some limit ->
  0 <= hardware_concurrency env <= UINT_MAX ->
  limit + choose_numThreads (hardware_concurrency env) limit - 1 <= LLONG_MAX ->
  limit < LLONG_MAX ->
  (forall n,
     1 <= n <= block_size limit
                 (choose_numThreads (hardware_concurrency env) limit) ->
     reserve_throws env n = false) ->
  (Z.to_nat limit < fuel)%nat ->
  (forall name, write_fails env name = true ->
     read_fails env name = true \/ fs !! name = None) ->
  exists fs',
    main fuel env [prog; arg] fs = Returns (Completed (primes_between 2 limit) fs').
Proof.
  intros Hparse Hhw Hmax Hlt Hmem Hfuel Hbenign.
  pose proof (parseLimit_bounds arg limit Hparse) as H0.
  destruct (choose_numThreads_bounds _ limit Hhw) as [Hn _].
  destruct (pipeline_primes fuel env limit
              (choose_numThreads (hardware_concurrency env) limit) fs
              ltac:(lia) Hn Hmax Hmem Hfuel) as [fs' E].
  { intros i _. apply Hbenign. }
  exists fs'. simpl. rewrite Hparse, E. reflexivity.
Qed.

(** The limit [LLONG_MAX] with two hardware threads: the limit is accepted,
    two threads are used, the block size overflows, both workers get the
    empty range and [main] ends with an empty final vector although 2 is a
    prime below the limit. *)
Lemma main_limit_overflow (fuel : nat) :
  parseLimit "9223372036854775807" = Some LLONG_MAX /\
  choose_numThreads 2 LLONG_MAX = 2 /\
  (exists fs',
     main (S fuel) env2 ["prime_numbers"; "9223372036854775807"] ∅
     = Returns (Completed [] fs')) /\
  In 2 (primes_between 2 LLONG_MAX).
Proof.
  split; [vm_compute; reflexivity|]. split; [vm_compute; reflexivity|]. split.
  - eexists. vm_compute. reflexivity.
  - apply primes_between_In. split; [unfold LLONG_MAX; lia | exact Z.prime_2].
Qed.

(** A file that cannot be rewritten and can be read takes the place of the
    worker's vector: with [primes_thread_1.txt] holding 4 and 6 and every
    output stream failing, [main] on the limit 3 ends with the final vector
    [4; 6], which is not the list of the primes up to 3. *)
Lemma stale_artifact_wins :
  (exists fs',
     main 10 {| hardware_concurrency := 1;
                write_fails := fun _ => true;
                read_fails := fun _ => false;
                alloc_fails := fun _ => false |}
       ["prime_numbers"; "3"] {[ "primes_thread_1.txt" := "4 6" ]}
     = Returns (Completed [4; 6] fs')) /\
  [4; 6] <> primes_between 2 3.
Proof.
  split.
  - eexists. vm_compute. reflexivity.
  - intros H. assert (Hin : In 4 (primes_between 2 3))
      by (rewrite <- H; left; reflexivity).
    apply primes_between_In in Hin. lia.
Qed.

(** The limit [2^63 - 2] with two hardware threads: no intermediate result
    leaves [long long], the first worker is given the [2^62 - 1] numbers from
    1 on, the reservation for them throws [std::length_error] whatever
    memory there is, and the process is aborted. *)
Lemma main_reserve_aborts (fuel : nat) (env : Env) (prog : string)
    (fs : gmap string string) :
  hardware_concurrency env = 2 ->
  plan 9223372036854775806 2 !! 0%nat
    = Some {| start := 1; end_ := 4611686018427387903 |} /\
  reserve_request {| start := 1; end_ := 4611686018427387903 |}
    = 4611686018427387903 /\
  vector_max_size < 4611686018427387903 /\
  main fuel env [prog; "9223372036854775806"] fs = Aborts.
Proof.
  intros Hhw. split; [vm_compute; reflexivity|]. split; [vm_compute; reflexivity|].
  split; [vm_compute; reflexivity|].
  unfold main.
  change (parseLimit "9223372036854775806") with (Some 9223372036854775806).
  cbv iota beta zeta. rewrite Hhw.
  change (choose_numThreads 2 9223372036854775806) with 2.
  rewrite pipeline_first_reserve_throws; [reflexivity | | | |].
  - unfold LLONG_MAX. lia.
  - unfold UINT_MAX. lia.
  - unfold LLONG_MAX. lia.
  - change (block_size 9223372036854775806 2) with 4611686018427387903.
    reflexivity.
Qed.

(** C1 fails on the code at three kinds of input.  At the limit [LLONG_MAX]
    with two hardware threads the block size overflows and the final vector
    is empty.  At the limit 3 with [primes_thread_1.txt] holding 4 and 6,
    unwritable and readable, the final vector is [4; 6].  At the limit
    [2^63 - 2] with two hardware threads the reservation of the first worker
    throws and the process is aborted without a final vector. *)
Theorem final_sequence_fails :
  ((exists fs',
      main 1 env2 ["prime_numbers"; "9223372036854775807"] ∅
      = Returns (Completed [] fs')) /\
   In 2 (primes_between 2 LLONG_MAX)) /\
  ((exists fs',
      main 10 {| hardware_concurrency := 1;
                 write_fails := fun _ => true;
                 read_fails := fun _ => false;
                 alloc_fails := fun _ => false |}
        ["prime_numbers"; "3"] {[ "primes_thread_1.txt" := "4 6" ]}
      = Returns (Completed [4; 6] fs')) /\
   [4; 6] <> primes_between 2 3) /\
  (forall fuel, main fuel env2 ["prime_numbers"; "9223372036854775806"] ∅ = Aborts).
Proof.
  split; [|split].
  - destruct (main_limit_overflow 0) as (_ & _ & Hrun & Hin). split; assumption.
  - exact stale_artifact_wins.
  - intros fuel. apply (main_reserve_aborts fuel env2 "prime_numbers" ∅ eq_refl).
Qed.

(** Where the final vector is right. For every limit below [LLONG_MAX] and
    every thread count with [limit + numThreads - 1] representable, when no
    reservation up to the block size throws and no file that cannot be
    written is there to be read, the pipeline ends and its final vector is
    the ascending list of all primes in [2, limit]: strictly ascending,
    holding exactly the primes of that interval, and the same list for every
    thread count. *)
Theorem final_sequence_correct (fuel : nat) (env : Env) (limit numThreads : Z)
    (fs : gmap string string) :
  0 <= limit < LLONG_MAX -> 1 <= numThreads <= UINT_MAX ->
  limit + numThreads - 1 <= LLONG_MAX ->
  (forall n, 1 <= n <= block_size limit numThreads ->
     reserve_throws env n = false) ->
  (Z.to_nat limit < fuel)%nat ->
  (forall i : nat, (i < Z.to_nat numThreads)%nat ->
     write_fails env (temp_name (Z.of_nat i)) = true ->
     read_fails env (temp_name (Z.of_nat i)) = true \/
     fs !! temp_name (Z.of_nat i) = None) ->
  exists all fs' err,
    pipeline fuel env limit numThreads fs = Returns (all, fs', err) /\
    all = primes_between 2 limit /\
    StronglySorted Z.lt all /\
    (forall x, In x all <-> 2 <= x <= limit /\ Z.prime x).
Proof.
  intros Hl Hn Hmax Hmem Hfuel Hbenign.
  destruct (pipeline_primes fuel env limit numThreads fs Hl Hn Hmax Hmem Hfuel
              Hbenign) as [fs' Hrun].
  eexists (primes_between 2 limit), fs', _. split; [exact Hrun|].
  split; [reflexivity|]. split.
  - exact (primes_between_sorted _ 2 limit eq_refl).
  - intros x. apply primes_between_In.
Qed.

Lemma final_sequence_correct_witness :
  exists all fs' err,
    pipeline 20 env0 10 3 ∅ = Returns (all, fs', err) /\
    all = primes_between 2 10 /\
    StronglySorted Z.lt all /\
    (forall x, In x all <-> 2 <= x <= 10 /\ Z.prime x).
Proof.
  apply (final_sequence_correct 20 env0 10 3 ∅);
    try (unfold UINT_MAX, LLONG_MAX; lia).
  - apply reserve_within; [reflexivity | vm_compute; discriminate].
  - intros i _ Hw. discriminate.
Defined.

(** ** Where the primality test leaves [long long] *)

Lemma in_rangeb_true (z : Z) : in_range z -> in_rangeb z = true.
Proof. apply in_rangeb_spec. Qed.

Lemma isPrime_loop_strict_agrees (k : nat) : forall (fuel : nat) (n d : Z),
  3 <= d -> d + 2 * Z.of_nat k <= 3037000499 ->
  n < (d + 2 * Z.of_nat k) * (d + 2 * Z.of_nat k) \/
    rem n (d + 2 * Z.of_nat k) = 0 ->
  isPrime_loop_strict fuel n d = isPrime_loop fuel n d.
Proof.
  induction k as [|k IH]; intros fuel n d Hd Hmax Hstop;
    (destruct fuel as [|fuel]; [reflexivity|]); simpl;
    assert (Hdd : in_range (d * d))
      by (unfold in_range, LLONG_MIN, LLONG_MAX; nia);
    assert (Hd2 : in_range (d + 2))
      by (unfold in_range, LLONG_MIN, LLONG_MAX; lia);
    unfold mul, add;
    rewrite (wrap64_id _ Hdd), (wrap64_id _ Hd2),
      (in_rangeb_true _ Hdd), (in_rangeb_true _ Hd2);
    destruct (Z.leb_spec (d * d) n) as [Hle|Hgt]; try reflexivity;
    destruct (Z.eqb_spec (rem n d) 0) as [Hr|Hr]; try reflexivity.
  - exfalso. rewrite Z.mul_0_r, Z.add_0_r in Hstop. lia.
  - apply IH; [lia | lia |].
    replace (d + 2 + 2 * Z.of_nat k) with (d + 2 * Z.of_nat (S k)) by lia.
    exact Hstop.
Qed.

Lemma isPrime_loop_strict_overflows (n : Z) (fuel : nat) : forall d : Z,
  Z.prime n -> 9223372030926249001 <= n ->
  Z.odd d = true -> 3 <= d <= 3037000501 ->
  isPrime_loop_strict fuel n d = None.
Proof.
  induction fuel as [|fuel IH]; intros d Hp Hn Ho Hd; [reflexivity|]. simpl.
  destruct (Z.eq_dec d 3037000501) as [->|Hne]; [reflexivity|].
  assert (d <= 3037000499).
  { apply Z.odd_spec in Ho. destruct Ho as [u Hu]. lia. }
  rewrite in_rangeb_true by (unfold in_range, LLONG_MIN, LLONG_MAX; nia).
  destruct (Z.leb_spec (d * d) n); [|nia].
  destruct (Z.eqb_spec (rem n d) 0) as [Hr|Hr].
  - exfalso. apply Z.rem_divide in Hr; [|lia].
    apply (not_prime_of_divisor n d); [lia | assumption | assumption].
  - rewrite in_rangeb_true by (unfold in_range, LLONG_MIN, LLONG_MAX; lia).
    apply IH; try assumption; [|lia].
    rewrite Z.odd_add, Ho. reflexivity.
Qed.

(** For an odd [n >= 3], no product or sum of the loop leaves [long long]
    when [n] is below [3037000499^2] or composite: the checked loop answers
    what the wrapping loop answers.  For a prime from [3037000499^2] on the
    loop reaches [d = 3037000501], whose square is not representable. *)
Theorem isPrime_overflow_region (n : Z) (fuel : nat) :
  in_range n -> 3 <= n -> Z.odd n = true ->
  (n < 9223372030926249001 \/ ~ Z.prime n ->
   isPrime_loop_strict fuel n 3 = isPrime_loop fuel n 3) /\
  (9223372030926249001 <= n -> Z.prime n ->
   isPrime_loop_strict fuel n 3 = None).
Proof.
  intros Hr H3 Ho. split.
  - intros [Hsmall|Hnp].
    + apply (isPrime_loop_strict_agrees (Z.to_nat 1518500248)); [lia | lia |].
      left.
      replace (3 + 2 * Z.of_nat (Z.to_nat 1518500248)) with 3037000499 by lia.
      lia.
    + rewrite prime_alt in Hnp.
      destruct (composite_small_divisor n ltac:(lia) Hnp) as (q & Hq1 & Hqq & Hqn).
      pose proof (odd_divisor n q Ho Hqn) as Hoq.
      destruct (odd_from_3 q Hoq Hq1) as [t Ht].
      unfold in_range, LLONG_MAX in Hr.
      apply (isPrime_loop_strict_agrees t); [lia | nia |].
      right. rewrite <- Ht. apply Z.rem_divide; [lia | assumption].
  - intros Hbig Hp. apply isPrime_loop_strict_overflows; try assumption; [reflexivity | lia].
Qed.

Lemma isPrime_overflow_region_witness :
  isPrime_loop_strict 50 97 3 = isPrime_loop 50 97 3.
Proof.
  apply (isPrime_overflow_region 97 50);
    [unfold in_range, LLONG_MIN, LLONG_MAX; lia | lia | reflexivity | left; lia].
Defined.

(** ** A prime beyond the representable squares *)

Lemma powmod_pos_correct (a m : Z) (e : positive) :
  0 < m -> powmod_pos a e m = a ^ Zpos e mod m.
Proof.
  intros Hm. induction e as [e IH|e IH|]; simpl powmod_pos.
  - rewrite IH, Pos2Z.inj_xI.
    replace (2 * Z.pos e + 1) with (Z.succ (2 * Z.pos e)) by lia.
    rewrite Z.pow_succ_r, Z.pow_twice_r by lia.
    rewrite <- Z.mul_mod, Z.mul_mod_idemp_l by lia. f_equal. ring.
  - rewrite IH, Pos2Z.inj_xO, Z.pow_twice_r.
    rewrite <- Z.mul_mod by lia. reflexivity.
  - rewrite Z.pow_1_r. reflexivity.
Qed.

Lemma pow_one_gcd (p a : Z) :
  1 < p -> forall k, 0 <= k -> forall m, 0 <= m ->
  a ^ m mod p = 1 -> a ^ k mod p = 1 -> a ^ Z.gcd m k mod p = 1.
Proof.
  intros Hp k Hk. pattern k. apply Zlt_0_ind; [|exact Hk]. clear k Hk.
  intros k IH Hk m Hm Ham Hak.
  destruct (Z.eq_dec k 0) as [->|Hk0].
  - rewrite Z.gcd_0_r, Z.abs_eq by lia. exact Ham.
  - pose proof (Z.mod_pos_bound m k ltac:(lia)) as Hr.
    assert (Har : a ^ (m mod k) mod p = 1).
    { rewrite (Z.div_mod m k Hk0) in Ham at 1.
      rewrite Z.pow_add_r, Z.pow_mul_r in Ham
        by (try apply Z.mul_nonneg_nonneg; try apply Z.div_pos; lia).
      rewrite Z.mul_mod, <- Z.mod_pow_l, Hak in Ham by lia.
      rewrite Z.pow_1_l, Z.mod_1_l, Z.mul_1_l, Z.mod_mod in Ham
        by (try apply Z.div_pos; lia).
      exact Ham. }
    rewrite Z.gcd_comm, <- Z.gcd_mod, Z.gcd_comm by lia.
    apply IH; [lia | lia | exact Hak | exact Har].
Qed.

Lemma prime_divisor_exists (n : Z) : 1 < n -> exists p, Z.prime p /\ (p | n).
Proof.
  intros Hn. assert (H0 : 0 <= n) by lia. revert Hn. pattern n.
  apply Zlt_0_ind; [|exact H0]. clear n H0. intros n IH _ Hn.
  destruct (prime_dec n) as [Hp|Hnp].
  - exists n. split; [apply prime_alt, Hp | apply Z.divide_refl].
  - destruct (not_prime_divide n Hn Hnp) as (d & Hd & Hdn).
    destruct (IH d ltac:(lia) ltac:(lia)) as (p & Hp & Hpd).
    exists p. split; [exact Hp | exact (Z.divide_trans _ _ _ Hpd Hdn)].
Qed.

(** Pocklington's criterion for one prime power [q ^ e] dividing [N - 1]
    and exceeding the square root of [N]. *)
Lemma pocklington (N q e a : Z) :
  1 < N -> Z.prime q -> 0 <= e -> (q ^ e | N - 1) ->
  N < (q ^ e + 1) * (q ^ e + 1) ->
  a ^ (N - 1) mod N = 1 ->
  Z.gcd (a ^ ((N - 1) / q) mod N - 1) N = 1 ->
  Z.prime N.
Proof.
  intros HN Hq He HF Hbig Hfermat Hgcd.
  destruct (prime_dec N) as [Hp|Hnp]; [apply prime_alt, Hp|]. exfalso.
  destruct (composite_small_divisor N HN Hnp) as (f & Hf1 & Hff & HfN).
  destruct (prime_divisor_exists f Hf1) as (p & Hp & Hpf).
  pose proof (Z.prime_ge_2 p Hp) as Hp2.
  assert (HpN : (p | N)) by exact (Z.divide_trans _ _ _ Hpf HfN).
  assert (Hpf' : p <= f) by (apply Z.divide_pos_le; [lia | exact Hpf]).
  pose proof (Z.prime_ge_2 q Hq) as Hq2.
  assert (HFpos : 0 < q ^ e) by (apply Z.pow_pos_nonneg; lia).
  (* modulo p *)
  assert (Hap : a ^ (N - 1) mod p = 1).
  { rewrite <- (Z.mod_mod_divide _ N p HpN), Hfermat. apply Z.mod_1_l. lia. }
  assert (Hanz : a mod p <> 0).
  { intros H0. apply Z.mod_divide in H0; [|lia].
    assert (Hdiv : (p | a ^ (N - 1))).
    { replace (N - 1) with (Z.succ (N - 2)) by lia.
      rewrite Z.pow_succ_r by lia. apply Z.divide_mul_l, H0. }
    apply Z.mod_divide in Hdiv; [|lia]. lia. }
  pose proof (Z.fermat_nz p a Hp Hanz) as Hfp.
  pose proof (pow_one_gcd p a ltac:(lia) (p - 1) ltac:(lia) (N - 1) ltac:(lia) Hap Hfp)
    as Hg.
  set (g := Z.gcd (N - 1) (p - 1)) in *.
  assert (Hg0 : 0 < g).
  { pose proof (Z.gcd_nonneg (N - 1) (p - 1)). fold g in H.
    destruct (Z.eq_dec g 0) as [E|E]; [|lia].
    unfold g in E. apply Z.gcd_eq_0_l in E. lia. }
  destruct (Z.gcd_divide_l (N - 1) (p - 1)) as [c' Hc']. fold g in Hc'.
  assert (HFp : (q ^ e | p - 1)).
  { destruct (Z.BoolSpec_divide q c') as [[t Ht]|Hnq].
    - (* q divides the cofactor: a ^ ((N - 1) / q) is 1 modulo p *)
      exfalso.
      assert (Hquot : (N - 1) / q = t * g).
      { rewrite Hc', Ht. replace (t * q * g) with (t * g * q) by ring.
        apply Z.div_mul. lia. }
      assert (Ht0 : 0 <= t).
      { assert (Hq0 : 0 <= (N - 1) / q) by (apply Z.div_pos; lia).
        clear - Hquot Hq0 Hg0. nia. }
      assert (Hone : a ^ ((N - 1) / q) mod p = 1).
      { rewrite Hquot, Z.mul_comm, Z.pow_mul_r by lia.
        rewrite <- Z.mod_pow_l, Hg, Z.pow_1_l by lia. apply Z.mod_1_l. lia. }
      assert (Hdiv : (p | a ^ ((N - 1) / q) mod N - 1)).
      { apply Z.mod_divide; [lia|].
        rewrite Zminus_mod, (Z.mod_mod_divide _ N p HpN), Hone.
        rewrite Z.mod_1_l by lia. reflexivity. }
      pose proof (Z.gcd_greatest _ _ _ Hdiv HpN) as H1. rewrite Hgcd in H1.
      apply Z.divide_1_r_nonneg in H1; lia.
    - (* q is coprime to the cofactor: q ^ e divides the gcd *)
      assert (Hcop : Z.coprime (q ^ e) c').
      { apply Z.coprime_pow_l; [exact He|]. apply Z.coprime_prime_l; assumption. }
      assert (Hdg : (q ^ e | g)).
      { apply (Z.gauss _ c'); [|exact Hcop]. rewrite <- Hc'. exact HF. }
      exact (Z.divide_trans _ _ _ Hdg (Z.gcd_divide_r _ _)). }
  assert (Hle : q ^ e + 1 <= p).
  { apply Z.divide_pos_le in HFp; lia. }
  assert (Hsq : (q ^ e + 1) * (q ^ e + 1) <= f * f)
    by (apply Z.mul_le_mono_nonneg; lia).
  lia.
Qed.

(** A prime whose square root lies beyond the largest [d] with [d * d]
    representable in 64 bits: [2 * 3^20 * 1322618633 + 1]. *)
Lemma prime_9223372036032687667 : Z.prime 9223372036032687667.
Proof.
  apply (pocklington 9223372036032687667 3 20 2).
  - lia.
  - exact Z.prime_3.
  - lia.
  - exists 2645237266. vm_compute. reflexivity.
  - vm_compute. reflexivity.
  - change (9223372036032687667 - 1) with (Zpos 9223372036032687666).
    rewrite <- powmod_pos_correct by lia. vm_compute. reflexivity.
  - replace ((9223372036032687667 - 1) / 3) with (Zpos 3074457345344229222)
      by (vm_compute; reflexivity).
    rewrite <- powmod_pos_correct by lia. vm_compute. reflexivity.
Qed.

(** At the prime [9223372036032687667] the loop of [isPrime] reaches
    [d = 3037000501] and a square that [long long] cannot hold; with the
    wrap-around of the model it goes on and answers true. *)
Theorem isPrime_overflows_at_prime (fuel : nat) :
  Z.prime 9223372036032687667 /\
  in_range 9223372036032687667 /\
  isPrime_loop_strict fuel 9223372036032687667 3 = None /\
  ((Z.to_nat 9223372036032687667 <= fuel)%nat ->
   isPrime fuel 9223372036032687667 = Some true).
Proof.
  pose proof prime_9223372036032687667 as Hp.
  assert (Hr : in_range 9223372036032687667)
    by (unfold in_range, LLONG_MIN, LLONG_MAX; lia).
  split; [exact Hp|]. split; [exact Hr|]. split.
  - apply isPrime_loop_strict_overflows; [exact Hp | lia | reflexivity | lia].
  - intros Hfuel. rewrite isPrime_decides by assumption.
    f_equal. apply bool_decide_eq_true. exact Hp.
Qed.

(** ** The properties at concrete inputs *)

(** The planner below the overflow: one range per worker as the formula with
    the ceiling block size gives it, covering [1, limit] without overlap. *)
Theorem plan_without_overflow (limit numThreads : Z) :
  0 <= limit -> 1 <= numThreads <= UINT_MAX ->
  limit + numThreads - 1 <= LLONG_MAX ->
  block_size limit numThreads = (limit + numThreads - 1) / numThreads /\
  numThreads * (block_size limit numThreads - 1) < limit
    <= numThreads * block_size limit numThreads /\
  length (plan limit numThreads) = Z.to_nat numThreads /\
  (forall i : nat, (i < Z.to_nat numThreads)%nat ->
     plan limit numThreads !! i =
     Some (planned limit (block_size limit numThreads) (Z.of_nat i))) /\
  (forall x, 1 <= x <= limit <->
     exists (i : nat) (r : Range),
       plan limit numThreads !! i = Some r /\ start r <= x <= end_ r) /\
  (forall (i j : nat) (r r' : Range) (x : Z),
     plan limit numThreads !! i = Some r ->
     plan limit numThreads !! j = Some r' ->
     start r <= x <= end_ r -> start r' <= x <= end_ r' -> i = j).
Proof. exact (plan_partition limit numThreads). Qed.

Lemma plan_without_overflow_witness : block_size 50 4 = (50 + 4 - 1) / 4.
Proof.
  apply (plan_without_overflow 50 4); unfold UINT_MAX, LLONG_MAX; lia.
Defined.

Lemma workerTask_correct_witness :
  workerTask 20 env0 0 {| start := 1; end_ := 10 |} "primes_thread_1.txt" ∅
  = Returns (primes_between 1 10,
             {[ "primes_thread_1.txt" := serialize (primes_between 1 10) ]}, []).
Proof.
  destruct (workerTask_correct 20 env0 0 {| start := 1; end_ := 10 |}
              "primes_thread_1.txt" ∅) as (Hrun & _);
    try (unfold in_range, LLONG_MIN, LLONG_MAX; simpl; lia).
  exact Hrun.
Defined.

Lemma main_correct_witness :
  exists fs',
    main 60 env0 ["prime_numbers"; "50"] ∅
    = Returns (Completed (primes_between 2 50) fs').
Proof.
  apply (main_correct 60 env0 "prime_numbers" "50" 50 ∅).
  - vm_compute. reflexivity.
  - simpl. unfold UINT_MAX. lia.
  - vm_compute. discriminate.
  - unfold LLONG_MAX. lia.
  - apply reserve_within; [reflexivity | vm_compute; discriminate].
  - lia.
  - intros name Hw. discriminate.
Defined.


Lemma read_ints_fuel_witness : read_ints 10 "2 3" = read_file "2 3".
Proof. apply (read_ints_fuel 10 "2 3"). simpl. lia. Defined.

(** * Further properties of the program *)

(** ** Writing a limit and parsing it *)

Lemma append_empty_r (s : string) : s +:+ "" = s.
Proof. induction s as [|c s IH]; [reflexivity|]. rewrite append_cons, IH. reflexivity. Qed.

Lemma show_unsigned_digits (n : Z) :
  0 <= n < 2 ^ 64 ->
  show_unsigned n <> "" /\ all_digits (show_unsigned n) = true /\
  decimal_value (show_unsigned n) = n.
Proof.
  intros Hn.
  assert (Hd : all_digits (show_unsigned n) = true)
    by (apply digits_fuel_all_digits; [lia | reflexivity]).
  split; [|split; [exact Hd|]].
  - pose proof (show_unsigned_head n "" (proj1 Hn)) as Hh.
    rewrite append_empty_r in Hh. intros E. rewrite E in Hh. discriminate.
  - pose proof (scan_show_unsigned n "" Hn eq_refl) as Hscan.
    rewrite append_empty_r, (scan_digits_all _ 0 Hd) in Hscan.
    injection Hscan as Hscan. exact Hscan.
Qed.

(** The parser reads back what [os << n] writes for every [n] from 0 to
    [LLONG_MAX], and rejects what it writes for a negative number. *)
Theorem parseLimit_show (n : Z) :
  0 <= n <= LLONG_MAX ->
  parseLimit (show_ll n) = Some n /\ parseLimit (show_ll (- n - 1)) = None.
Proof.
  intros Hn. unfold LLONG_MAX in Hn. split.
  - unfold show_ll. destruct (Z.ltb_spec n 0); [lia|].
    destruct (show_unsigned_digits n ltac:(lia)) as (Hne & Hd & Hv).
    rewrite (parseLimit_digits _ Hne Hd), Hv.
    destruct (Z.leb_spec n LLONG_MAX); [reflexivity | unfold LLONG_MAX in *; lia].
  - unfold show_ll. destruct (Z.ltb_spec (- n - 1) 0); [|lia].
    reflexivity.
Qed.

Lemma decimal_value_zero (s : string) :
  decimal_value (String "0"%char s) = decimal_value s.
Proof. reflexivity. Qed.

(** A zero in front of a non-empty argument changes nothing: the argument is
    rejected as before or stands for the same limit. *)
Theorem parseLimit_leading_zero (s : string) :
  s <> "" -> parseLimit (String "0"%char s) = parseLimit s.
Proof.
  intros Hne. destruct (all_digits s) eqn:Hs.
  - rewrite (parseLimit_digits (String "0"%char s)), (parseLimit_digits s);
      [reflexivity | assumption | assumption | discriminate |].
    rewrite all_digits_cons, Hs. reflexivity.
  - destruct s as [|c s]; [congruence|].
    unfold parseLimit. rewrite all_digits_cons, Hs. reflexivity.
Qed.

(** ** Files read one after the other, and the printed list *)

Lemma read_ints_newline_append (fuel : nat) (rest : string) :
  read_ints fuel (newline +:+ rest) = read_ints fuel rest.
Proof. destruct fuel; reflexivity. Qed.

Lemma read_ints_serialize_append (l : list Z) : forall (fuel : nat) (rest : string),
  Forall in_range l ->
  read_ints (length l + fuel) (serialize l +:+ rest) = l ++ read_ints fuel rest.
Proof.
  induction l as [|x l IH]; intros fuel rest Hl.
  - apply read_ints_newline_append.
  - inversion Hl as [|? ? Hx Hl']; subst.
    destruct l as [|y l].
    + change (serialize [x]) with (show_ll x +:+ newline).
      rewrite append_assoc. simpl read_ints.
      rewrite extract_show_ll by (assumption || reflexivity).
      rewrite read_ints_newline_append. reflexivity.
    + rewrite serialize_cons2, append_assoc, append_cons.
      change (length (x :: y :: l) + fuel)%nat with (S (length (y :: l) + fuel)).
      specialize (IH fuel rest Hl').
      remember (length (y :: l) + fuel)%nat as f eqn:Hf. simpl read_ints.
      rewrite extract_show_ll by (assumption || reflexivity).
      rewrite read_ints_space, IH. reflexivity.
Qed.

(** What a worker wrote is read back in full whatever follows it in the
    stream: the newline that ends it separates it from the rest. *)
Theorem read_file_serialize_append (l : list Z) (rest : string) :
  Forall in_range l ->
  read_file (serialize l +:+ rest) = l ++ read_file rest.
Proof.
  intros Hl. unfold read_file at 1.
  rewrite (read_ints_enough _
             (length l + String.length (serialize l +:+ rest))) by lia.
  rewrite read_ints_serialize_append by assumption.
  f_equal. apply read_ints_enough; [rewrite length_append|]; lia.
Qed.

Lemma print_all_serialize (l : list Z) : l <> [] -> print_all l = serialize l.
Proof.
  induction l as [|x l IH]; [congruence|]. intros _.
  destruct l as [|y l]; [reflexivity|].
  rewrite serialize_cons2, <- IH by discriminate. reflexivity.
Qed.

(** The list [main] prints has the format of a worker's file when it is not
    empty, and the read loop of the merge returns the vector printed. *)
Theorem print_all_roundtrip (all : list Z) :
  Forall in_range all ->
  (all <> [] -> print_all all = serialize all) /\
  read_file (print_all all) = all.
Proof.
  intros Hall. split; [apply print_all_serialize|].
  destruct all as [|x l]; [reflexivity|].
  rewrite print_all_serialize by discriminate.
  apply read_file_serialize, Hall.
Qed.

(** ** The final vector as a function of the values merged *)

Lemma finalize_same_members (l1 l2 : list Z) :
  (forall x, In x l1 <-> In x l2) -> finalize l1 = finalize l2.
Proof.
  intros H. apply strictly_sorted_unique; try apply finalize_sorted.
  intros x. rewrite !finalize_In. apply H.
Qed.

Lemma finalize_sorted_id (l : list Z) : StronglySorted Z.lt l -> finalize l = l.
Proof.
  intros H. apply strictly_sorted_unique; [apply finalize_sorted | exact H|].
  intros x. apply finalize_In.
Qed.

(** [std::sort] followed by [std::unique] gives the same vector for two
    accumulators with the same values: it changes nothing on a strictly
    ascending vector, applying it twice is applying it once, and neither the
    order in which the workers are merged nor merging one of them twice
    shows in the result. *)
Theorem finalize_members_only :
  (forall l1 l2 : list Z, (forall x, In x l1 <-> In x l2) -> finalize l1 = finalize l2) /\
  (forall l : list Z, StronglySorted Z.lt l -> finalize l = l) /\
  (forall l : list Z, finalize (finalize l) = finalize l) /\
  (forall a b : list Z, finalize (a ++ b) = finalize (b ++ a)) /\
  (forall a b : list Z, finalize (a ++ b ++ b) = finalize (a ++ b)).
Proof.
  split; [exact finalize_same_members|]. split; [exact finalize_sorted_id|].
  split; [|split].
  - intros l. apply finalize_sorted_id, finalize_sorted.
  - intros a b. apply finalize_same_members. intros x.
    rewrite !in_app_iff. tauto.
  - intros a b. apply finalize_same_members. intros x.
    rewrite !in_app_iff. tauto.
Qed.

(** ** The thread count as a formula *)

Lemma choose_numThreads_formula (hc limit : Z) :
  0 <= hc <= UINT_MAX ->
  choose_numThreads hc limit = Z.min (detected_hw hc) (Z.max 1 limit) /\
  choose_numThreads hc limit <= detected_hw hc /\
  (1 <= limit -> choose_numThreads hc limit <= limit) /\
  (choose_numThreads hc limit = 1 <-> limit < 2 \/ hc = 1).
Proof.
  intros Hhc. unfold choose_numThreads, detected_hw.
  destruct (Z.ltb_spec limit 2);
    [|rewrite wrap32_id by (destruct (Z.eqb_spec hc 0); unfold UINT_MAX in *; lia)];
    destruct (Z.eqb_spec hc 0); unfold UINT_MAX in *; lia.
Qed.

(** [numThreads] is the smaller of the detected hardware threads and
    [max(1, limit)]: the conversion to [unsigned int] loses nothing and the
    special case for [limit < 2] gives what the formula gives.  It is never
    above the hardware threads nor above a positive limit, and it is 1
    exactly when the limit is below 2 or one hardware thread is reported. *)
Theorem choose_numThreads_policy (hc limit : Z) :
  0 <= hc <= UINT_MAX ->
  choose_numThreads hc limit = Z.min (detected_hw hc) (Z.max 1 limit) /\
  choose_numThreads hc limit <= detected_hw hc /\
  (1 <= limit -> choose_numThreads hc limit <= limit) /\
  (choose_numThreads hc limit = 1 <-> limit < 2 \/ hc = 1).
Proof. exact (choose_numThreads_formula hc limit). Qed.

(** ** The order and the size of the ranges *)

(** Below the overflow no range holds more numbers than the block size, the
    ranges that are not empty come first and in ascending order, each
    starting right after the end of the one before, and the first starts
    at 1. *)
Theorem plan_ranges_ordered (limit numThreads : Z) :
  0 <= limit -> 1 <= numThreads <= UINT_MAX ->
  limit + numThreads - 1 <= LLONG_MAX ->
  (forall (i : nat) (r : Range), plan limit numThreads !! i = Some r ->
     end_ r - start r + 1 <= block_size limit numThreads) /\
  (forall (i j : nat) (r r' : Range), (i < j)%nat ->
     plan limit numThreads !! i = Some r -> plan limit numThreads !! j = Some r' ->
     start r' <= end_ r' -> start r <= end_ r /\ end_ r < start r') /\
  (forall (i : nat) (r r' : Range),
     plan limit numThreads !! i = Some r -> plan limit numThreads !! S i = Some r' ->
     start r' <= end_ r' -> start r' = end_ r + 1) /\
  (forall r : Range, 1 <= limit -> plan limit numThreads !! 0%nat = Some r ->
     start r = 1).
Proof.
  intros Hl Hn Hmax.
  destruct (plan_partition limit numThreads Hl Hn Hmax)
    as (HB & Hceil & _ & Hlook & _ & _).
  assert (HB0 : 0 <= block_size limit numThreads).
  { rewrite HB. apply Z.div_pos; lia. }
  set (B := block_size limit numThreads) in *.
  assert (Hget : forall (i : nat) (r : Range), plan limit numThreads !! i = Some r ->
            r = planned limit B (Z.of_nat i)).
  { intros i r Hr. destruct (lookup_plan_inv _ _ _ _ Hr) as [Hi _].
    rewrite (Hlook i Hi) in Hr. congruence. }
  refine (conj _ (conj _ (conj _ _))).
  - intros i r Hr. rewrite (Hget i r Hr). unfold planned.
    destruct (Z.ltb_spec (Z.min limit ((Z.of_nat i + 1) * B)) (Z.of_nat i * B + 1));
      simpl; lia.
  - intros i j r r' Hij Hr Hr'. rewrite (Hget i r Hr), (Hget j r' Hr').
    unfold planned.
    destruct (Z.ltb_spec (Z.min limit ((Z.of_nat j + 1) * B)) (Z.of_nat j * B + 1));
      simpl; [lia|]. intros _.
    assert ((Z.of_nat i + 1) * B <= Z.of_nat j * B) by nia.
    destruct (Z.ltb_spec (Z.min limit ((Z.of_nat i + 1) * B)) (Z.of_nat i * B + 1));
      simpl; nia.
  - intros i r r' Hr Hr'. rewrite (Hget i r Hr), (Hget (S i) r' Hr').
    unfold planned. rewrite Nat2Z.inj_succ.
    destruct (Z.ltb_spec (Z.min limit ((Z.succ (Z.of_nat i) + 1) * B))
                (Z.succ (Z.of_nat i) * B + 1)); simpl; [lia|]. intros _.
    destruct (Z.ltb_spec (Z.min limit ((Z.of_nat i + 1) * B)) (Z.of_nat i * B + 1));
      simpl; nia.
  - intros r H1 Hr. rewrite (Hget 0%nat r Hr). unfold planned.
    destruct (Z.ltb_spec (Z.min limit ((Z.of_nat 0 + 1) * B)) (Z.of_nat 0 * B + 1));
      simpl; lia.
Qed.

(** ** The names of the files *)

Lemma temp_name_text (i : Z) :
  0 <= i < UINT_MAX ->
  temp_name i = "primes_thread_" +:+ show_unsigned (i + 1) +:+ ".txt".
Proof. intros Hi. unfold temp_name. rewrite wrap32_id by lia. reflexivity. Qed.

(** Worker [i] gets the file [primes_thread_<i+1>.txt], and no two workers
    get the same file. *)
Theorem temp_files_distinct (numThreads : Z) :
  numThreads <= UINT_MAX ->
  NoDup (temp_files numThreads) /\
  forall i : nat, (i < Z.to_nat numThreads)%nat ->
    temp_files numThreads !! i =
    Some ("primes_thread_" +:+ show_unsigned (Z.of_nat i + 1) +:+ ".txt").
Proof.
  intros Hn. split.
  - apply NoDup_alt. intros i j name. apply temp_files_inj, Hn.
  - intros i Hi. unfold temp_files.
    rewrite list_lookup_fmap, lookup_indices by assumption. simpl.
    rewrite temp_name_text by lia. reflexivity.
Qed.



(** ** Runs of the pipeline in general *)

(** The pipeline in terms of what the workers return. *)
Lemma pipeline_of_workers (fuel : nat) (env : Env) (limit numThreads : Z)
    (fs : gmap string string) (out : nat -> list Z) :
  (forall i r, plan limit numThreads !! i = Some r ->
     reserve_throws env (reserve_request r) = false /\
     worker_loop fuel fuel (start r) (end_ r) [] = Some (out i)) ->
  pipeline fuel env limit numThreads fs =
  Returns
    (finalize
       (concat
          (zip_with
             (source env
                (written env (temp_files numThreads) out fs (Z.to_nat numThreads)))
             (temp_files numThreads) (out <$> indices numThreads))),
     written env (temp_files numThreads) out fs (Z.to_nat numThreads),
     warnings env (temp_files numThreads) (Z.to_nat numThreads)).
Proof.
  intros Hout. unfold pipeline.
  rewrite (run_threads_spec fuel env numThreads _ _ out fs
             (length_plan _ _) (length_temp_files _) Hout).
  rewrite merge_sources;
    [reflexivity | apply length_temp_files | rewrite length_fmap; apply length_indices].
Qed.

(** When no file that cannot be written is read in its place, every round
    of the merge appends what the worker found. *)
Lemma sources_faithful (env : Env) (numThreads : Z) (fs : gmap string string)
    (out : nat -> list Z) :
  numThreads <= UINT_MAX ->
  (forall i : nat, Forall in_range (out i)) ->
  (forall i : nat, (i < Z.to_nat numThreads)%nat ->
     write_fails env (temp_name (Z.of_nat i)) = true ->
     read_fails env (temp_name (Z.of_nat i)) = true \/
     fs !! temp_name (Z.of_nat i) = None) ->
  zip_with
    (source env (written env (temp_files numThreads) out fs (Z.to_nat numThreads)))
    (temp_files numThreads) (out <$> indices numThreads)
  = out <$> indices numThreads.
Proof.
  intros Hn Hrange Hbenign. apply zip_with_snd.
  { rewrite length_temp_files, length_fmap, length_indices. reflexivity. }
  intros i name loc Hname Hloc.
  destruct (lookup_temp_files _ _ _ Hname) as [Hi Hnm].
  rewrite list_lookup_fmap, lookup_indices in Hloc by assumption.
  injection Hloc as <-.
  unfold source, open_read.
  destruct (read_fails env name) eqn:Hrf; [reflexivity|].
  rewrite (written_lookup env (temp_files numThreads) out fs
             (fun a b c => temp_files_inj numThreads a b c Hn)
             (Z.to_nat numThreads) i name Hi Hname).
  destruct (write_fails env name) eqn:Hwf.
  - subst name. destruct (Hbenign i Hi Hwf) as [Hr|Hnone]; [congruence|].
    rewrite Hnone. reflexivity.
  - apply read_file_serialize, Hrange.
Qed.

(** A run of the threads that returns has had every worker return. *)
Lemma fold_thread_step_Returns (fuel : nat) (env : Env) (ranges : list Range)
    (names : list string) (l : list nat) :
  forall st res,
  fold_left (thread_step fuel env ranges names) l st = Returns res ->
  (exists v, st = Returns v) /\
  forall i r, In i l -> ranges !! i = Some r ->
    reserve_throws env (reserve_request r) = false /\
    worker_loop fuel fuel (start r) (end_ r) [] <> None.
Proof.
  induction l as [|k l IH]; intros st res H.
  - simpl in H. split; [eauto|]. intros i r [].
  - simpl in H. destruct (IH _ _ H) as [[v Hst] Hl].
    destruct st as [[[locals fs] err]| |]; try discriminate.
    split; [eauto|].
    intros i r [<-|Hi] Hr; [|exact (Hl i r Hi Hr)].
    unfold thread_step, workerTask in Hst. rewrite Hr in Hst.
    destruct (names !! k); [|discriminate].
    destruct (reserve_throws env (reserve_request r)); [discriminate|].
    split; [reflexivity|].
    destruct (worker_loop fuel fuel (start r) (end_ r) []); congruence.
Qed.

Lemma pipeline_returned (fuel : nat) (env : Env) (limit numThreads : Z)
    (fs : gmap string string) (all : list Z) (fs' : gmap string string)
    (err : list string) :
  pipeline fuel env limit numThreads fs = Returns (all, fs', err) ->
  forall i r, plan limit numThreads !! i = Some r ->
     reserve_throws env (reserve_request r) = false /\
     worker_loop fuel fuel (start r) (end_ r) [] =
     Some (returned fuel limit numThreads i).
Proof.
  intros Hrun i r Hr. unfold pipeline in Hrun.
  destruct (run_threads fuel env numThreads (plan limit numThreads)
              (temp_files numThreads) fs) as [[[locals fs1] err1]| |] eqn:E;
    try discriminate.
  unfold run_threads in E. apply fold_thread_step_Returns in E as [_ E].
  destruct (lookup_plan_inv _ _ _ _ Hr) as [Hi ->].
  destruct (E i _ ltac:(apply in_seq; lia) (lookup_plan _ _ _ Hi)) as [Hres Hloop].
  split; [exact Hres|]. unfold returned.
  destruct (worker_loop fuel fuel _ _ []); [reflexivity | congruence].
Qed.

(** Which warnings a run collects. *)
Lemma warnings_In (env : Env) (names : list string) (msg : string) (k : nat) :
  In msg (warnings env names k) <->
  exists (i : nat) (name : string),
    (i < k)%nat /\ names !! i = Some name /\ write_fails env name = true /\
    msg = warning (Z.of_nat i) name.
Proof.
  induction k as [|k IH]; simpl.
  - split; [intros [] | intros (i & name & Hi & _); lia].
  - rewrite in_app_iff, IH. split.
    + intros [(i & name & Hi & H)|Hlast].
      * exists i, name. split; [lia | exact H].
      * destruct (names !! k) as [name|] eqn:Hk; [|destruct Hlast].
        destruct (write_fails env name) eqn:Hw; [|destruct Hlast].
        destruct Hlast as [<-|[]]. exists k, name. auto.
    + intros (i & name & Hi & Hname & Hw & ->).
      destruct (decide (i = k)) as [->|Hne].
      * right. rewrite Hname, Hw. left. reflexivity.
      * left. exists i, name. split; [lia | auto].
Qed.

(** The files after a run that ended, whatever the limit and the
    environment: a file that is not one of the workers' files is as it was,
    so is the file of a worker whose output stream did not open, and every
    other worker's file holds the vector that worker computed, in the format
    of [workerTask].  The messages on [std::cerr] are the warnings of the
    workers whose output stream did not open. *)
Theorem pipeline_files (fuel : nat) (env : Env) (limit numThreads : Z)
    (fs : gmap string string) (all : list Z) (fs' : gmap string string)
    (err : list string) :
  numThreads <= UINT_MAX ->
  pipeline fuel env limit numThreads fs = Returns (all, fs', err) ->
  (forall name : string,
     (forall i : nat, (i < Z.to_nat numThreads)%nat -> name <> temp_name (Z.of_nat i)) ->
     fs' !! name = fs !! name) /\
  (forall i : nat, (i < Z.to_nat numThreads)%nat ->
     write_fails env (temp_name (Z.of_nat i)) = true ->
     fs' !! temp_name (Z.of_nat i) = fs !! temp_name (Z.of_nat i)) /\
  (forall i : nat, (i < Z.to_nat numThreads)%nat ->
     write_fails env (temp_name (Z.of_nat i)) = false ->
     exists (r : Range) (localOut : list Z),
       plan limit numThreads !! i = Some r /\
       worker_loop fuel fuel (start r) (end_ r) [] = Some localOut /\
       fs' !! temp_name (Z.of_nat i) = Some (serialize localOut)) /\
  (forall msg : string,
     In msg err <->
     exists i : nat,
       (i < Z.to_nat numThreads)%nat /\
       write_fails env (temp_name (Z.of_nat i)) = true /\
       msg = warning (Z.of_nat i) (temp_name (Z.of_nat i))).
Proof.
  intros Hn Hrun.
  pose proof (pipeline_returned _ _ _ _ _ _ _ _ Hrun) as Hout.
  rewrite (pipeline_of_workers _ _ _ _ _ _ Hout) in Hrun.
  injection Hrun as _ <- <-.
  assert (Hname : forall i : nat, (i < Z.to_nat numThreads)%nat ->
            temp_files numThreads !! i = Some (temp_name (Z.of_nat i))).
  { intros i Hi. unfold temp_files.
    rewrite list_lookup_fmap, lookup_indices by assumption. reflexivity. }
  pose proof (fun a b c => temp_files_inj numThreads a b c Hn) as Hinj.
  refine (conj _ (conj _ (conj _ _))).
  - intros name Hother. apply written_other. intros j Hj Hjn.
    rewrite (Hname j Hj) in Hjn. injection Hjn as Hjn.
    exact (Hother j Hj (eq_sym Hjn)).
  - intros i Hi Hw.
    rewrite (written_lookup _ _ _ _ Hinj _ i _ Hi (Hname i Hi)), Hw. reflexivity.
  - intros i Hi Hw. eexists _, _. split; [apply lookup_plan, Hi|].
    split; [apply (Hout i), lookup_plan, Hi|].
    rewrite (written_lookup _ _ _ _ Hinj _ i _ Hi (Hname i Hi)), Hw. reflexivity.
  - intros msg. rewrite warnings_In. split.
    + intros (i & name & Hi & Hlook & Hw & ->).
      rewrite (Hname i Hi) in Hlook. injection Hlook as <-.
      exists i. auto.
    + intros (i & Hi & Hw & ->).
      exists i, (temp_name (Z.of_nat i)). auto.
Qed.

(** ** Runs below the overflow *)

Lemma range_primes_In (limit numThreads : Z) (i : nat) (x : Z) :
  0 <= limit -> 1 <= numThreads <= UINT_MAX ->
  limit + numThreads - 1 <= LLONG_MAX ->
  In x (range_primes limit numThreads i) <->
  Z.of_nat i * block_size limit numThreads < x
    <= Z.min limit ((Z.of_nat i + 1) * block_size limit numThreads) /\ Z.prime x.
Proof.
  intros Hl Hn Hmax. unfold range_primes. rewrite primes_between_In.
  unfold planned.
  destruct (Z.ltb_spec
              (Z.min limit ((Z.of_nat i + 1) * block_size limit numThreads))
              (Z.of_nat i * block_size limit numThreads + 1)); simpl;
    intuition lia.
Qed.

Lemma range_primes_in_range (limit numThreads : Z) (i : nat) :
  0 <= limit <= LLONG_MAX -> 1 <= numThreads <= UINT_MAX ->
  limit + numThreads - 1 <= LLONG_MAX ->
  Forall in_range (range_primes limit numThreads i).
Proof.
  intros Hl Hn Hmax. apply List.Forall_forall. intros x Hx.
  apply range_primes_In in Hx; [|lia|assumption|assumption].
  destruct Hx as [Hx [Hp _]]. unfold in_range, LLONG_MIN, LLONG_MAX in *. lia.
Qed.

Lemma safe_worker_loop (fuel : nat) (limit numThreads : Z) :
  0 <= limit < LLONG_MAX -> 1 <= numThreads <= UINT_MAX ->
  limit + numThreads - 1 <= LLONG_MAX ->
  (Z.to_nat limit < fuel)%nat ->
  forall i r, plan limit numThreads !! i = Some r ->
    r = planned limit (block_size limit numThreads) (Z.of_nat i) /\
    worker_loop fuel fuel (start r) (end_ r) [] =
    Some (range_primes limit numThreads i).
Proof.
  intros Hl Hn Hmax Hfuel i r Hr.
  destruct (plan_partition limit numThreads ltac:(lia) Hn Hmax)
    as (HB & _ & _ & Hlook & _ & _).
  assert (HB0 : 0 <= block_size limit numThreads).
  { rewrite HB. apply Z.div_pos; lia. }
  destruct (lookup_plan_inv _ _ _ _ Hr) as [Hi _].
  rewrite (Hlook i Hi) in Hr. injection Hr as <-. split; [reflexivity|].
  pose proof (planned_bounds limit (block_size limit numThreads) (Z.of_nat i)
                ltac:(lia) HB0 ltac:(lia)) as Hb.
  unfold range_primes, LLONG_MAX in *.
  erewrite worker_loop_run;
    [reflexivity
    | unfold in_range, LLONG_MIN, LLONG_MAX; lia
    | unfold LLONG_MAX; lia
    | reflexivity
    | lia
    | lia].
Qed.

Lemma block_size_nonneg (limit numThreads : Z) :
  0 <= limit -> 1 <= numThreads <= UINT_MAX ->
  limit + numThreads - 1 <= LLONG_MAX ->
  0 <= block_size limit numThreads.
Proof.
  intros Hl Hn Hmax.
  destruct (plan_partition limit numThreads Hl Hn Hmax) as (HB & _).
  rewrite HB. apply Z.div_pos; lia.
Qed.

Lemma safe_workers (fuel : nat) (env : Env) (limit numThreads : Z) :
  0 <= limit < LLONG_MAX -> 1 <= numThreads <= UINT_MAX ->
  limit + numThreads - 1 <= LLONG_MAX ->
  (forall n, 1 <= n <= block_size limit numThreads ->
     reserve_throws env n = false) ->
  (Z.to_nat limit < fuel)%nat ->
  forall i r, plan limit numThreads !! i = Some r ->
    reserve_throws env (reserve_request r) = false /\
    worker_loop fuel fuel (start r) (end_ r) [] =
    Some (range_primes limit numThreads i).
Proof.
  intros Hl Hn Hmax Hmem Hfuel i r Hr.
  destruct (safe_worker_loop fuel limit numThreads Hl Hn Hmax Hfuel i r Hr)
    as [-> Hloop].
  split; [|exact Hloop].
  apply planned_reserve_ok; try (unfold LLONG_MAX in *; lia); [|exact Hmem].
  apply block_size_nonneg; lia.
Qed.

(** Below the overflow, when no reservation up to the block size throws,
    the run ends and the file of every worker whose output stream opens
    holds the primes of that worker's block, those above [i * block] and up
    to [min(limit, (i + 1) * block)], in a form the merge reads back. *)
Theorem pipeline_artifacts (fuel : nat) (env : Env) (limit numThreads : Z)
    (fs : gmap string string) :
  0 <= limit < LLONG_MAX -> 1 <= numThreads <= UINT_MAX ->
  limit + numThreads - 1 <= LLONG_MAX ->
  (forall n, 1 <= n <= block_size limit numThreads ->
     reserve_throws env n = false) ->
  (Z.to_nat limit < fuel)%nat ->
  exists all fs' err,
    pipeline fuel env limit numThreads fs = Returns (all, fs', err) /\
    forall i : nat, (i < Z.to_nat numThreads)%nat ->
      write_fails env (temp_name (Z.of_nat i)) = false ->
      fs' !! temp_name (Z.of_nat i) = Some (serialize (range_primes limit numThreads i)) /\
      read_file (serialize (range_primes limit numThreads i))
        = range_primes limit numThreads i /\
      forall x, In x (range_primes limit numThreads i) <->
        Z.of_nat i * block_size limit numThreads < x
          <= Z.min limit ((Z.of_nat i + 1) * block_size limit numThreads) /\
        Z.prime x.
Proof.
  intros Hl Hn Hmax Hmem Hfuel.
  pose proof (safe_workers fuel env limit numThreads Hl Hn Hmax Hmem Hfuel) as Hout.
  rewrite (pipeline_of_workers fuel env limit numThreads fs _ Hout).
  eexists _, _, _. split; [reflexivity|]. intros i Hi Hw.
  assert (Hname : temp_files numThreads !! i = Some (temp_name (Z.of_nat i))).
  { unfold temp_files.
    rewrite list_lookup_fmap, lookup_indices by assumption. reflexivity. }
  refine (conj _ (conj _ _)).
  - rewrite (written_lookup _ _ _ _
               (fun a b c => temp_files_inj numThreads a b c ltac:(lia))
               _ i _ Hi Hname), Hw. reflexivity.
  - apply read_file_serialize, range_primes_in_range; lia.
  - intros x. apply range_primes_In; lia.
Qed.

(** ** The accumulator before the sort *)

Lemma StronglySorted_app_lt (l1 l2 : list Z) :
  StronglySorted Z.lt l1 -> StronglySorted Z.lt l2 ->
  (forall x y, In x l1 -> In y l2 -> x < y) ->
  StronglySorted Z.lt (l1 ++ l2).
Proof.
  induction l1 as [|a l1 IH]; intros H1 H2 Hlt; [exact H2|].
  apply StronglySorted_inv in H1 as [H1 Ha]. simpl. constructor.
  - apply IH; [assumption | assumption |].
    intros x y Hx Hy. apply Hlt; [right|]; assumption.
  - apply List.Forall_forall. intros y Hy. apply in_app_iff in Hy as [Hy|Hy].
    + rewrite List.Forall_forall in Ha. apply Ha, Hy.
    + apply Hlt; [left; reflexivity | exact Hy].
Qed.

Lemma concat_blocks_sorted (out : nat -> list Z) (bound : nat -> Z) :
  (forall i, StronglySorted Z.lt (out i)) ->
  (forall i x, In x (out i) -> bound i < x <= bound (S i)) ->
  (forall i, bound i <= bound (S i)) ->
  forall k : nat,
  StronglySorted Z.lt (concat (out <$> seq 0 k)) /\
  forall x, In x (concat (out <$> seq 0 k)) -> x <= bound k.
Proof.
  intros Hs Hb Hm. induction k as [|k [IH1 IH2]].
  - split; [constructor | intros x []].
  - rewrite seq_S, fmap_app, concat_app. simpl. rewrite app_nil_r. split.
    + apply StronglySorted_app_lt; [exact IH1 | apply Hs |].
      intros x y Hx Hy. specialize (IH2 x Hx). specialize (Hb k y Hy). lia.
    + intros x Hx. apply in_app_iff in Hx as [Hx|Hx].
      * specialize (IH2 x Hx). specialize (Hm k). lia.
      * apply (Hb k x Hx).
Qed.

(** Below the overflow, when no reservation up to the block size throws
    and every round of the merge appends what the worker found, the
    accumulator is in ascending order without repetition before [std::sort]
    is called. *)
Theorem merge_already_sorted (fuel : nat) (env : Env) (limit numThreads : Z)
    (fs : gmap string string) :
  0 <= limit < LLONG_MAX -> 1 <= numThreads <= UINT_MAX ->
  limit + numThreads - 1 <= LLONG_MAX ->
  (forall n, 1 <= n <= block_size limit numThreads ->
     reserve_throws env n = false) ->
  (Z.to_nat limit < fuel)%nat ->
  (forall i : nat, (i < Z.to_nat numThreads)%nat ->
     write_fails env (temp_name (Z.of_nat i)) = true ->
     read_fails env (temp_name (Z.of_nat i)) = true \/
     fs !! temp_name (Z.of_nat i) = None) ->
  exists locals fs' err,
    run_threads fuel env numThreads (plan limit numThreads)
      (temp_files numThreads) fs = Returns (locals, fs', err) /\
    merge env fs' numThreads (temp_files numThreads) locals
      = primes_between 2 limit /\
    finalize (merge env fs' numThreads (temp_files numThreads) locals)
      = merge env fs' numThreads (temp_files numThreads) locals.
Proof.
  intros Hl Hn Hmax Hmem Hfuel Hbenign.
  pose proof (safe_workers fuel env limit numThreads Hl Hn Hmax Hmem Hfuel) as Hout.
  destruct (pipeline_primes fuel env limit numThreads fs Hl Hn Hmax Hmem Hfuel
              Hbenign) as [fs1 Hrun].
  rewrite (pipeline_of_workers fuel env limit numThreads fs _ Hout) in Hrun.
  rewrite sources_faithful in Hrun;
    [|lia | intros i; apply range_primes_in_range; lia | exact Hbenign].
  injection Hrun as Hfin _.
  rewrite (run_threads_spec fuel env numThreads _ _ _ fs
             (length_plan _ _) (length_temp_files _) Hout).
  eexists _, _, _. split; [reflexivity|].
  rewrite merge_sources;
    [|apply length_temp_files | rewrite length_fmap; apply length_indices].
  rewrite sources_faithful;
    [|lia | intros i; apply range_primes_in_range; lia | exact Hbenign].
  assert (Hsorted : StronglySorted Z.lt
            (concat (range_primes limit numThreads <$> indices numThreads))).
  { pose proof (block_size_nonneg limit numThreads ltac:(lia) Hn Hmax) as HB0.
    apply (concat_blocks_sorted (range_primes limit numThreads)
             (fun i => Z.of_nat i * block_size limit numThreads)).
    - intros i. apply (primes_between_sorted _ _ _ eq_refl).
    - intros i x Hx. apply range_primes_In in Hx; [|lia|assumption|assumption].
      lia.
    - intros i. nia. }
  split.
  - rewrite <- Hfin. symmetry. apply finalize_sorted_id, Hsorted.
  - apply finalize_sorted_id, Hsorted.
Qed.

(** ** Runs above the overflow *)

Lemma wrap64_high (z : Z) : 2 ^ 63 <= z < 2 ^ 64 + 2 ^ 63 -> wrap64 z = z - 2 ^ 64.
Proof.
  intros Hz. unfold wrap64.
  replace (z + 2 ^ 63) with (z - 2 ^ 63 + 1 * 2 ^ 64) by lia.
  rewrite Z.mod_add, Z.mod_small by lia. lia.
Qed.

(** Where [limit + numThreads - 1] is not representable the block size is
    negative and every worker gets the empty range. *)
Lemma plan_above_overflow (limit numThreads : Z) :
  0 <= limit <= LLONG_MAX -> 2 <= numThreads <= UINT_MAX ->
  LLONG_MAX < limit + numThreads - 1 ->
  block_size limit numThreads = - ((2 ^ 64 - (limit + numThreads - 1)) / numThreads) /\
  block_size limit numThreads < 0 /\
  forall i : nat, (i < Z.to_nat numThreads)%nat ->
    plan limit numThreads !! i = Some {| start := 1; end_ := 0 |}.
Proof.
  intros Hl Hn Hmax. unfold LLONG_MAX, UINT_MAX in *.
  set (M := 2 ^ 64 - (limit + numThreads - 1)).
  assert (HM : 2 ^ 63 - 2 ^ 32 < M <= 2 ^ 63) by (unfold M; lia).
  pose proof (Z.div_mod M numThreads ltac:(lia)) as Hdm.
  pose proof (Z.mod_pos_bound M numThreads ltac:(lia)) as Hmod.
  set (q := M / numThreads) in *.
  assert (Hq : 1 <= q) by nia.
  assert (Hq2 : numThreads * q <= 2 ^ 63) by lia.
  assert (HB : block_size limit numThreads = - q).
  { unfold block_size. destruct (Z.ltb_spec 0 numThreads); [|lia].
    unfold ceil_div, div, sub, add.
    replace (wrap64 (limit + numThreads) - 1)
      with (wrap64 (limit + numThreads) + -1) by lia.
    rewrite wrap64_add_l.
    replace (limit + numThreads + -1) with (limit + numThreads - 1) by lia.
    rewrite (wrap64_high (limit + numThreads - 1)) by lia.
    replace (limit + numThreads - 1 - 2 ^ 64) with (- M) by (unfold M; lia).
    rewrite Z.quot_opp_l, Z.quot_div_nonneg by lia. fold q.
    apply wrap64_id. unfold in_range, LLONG_MIN, LLONG_MAX. nia. }
  split; [exact HB|]. split; [lia|].
  intros i Hi. rewrite lookup_plan by assumption. rewrite HB. f_equal.
  assert (Hi' : 0 <= Z.of_nat i < numThreads) by lia.
  set (j := Z.of_nat i) in *.
  assert (Hjq : 0 <= j * q /\ j * q + q <= numThreads * q) by nia.
  assert (H1 : mul j (- q) = - (j * q)).
  { unfold mul. replace (j * - q) with (- (j * q)) by lia.
    apply wrap64_id. unfold in_range, LLONG_MIN, LLONG_MAX. lia. }
  assert (H2 : add j 1 = j + 1).
  { apply wrap64_id. unfold in_range, LLONG_MIN, LLONG_MAX. lia. }
  assert (H3 : mul (j + 1) (- q) = - (j * q + q)).
  { unfold mul. replace ((j + 1) * - q) with (- (j * q + q)) by lia.
    apply wrap64_id. unfold in_range, LLONG_MIN, LLONG_MAX. lia. }
  assert (H4 : add (- (j * q)) 1 = - (j * q) + 1).
  { apply wrap64_id. unfold in_range, LLONG_MIN, LLONG_MAX. lia. }
  unfold plan_range. rewrite H1, H2, H3, H4.
  destruct (Z.ltb_spec (Z.min limit (- (j * q + q))) (- (j * q) + 1));
    [reflexivity | lia].
Qed.

Lemma concat_nil_blocks (l : list nat) :
  concat ((fun _ : nat => @nil Z) <$> l) = [].
Proof. induction l as [|x l IH]; [reflexivity | exact IH]. Qed.

Lemma pipeline_above_overflow (fuel : nat) (env : Env) (limit numThreads : Z)
    (fs : gmap string string) :
  0 <= limit <= LLONG_MAX -> 2 <= numThreads <= UINT_MAX ->
  LLONG_MAX < limit + numThreads - 1 ->
  exists all fs',
    pipeline (S fuel) env limit numThreads fs =
    Returns (all, fs',
             warnings env (temp_files numThreads) (Z.to_nat numThreads)) /\
    ((forall i : nat, (i < Z.to_nat numThreads)%nat ->
        write_fails env (temp_name (Z.of_nat i)) = true ->
        read_fails env (temp_name (Z.of_nat i)) = true \/
        fs !! temp_name (Z.of_nat i) = None) -> all = []).
Proof.
  intros Hl Hn Hmax.
  destruct (plan_above_overflow limit numThreads Hl Hn Hmax) as (_ & _ & Hplan).
  assert (Hout : forall i r, plan limit numThreads !! i = Some r ->
            reserve_throws env (reserve_request r) = false /\
            worker_loop (S fuel) (S fuel) (start r) (end_ r) [] = Some []).
  { intros i r Hr. destruct (lookup_plan_inv _ _ _ _ Hr) as [Hi _].
    rewrite (Hplan i Hi) in Hr. injection Hr as <-. split; reflexivity. }
  rewrite (pipeline_of_workers (S fuel) env limit numThreads fs (fun _ => [])  Hout).
  eexists _, _. split; [reflexivity|]. intros Hbenign.
  rewrite sources_faithful; [|lia | intros i; constructor | exact Hbenign].
  rewrite concat_nil_blocks. reflexivity.
Qed.

(** An accepted limit so large that [limit + numThreads - 1] is not
    representable: the block size is negative, every worker gets the empty
    range, for which nothing is reserved, and [main] ends with status 0
    after writing that there are no primes up to the limit, although 2 is
    one.  On [std::cerr] are the warnings of the workers whose output stream
    did not open. *)
Theorem main_io_above_overflow (fuel : nat) (env : Env) (prog arg : string)
    (limit : Z) (fs : gmap string string) :
  parseLimit arg = Some limit ->
  0 <= hardware_concurrency env <= UINT_MAX ->
  LLONG_MAX < limit + choose_numThreads (hardware_concurrency env) limit - 1 ->
  (forall name, write_fails env name = true ->
     read_fails env name = true \/ fs !! name = None) ->
  let numThreads := choose_numThreads (hardware_concurrency env) limit in
  2 <= numThreads /\
  block_size limit numThreads < 0 /\
  plan limit numThreads
    = replicate (Z.to_nat numThreads) {| start := 1; end_ := 0 |} /\
  (exists fs',
     main_io (S fuel) env prog [arg] fs =
     Returns {| run_status := 0;
                run_stdout :=
                  banner (detected_hw (hardware_concurrency env)) numThreads +:+
                  creating numThreads (temp_files numThreads) +:+
                  "Merging results..." +:+ newline +:+
                  "No primes <= " +:+ show_ll limit +:+ "." +:+ newline;
                run_stderr :=
                  warnings env (temp_files numThreads) (Z.to_nat numThreads);
                run_files := fs' |}) /\
  In 2 (primes_between 2 limit).
Proof.
  intros Hparse Hhw Hmax Hbenign n.
  pose proof (parseLimit_bounds arg limit Hparse) as Hl.
  destruct (choose_numThreads_bounds _ limit Hhw) as [Hn _].
  fold n in Hmax, Hn.
  assert (Hn2 : 2 <= n <= UINT_MAX) by (unfold LLONG_MAX in *; lia).
  destruct (plan_above_overflow limit n Hl Hn2 Hmax) as (_ & Hneg & Hplan).
  destruct (pipeline_above_overflow fuel env limit n fs Hl Hn2 Hmax)
    as (all & fs' & Hrun & Hall).
  rewrite Hall in Hrun by (intros i _; apply Hbenign).
  refine (conj (proj1 Hn2) (conj Hneg (conj _ (conj _ _)))).
  - apply list_eq. intros i.
    destruct (decide (i < Z.to_nat n)%nat) as [Hi|Hi].
    + rewrite (Hplan i Hi). symmetry. apply lookup_replicate_2. exact Hi.
    + rewrite !lookup_ge_None_2; [reflexivity | |].
      * rewrite length_replicate. lia.
      * rewrite length_plan. lia.
  - exists fs'. unfold main_io. rewrite Hparse. fold n. rewrite Hrun.
    unfold report. rewrite bool_decide_eq_true_2 by reflexivity.
    rewrite orb_true_r. reflexivity.
  - apply primes_between_In. split; [|exact Z.prime_2].
    unfold LLONG_MAX, UINT_MAX in *. lia.
Qed.

(** ** What a run below the overflow prints *)



(** ** How a run ends *)

(** The first element of a list at which a test succeeds. *)
Lemma existsb_first {A : Type} (f : A -> bool) (l : list A) :
  existsb f l = true ->
  exists (j : nat) (x : A),
    l !! j = Some x /\ f x = true /\
    forall (i : nat) (y : A), (i < j)%nat -> l !! i = Some y -> f y = false.
Proof.
  induction l as [|a l IH]; [discriminate|]. simpl.
  destruct (f a) eqn:Ha.
  - intros _. exists 0%nat, a. split; [reflexivity|]. split; [exact Ha|].
    intros i y Hi. lia.
  - intros H. destruct (IH H) as (j & x & Hj & Hx & Hbefore).
    exists (S j), x. split; [exact Hj|]. split; [exact Hx|].
    intros [|i] y Hi Hy.
    + injection Hy as <-. exact Ha.
    + apply (Hbefore i y); [lia | exact Hy].
Qed.

Lemma existsb_none {A : Type} (f : A -> bool) (l : list A) :
  existsb f l = false ->
  forall (i : nat) (y : A), l !! i = Some y -> f y = false.
Proof.
  intros H i y Hy. destruct (f y) eqn:Hf; [|reflexivity].
  rewrite <- H. symmetry. apply existsb_exists. exists y.
  split; [|exact Hf]. apply list_elem_of_In, (list_elem_of_lookup_2 _ i), Hy.
Qed.

(** On an accepted limit [main] always ends.  With enough fuel the run is
    aborted when the reservation of some worker throws, and returns with
    status 0 otherwise; no amount of fuel is left unfinished.  The limit
    [LLONG_MAX] with one hardware thread, where the only worker is given the
    range from 1 to [LLONG_MAX], is among the aborted runs: the reservation
    throws before the loop that would not end is reached. *)
Theorem main_io_ends (env : Env) (prog arg : string) (limit : Z)
    (fs : gmap string string) :
  parseLimit arg = Some limit ->
  0 <= hardware_concurrency env <= UINT_MAX ->
  let numThreads := choose_numThreads (hardware_concurrency env) limit in
  let throws :=
    existsb (fun r => reserve_throws env (reserve_request r))
      (plan limit numThreads) in
  (exists fuel0 : nat, forall fuel : nat, (fuel0 <= fuel)%nat ->
     if throws then main_io fuel env prog [arg] fs = Aborts
     else exists run, main_io fuel env prog [arg] fs = Returns run /\
                      run_status run = 0) /\
  (limit = LLONG_MAX -> hardware_concurrency env = 1 ->
     throws = true /\ forall fuel, main_io fuel env prog [arg] fs = Aborts).
Proof.
  intros Hparse Hhw n throws.
  pose proof (parseLimit_bounds arg limit Hparse) as Hl.
  destruct (choose_numThreads_bounds _ limit Hhw) as [Hn _]. fold n in Hn.
  destruct (choose_numThreads_formula _ limit Hhw) as (_ & _ & _ & Hone).
  fold n in Hone.
  assert (Hcorner : limit = LLONG_MAX -> n = 1 ->
            throws = true /\ forall fuel, main_io fuel env prog [arg] fs = Aborts).
  { intros -> Hn1. unfold throws. rewrite Hn1.
    change (plan LLONG_MAX 1) with [{| start := 1; end_ := LLONG_MAX |}].
    change (existsb (fun r => reserve_throws env (reserve_request r))
              [{| start := 1; end_ := LLONG_MAX |}])
      with (reserve_throws env 9223372036854775807 || false).
    assert (Hthrow : reserve_throws env 9223372036854775807 = true) by reflexivity.
    rewrite Hthrow. split; [reflexivity|].
    intros fuel. unfold main_io. rewrite Hparse. fold n. rewrite Hn1.
    rewrite pipeline_first_reserve_throws; [reflexivity | | | |];
      try (unfold LLONG_MAX, UINT_MAX; lia).
    change (block_size LLONG_MAX 1) with LLONG_MAX. exact Hthrow. }
  split; [|intros Hlim Hhc; apply Hcorner; [exact Hlim | apply Hone; right; exact Hhc]].
  destruct (Z_le_gt_dec (limit + n - 1) LLONG_MAX) as [Hsafe|Hover].
  - destruct (Z.eq_dec limit LLONG_MAX) as [Hlim|Hlim].
    { assert (Hn1 : n = 1) by lia.
      destruct (Hcorner Hlim Hn1) as [Hthrows Habort].
      exists 0%nat. intros fuel _. rewrite Hthrows. apply Habort. }
    exists (S (Z.to_nat limit)). intros fuel Hfuel.
    pose proof (safe_worker_loop fuel limit n ltac:(lia) Hn Hsafe ltac:(lia))
      as Hloop.
    unfold main_io. rewrite Hparse. fold n.
    destruct throws eqn:Hthrows.
    + destruct (existsb_first _ _ Hthrows) as (j & rj & Hj & Hrj & Hbefore).
      unfold pipeline.
      rewrite (run_threads_aborts fuel env n _ _ (range_primes limit n) fs j rj
                 (length_plan _ _) (length_temp_files _) Hj Hrj);
        [reflexivity|].
      intros i r Hi Hr. split; [exact (Hbefore i r Hi Hr)|].
      apply (Hloop i r Hr).
    + rewrite (pipeline_of_workers fuel env limit n fs (range_primes limit n)).
      * eexists. split; reflexivity.
      * intros i r Hr. split; [exact (existsb_none _ _ Hthrows i r Hr)|].
        apply (Hloop i r Hr).
  - assert (Hn2 : 2 <= n <= UINT_MAX) by (unfold LLONG_MAX in *; lia).
    destruct (plan_above_overflow limit n Hl Hn2 ltac:(lia)) as (_ & _ & Hplan).
    assert (Hthrows : throws = false).
    { destruct throws eqn:Hthrows; [|reflexivity].
      destruct (existsb_first _ _ Hthrows) as (j & rj & Hj & Hrj & _).
      destruct (lookup_plan_inv _ _ _ _ Hj) as [Hjn _].
      rewrite (Hplan j Hjn) in Hj. injection Hj as <-. discriminate. }
    rewrite Hthrows. exists 1%nat. intros [|fuel] Hfuel; [lia|].
    destruct (pipeline_above_overflow fuel env limit n fs Hl Hn2 ltac:(lia))
      as (all & fs' & Hrun & _).
    unfold main_io. rewrite Hparse. fold n. rewrite Hrun.
    eexists. split; reflexivity.
Qed.

(** ** Rejected command lines *)

Lemma accepted_or_rejected (args : list string) :
  (exists arg limit, args = [arg] /\ parseLimit arg = Some limit) \/
  (forall arg, args = [arg] -> parseLimit arg = None).
Proof.
  destruct args as [|arg [|arg2 rest]]; try (right; intros a [=]; fail).
  destruct (parseLimit arg) as [limit|] eqn:E.
  - left. exists arg, limit. split; [reflexivity | exact E].
  - right. intros a [= <-]. exact E.
Qed.

(** [main] returns 0 or 1, and 1 exactly when the command line is not one
    non-empty argument of decimal digits with a value up to [LLONG_MAX].  A
    rejected command line is rejected before anything is computed: nothing
    goes to [std::cout], no file is touched, and [std::cerr] gets the error
    message when there was one argument and the usage text otherwise. *)
Theorem main_io_rejects (fuel : nat) (env : Env) (prog : string)
    (args : list string) (fs : gmap string string) (run : Run) :
  main_io fuel env prog args fs = Returns run ->
  (run_status run = 0 \/ run_status run = 1) /\
  (run_status run = 1 <->
   ~ exists arg, args = [arg] /\ arg <> "" /\ all_digits arg = true /\
                 decimal_value arg <= LLONG_MAX) /\
  (run_status run = 1 ->
   main_io 0 env prog args fs = Returns run /\
   run_stdout run = "" /\ run_files run = fs /\
   run_stderr run = match args with
                    | [_] => [limit_error]
                    | _ => [usage prog]
                    end).
Proof.
  intros Hrun.
  assert (Hreject : forall r, main_io fuel env prog args fs = Returns r ->
            (forall arg, args = [arg] -> parseLimit arg = None) ->
            r = {| run_status := 1; run_stdout := ""; run_files := fs;
                   run_stderr := match args with
                                 | [_] => [limit_error]
                                 | _ => [usage prog]
                                 end |} /\
            main_io 0 env prog args fs = Returns r).
  { intros r Hr Hno. unfold main_io in *.
    destruct args as [|arg [|arg2 rest]].
    - injection Hr as <-. split; reflexivity.
    - rewrite (Hno arg eq_refl) in *. injection Hr as <-. split; reflexivity.
    - injection Hr as <-. split; reflexivity. }
  destruct (accepted_or_rejected args) as [(arg & limit & -> & Hparse)|Hno].
  - assert (Hst : run_status run = 0).
    { unfold main_io in Hrun. rewrite Hparse in Hrun.
      destruct (pipeline fuel env limit _ fs) as [[[all fs'] err]| |];
        try discriminate.
      injection Hrun as <-. reflexivity. }
    split; [left; exact Hst|]. split; [|rewrite Hst; discriminate].
    rewrite Hst. split; [discriminate|]. intros Hnot. exfalso. apply Hnot.
    exists arg. destruct (parseLimit_Some arg limit Hparse) as [Hne Hs].
    rewrite (parseLimit_digits arg Hne Hs) in Hparse.
    destruct (Z.leb_spec (decimal_value arg) LLONG_MAX); [|discriminate]. auto.
  - destruct (Hreject run Hrun Hno) as [-> H0].
    split; [right; reflexivity|]. split.
    + split; [|reflexivity]. intros _ (arg & -> & Hne & Hs & Hle).
      specialize (Hno arg eq_refl). rewrite (parseLimit_digits arg Hne Hs) in Hno.
      apply Z.leb_le in Hle. rewrite Hle in Hno. discriminate.
    + intros _. split; [exact H0|]. simpl. auto.
Qed.

(** ** The number of rounds of the trial division *)

Lemma isPrime_loop_more_fuel (fuel : nat) : forall (k : nat) (n d : Z) (b : bool),
  isPrime_loop fuel n d = Some b -> isPrime_loop (fuel + k) n d = Some b.
Proof.
  induction fuel as [|fuel IH]; intros k n d b H; [discriminate|].
  change (S fuel + k)%nat with (S (fuel + k)).
  rewrite isPrime_loop_S in *.
  destruct (continues n d); [apply IH, H | exact H].
Qed.

Lemma isPrime_loop_sqrt (n : Z) (fuel : nat) :
  3 <= n < 3037000499 * 3037000499 -> (Z.to_nat (Z.sqrt n) <= fuel)%nat ->
  exists b, isPrime_loop fuel n 3 = Some b.
Proof.
  intros Hn Hfuel.
  pose proof (Z.sqrt_spec n ltac:(lia)) as Hs.
  unfold Z.succ in Hs.
  assert (Hs1 : 1 <= Z.sqrt n <= 3037000498).
  { split.
    - apply Z.sqrt_le_square; lia.
    - apply Z.lt_succ_r, Z.sqrt_lt_square; lia. }
  set (s := Z.sqrt n) in *.
  set (m := Z.to_nat ((s - 1) / 2)).
  pose proof (Z.div_mod (s - 1) 2 ltac:(lia)) as Hdm.
  pose proof (Z.mod_pos_bound (s - 1) 2 ltac:(lia)) as Hmod.
  assert (Hm : s < 3 + 2 * Z.of_nat m <= s + 2) by (unfold m; lia).
  set (P := fun j : nat => continues n (3 + 2 * Z.of_nat j)).
  assert (HPm : P m = false).
  { unfold P, continues. set (e := 3 + 2 * Z.of_nat m) in *.
    assert (He : mul e e = e * e).
    { apply wrap64_id. unfold in_range, LLONG_MIN, LLONG_MAX. nia. }
    rewrite He. replace (e * e <=? n) with false; [reflexivity|].
    symmetry. apply Z.leb_gt. nia. }
  destruct (least_false m P HPm) as (j0 & Hle & Hstop & Hbefore).
  exists (negb (mul (3 + 2 * Z.of_nat j0) (3 + 2 * Z.of_nat j0) <=? n)).
  replace fuel with (j0 + S (fuel - j0 - 1))%nat by (unfold m in *; lia).
  rewrite isPrime_loop_run.
  - rewrite isPrime_loop_S. unfold P in Hstop. rewrite Hstop. reflexivity.
  - unfold in_range, LLONG_MIN, LLONG_MAX. lia.
  - unfold LLONG_MAX. lia.
  - intros j Hj. replace j with (Z.of_nat (Z.to_nat j)) by lia.
    apply Hbefore. lia.
Qed.

(** Below the square of 3037000499 the trial division makes at most
    [sqrt n] rounds. *)
Theorem isPrime_sqrt_rounds (n : Z) (fuel : nat) :
  in_range n -> n < 3037000499 * 3037000499 ->
  (Z.to_nat (Z.sqrt n) <= fuel)%nat ->
  isPrime fuel n = Some (bool_decide (Z.prime n)).
Proof.
  intros Hr Hn Hfuel.
  pose proof (isPrime_decides (fuel + Z.to_nat n) n Hr ltac:(lia)) as Hbig.
  unfold isPrime in *.
  destruct (n <? 2) eqn:H2; [exact Hbig|].
  destruct (n =? 2); [exact Hbig|].
  destruct (rem n 2 =? 0); [exact Hbig|].
  apply Z.ltb_ge in H2.
  destruct (Z.eq_dec n 2) as [->|Hne].
  { destruct fuel; [simpl in Hfuel; lia|]. exact Hbig. }
  destruct (isPrime_loop_sqrt n fuel ltac:(lia) Hfuel) as [b Hb].
  rewrite (isPrime_loop_more_fuel fuel (Z.to_nat n) n 3 b Hb) in Hbig.
  rewrite Hb. exact Hbig.
Qed.

(** ** The final vector of any run that ends *)

Lemma in_concat_zip_with {A B : Type} (f : A -> B -> list Z) (x : Z) (l1 : list A) :
  forall l2 : list B,
  In x (concat (zip_with f l1 l2)) <->
  exists (i : nat) (a : A) (b : B),
    l1 !! i = Some a /\ l2 !! i = Some b /\ In x (f a b).
Proof.
  induction l1 as [|a l1 IH]; intros [|b l2]; simpl.
  - split; [intros [] | intros (i & a & b & Ha & _); discriminate].
  - split; [intros [] | intros (i & a & b' & Ha & _); discriminate].
  - split; [intros [] | intros (i & a' & b & _ & Hb & _); discriminate].
  - rewrite in_app_iff, IH. split.
    + intros [Hx|(i & a' & b' & Ha & Hb & Hx)].
      * exists 0%nat, a, b. auto.
      * exists (S i), a', b'. auto.
    + intros ([|i] & a' & b' & Ha & Hb & Hx).
      * injection Ha as <-. injection Hb as <-. left. exact Hx.
      * right. exists i, a', b'. auto.
Qed.

(** Whatever the limit, the files and the streams, the final vector of a run
    that ends is strictly ascending and holds exactly the values that some
    worker index contributes: those read from its file when the file opens
    after the workers are done, and those the worker returned otherwise. *)
Theorem pipeline_final_members (fuel : nat) (env : Env) (limit numThreads : Z)
    (fs : gmap string string) (all : list Z) (fs' : gmap string string)
    (err : list string) :
  pipeline fuel env limit numThreads fs = Returns (all, fs', err) ->
  StronglySorted Z.lt all /\
  forall x : Z,
    In x all <->
    exists i : nat,
      (i < Z.to_nat numThreads)%nat /\
      In x (source env fs' (temp_name (Z.of_nat i))
              (returned fuel limit numThreads i)).
Proof.
  intros Hrun.
  pose proof (pipeline_returned _ _ _ _ _ _ _ _ Hrun) as Hout.
  rewrite (pipeline_of_workers _ _ _ _ _ _ Hout) in Hrun.
  injection Hrun as <- <- _. split; [apply finalize_sorted|].
  intros x. rewrite finalize_In, in_concat_zip_with. split.
  - intros (i & name & loc & Hname & Hloc & Hx).
    destruct (lookup_temp_files _ _ _ Hname) as [Hi ->].
    rewrite list_lookup_fmap, lookup_indices in Hloc by assumption.
    injection Hloc as <-. exists i. split; assumption.
  - intros (i & Hi & Hx).
    exists i, (temp_name (Z.of_nat i)), (returned fuel limit numThreads i).
    split; [|split; [|exact Hx]].
    + unfold temp_files.
      rewrite list_lookup_fmap, lookup_indices by assumption. reflexivity.
    + rewrite list_lookup_fmap, lookup_indices by assumption. reflexivity.
Qed.

(** ** Limits below 2 *)

(** On the limits 0 and 1 [main] uses one thread and, when the reservation
    of the one element for the limit 1 does not throw, ends with status 0
    after writing that there are no primes, whatever the hardware reports,
    whichever streams fail to open and whatever [primes_thread_1.txt] holds:
    the test [limit < 2] comes before the look at the merged vector.  On
    [std::cerr] is the warning of the worker when its output stream did not
    open, and nothing otherwise. *)
Theorem main_io_small_limit (fuel : nat) (env : Env) (prog arg : string)
    (limit : Z) (fs : gmap string string) :
  parseLimit arg = Some limit -> limit < 2 -> (2 <= fuel)%nat ->
  (limit = 1 -> alloc_fails env 1 = false) ->
  choose_numThreads (hardware_concurrency env) limit = 1 /\
  exists fs',
    main_io fuel env prog [arg] fs =
    Returns
      {| run_status := 0;
         run_stdout :=
           "Detected " +:+ show_unsigned (detected_hw (hardware_concurrency env))
             +:+ " hardware threads." +:+ newline +:+
           "Using 1 worker thread." +:+ newline +:+
           "Creating 1 temp file: primes_thread_1.txt" +:+ newline +:+
           "Merging results..." +:+ newline +:+
           "No primes <= " +:+ show_ll limit +:+ "." +:+ newline;
         run_stderr :=
           (if write_fails env "primes_thread_1.txt"
            then ["[WARN] Thread 1: failed to open primes_thread_1.txt for writing."
                    +:+ newline]
            else []);
         run_files := fs' |}.
Proof.
  intros Hparse Hlt Hfuel Halloc.
  pose proof (parseLimit_bounds arg limit Hparse) as Hl.
  assert (Hn : choose_numThreads (hardware_concurrency env) limit = 1).
  { unfold choose_numThreads. destruct (Z.ltb_spec limit 2); [reflexivity | lia]. }
  split; [exact Hn|].
  assert (Hmem : forall n, 1 <= n <= block_size limit 1 ->
            reserve_throws env n = false).
  { intros n Hn1.
    assert (Hcases : limit = 0 \/ limit = 1) by lia.
    destruct Hcases as [-> | ->].
    - change (block_size 0 1) with 0 in Hn1. lia.
    - change (block_size 1 1) with 1 in Hn1. assert (n = 1) by lia. subst n.
      unfold reserve_throws. rewrite (Halloc eq_refl). reflexivity. }
  unfold main_io. rewrite Hparse, Hn.
  rewrite (pipeline_of_workers fuel env limit 1 fs _
             (safe_workers fuel env limit 1
                ltac:(unfold LLONG_MAX; lia)
                ltac:(unfold UINT_MAX; lia)
                ltac:(unfold LLONG_MAX; lia)
                Hmem ltac:(lia))).
  eexists. do 2 f_equal.
  unfold report. replace (limit <? 2) with true by (symmetry; apply Z.ltb_lt, Hlt).
  simpl orb. cbv iota. unfold banner, plural_s. simpl (1 =? 1). cbv iota.
  change (creating 1 (temp_files 1))
    with ("Creating 1 temp file: primes_thread_1.txt" +:+ newline).
  rewrite !append_assoc. reflexivity.
Qed.

(** ** The further properties at concrete inputs *)

Lemma parseLimit_show_witness :
  parseLimit (show_ll 50) = Some 50 /\ parseLimit (show_ll (- 50 - 1)) = None.
Proof. apply (parseLimit_show 50). unfold LLONG_MAX. lia. Defined.

Lemma parseLimit_leading_zero_witness : parseLimit "050" = parseLimit "50".
Proof. apply (parseLimit_leading_zero "50"). discriminate. Defined.

Lemma read_file_serialize_append_witness :
  read_file (serialize [2; 3] +:+ serialize [5; 7]) = [2; 3] ++ read_file (serialize [5; 7]).
Proof.
  apply (read_file_serialize_append [2; 3] (serialize [5; 7])).
  repeat constructor; unfold LLONG_MIN, LLONG_MAX; lia.
Defined.

Lemma print_all_roundtrip_witness : read_file (print_all [2; 3; 5; 7]) = [2; 3; 5; 7].
Proof.
  apply (print_all_roundtrip [2; 3; 5; 7]).
  repeat constructor; unfold LLONG_MIN, LLONG_MAX; lia.
Defined.

Lemma choose_numThreads_policy_witness :
  choose_numThreads 8 3 = Z.min (detected_hw 8) (Z.max 1 3).
Proof. apply (choose_numThreads_policy 8 3). unfold UINT_MAX. lia. Defined.

Lemma plan_ranges_ordered_witness :
  end_ (plan_range 10 (block_size 10 4) 1)
    - start (plan_range 10 (block_size 10 4) 1) + 1 <= block_size 10 4.
Proof.
  apply (proj1 (plan_ranges_ordered 10 4 ltac:(lia)
                  ltac:(unfold UINT_MAX; lia) ltac:(unfold LLONG_MAX; lia))
           1%nat).
  apply (lookup_plan 10 4 1). simpl. lia.
Defined.

Lemma temp_files_distinct_witness : NoDup (temp_files 4).
Proof. apply (temp_files_distinct 4). unfold UINT_MAX. lia. Defined.

Lemma pipeline_files_witness :
  exists all fs' err,
    pipeline 20 env0 10 3 {[ "notes.txt" := "7" ]} = Returns (all, fs', err) /\
    fs' !! "notes.txt" = Some "7".
Proof.
  destruct (pipeline_primes 20 env0 10 3 {[ "notes.txt" := "7" ]}) as [fs' E];
    try (unfold UINT_MAX, LLONG_MAX; lia).
  { apply reserve_within; [reflexivity | vm_compute; discriminate]. }
  { intros i _ Hw. discriminate. }
  eexists (primes_between 2 10), fs', _. split; [exact E|].
  rewrite (proj1 (pipeline_files 20 env0 10 3 _ _ fs' _
                    ltac:(unfold UINT_MAX; lia) E) "notes.txt").
  - vm_compute. reflexivity.
  - intros i Hi. assert (Hc : (i = 0 \/ i = 1 \/ i = 2)%nat) by lia.
    destruct Hc as [-> | [-> | ->]]; vm_compute; discriminate.
Defined.

Lemma pipeline_artifacts_witness :
  exists all fs' err,
    pipeline 20 env0 10 3 ∅ = Returns (all, fs', err) /\
    fs' !! temp_name 1 = Some (serialize (range_primes 10 3 1)).
Proof.
  destruct (pipeline_artifacts 20 env0 10 3 ∅)
    as (all & fs' & err & Hrun & Hfiles);
    try (unfold UINT_MAX, LLONG_MAX; lia).
  { apply reserve_within; [reflexivity | vm_compute; discriminate]. }
  exists all, fs', err. split; [exact Hrun|].
  destruct (Hfiles 1%nat ltac:(lia) eq_refl) as [Hfile _]. exact Hfile.
Defined.

Lemma merge_already_sorted_witness :
  exists locals fs' err,
    run_threads 20 env0 3 (plan 10 3) (temp_files 3) ∅
      = Returns (locals, fs', err) /\
    merge env0 fs' 3 (temp_files 3) locals = primes_between 2 10.
Proof.
  destruct (merge_already_sorted 20 env0 10 3 ∅)
    as (locals & fs' & err & Hrun & Hm & _);
    try (unfold UINT_MAX, LLONG_MAX; lia).
  - apply reserve_within; [reflexivity | vm_compute; discriminate].
  - intros i _ Hw. discriminate.
  - exists locals, fs', err. split; assumption.
Defined.

Lemma main_io_above_overflow_witness :
  block_size LLONG_MAX 2 < 0 /\
  In 2 (primes_between 2 LLONG_MAX) /\
  exists run,
    main_io 1 env2 "prime_numbers" ["9223372036854775807"] ∅ = Returns run /\
    run_status run = 0 /\ run_stderr run = [].
Proof.
  destruct (main_io_above_overflow 0 env2 "prime_numbers" "9223372036854775807"
              LLONG_MAX ∅) as (_ & Hneg & _ & [fs' Hrun] & Hin).
  - vm_compute. reflexivity.
  - simpl. unfold UINT_MAX. lia.
  - vm_compute. reflexivity.
  - intros name Hw. discriminate.
  - split; [exact Hneg|]. split; [exact Hin|].
    eexists. split; [exact Hrun|]. split; reflexivity.
Defined.


Lemma main_io_ends_witness :
  exists fuel0 : nat, forall fuel : nat, (fuel0 <= fuel)%nat ->
    exists run,
      main_io fuel env0 "prime_numbers" ["50"] ∅ = Returns run /\
      run_status run = 0.
Proof.
  destruct (main_io_ends env0 "prime_numbers" "50" 50 ∅) as [[fuel0 H] _].
  - vm_compute. reflexivity.
  - simpl. unfold UINT_MAX. lia.
  - exists fuel0. exact H.
Defined.

Lemma main_io_rejects_witness :
  main_io 0 env0 "prime_numbers" ["-5"] ∅ =
  Returns {| run_status := 1; run_stdout := ""; run_stderr := [limit_error];
             run_files := ∅ |}.
Proof.
  apply (main_io_rejects 5 env0 "prime_numbers" ["-5"] ∅
           {| run_status := 1; run_stdout := ""; run_stderr := [limit_error];
              run_files := ∅ |}); reflexivity.
Defined.

Lemma isPrime_sqrt_rounds_witness : isPrime 10 97 = Some (bool_decide (Z.prime 97)).
Proof.
  apply (isPrime_sqrt_rounds 97 10).
  - unfold in_range, LLONG_MIN, LLONG_MAX. lia.
  - lia.
  - vm_compute. lia.
Defined.

Lemma pipeline_final_members_witness :
  exists fs' err,
    pipeline 20 env0 10 3 ∅ = Returns (primes_between 2 10, fs', err) /\
    StronglySorted Z.lt (primes_between 2 10).
Proof.
  destruct (pipeline_primes 20 env0 10 3 ∅) as [fs' E];
    try (unfold UINT_MAX, LLONG_MAX; lia).
  { apply reserve_within; [reflexivity | vm_compute; discriminate]. }
  { intros i _ Hw. discriminate. }
  eexists fs', _. split; [exact E|].
  apply (pipeline_final_members 20 env0 10 3 ∅ _ fs' _ E).
Defined.

Lemma main_io_small_limit_witness :
  exists run,
    main_io 5 {| hardware_concurrency := 8;
                 write_fails := fun _ => true;
                 read_fails := fun _ => false;
                 alloc_fails := fun _ => false |}
      "prime_numbers" ["1"] {[ "primes_thread_1.txt" := "4 6" ]} = Returns run /\
    run_status run = 0 /\
    run_stderr run =
      ["[WARN] Thread 1: failed to open primes_thread_1.txt for writing."
         +:+ newline].
Proof.
  destruct (main_io_small_limit 5
              {| hardware_concurrency := 8;
                 write_fails := fun _ => true;
                 read_fails := fun _ => false;
                 alloc_fails := fun _ => false |}
              "prime_numbers" "1" 1 {[ "primes_thread_1.txt" := "4 6" ]})
    as [_ [fs' Hrun]].
  - vm_compute. reflexivity.
  - lia.
  - lia.
  - reflexivity.
  - eexists. split; [exact Hrun|]. split; reflexivity.
Defined.

(** ** The output of [main] at the scenarios of the specification *)

Example main_io_10 :
  exists fs',
    main_io 60 env0 "prime_numbers" ["10"] ∅ =
    Returns
      {| run_status := 0;
         run_stdout :=
           "Detected 4 hardware threads." +:+ newline +:+
           "Using 4 worker threads." +:+ newline +:+
           "Creating 4 temp files: primes_thread_1.txt ... primes_thread_4.txt"
             +:+ newline +:+
           "Merging results..." +:+ newline +:+
           "Prime numbers <= 10:" +:+ newline +:+
           "2 3 5 7" +:+ newline;
         run_stderr := [];
         run_files := fs' |}.
Proof. eexists. vm_compute. reflexivity. Qed.

Example main_io_1 :
  exists fs',
    main_io 60 env0 "prime_numbers" ["1"] ∅ =
    Returns
      {| run_status := 0;
         run_stdout :=
           "Detected 4 hardware threads." +:+ newline +:+
           "Using 1 worker thread." +:+ newline +:+
           "Creating 1 temp file: primes_thread_1.txt" +:+ newline +:+
           "Merging results..." +:+ newline +:+
           "No primes <= 1." +:+ newline;
         run_stderr := [];
         run_files := fs' |}.
Proof. eexists. vm_compute. reflexivity. Qed.

(** The limits [LLONG_MAX] with one hardware thread and [2^63 - 2] with
    two: the reservation of the first worker throws. *)
Example main_io_aborts :
  main_io 60 {| hardware_concurrency := 1;
                write_fails := fun _ => false;
                read_fails := fun _ => false;
                alloc_fails := fun _ => false |}
    "prime_numbers" ["9223372036854775807"] ∅ = Aborts /\
  main_io 60 env2 "prime_numbers" ["9223372036854775806"] ∅ = Aborts.
Proof. split; vm_compute; reflexivity. Qed.
